(** * magicmix: the DJ-set sequencing engine and its key-label parser

    A shallow embedding of [internal/track] (keys, tracks, [ParseKey]), of
    [internal/strategy] (the default sorter: planner, scoring, greedy loop)
    and of [internal/csvio] (the loader and the rows of the writer),
    followed by the properties of the specification that were checked
    against it and by further properties of the code.

    Conventions of the embedding.
    - Go's [int] is a 64-bit two's-complement integer.  It is carried by [Z];
      where the source subtracts two caller-supplied values the wrap-around
      is written out with [wrap64].  Slice lengths and slice indices are
      carried by [nat].
    - Go's [float64] is IEEE-754 binary64, carried by the primitive [float].
      The few functions of Go's [math] package that the source calls are
      defined below from their documented behaviour.  (On targets where the
      Go compiler fuses multiply-add the last bit of a score may differ; the
      operations here are rounded one by one, as on amd64.)
    - Go strings are byte sequences, carried by [string].
    - A run-time panic (index out of range) is the [None] of an [option].
    - The pseudo-random generator of Go's [math/rand] is not part of the
      repository; it enters as the interface [RandSource].
    - A file enters [csvio.Load] as the sequence of results that the reader
      of [encoding/csv] returns for it; [strconv.ParseFloat] and
      [strconv.FormatFloat] are parameters of the package. *)

From Stdlib Require Import ZArith List Bool Lia String Ascii Floats Permutation.
From Stdlib Require Import Reals Lra.
From stdpp Require Import gmap strings.

Set Warnings "-inexact-float".
Open Scope Z_scope.

(** ** Go integers *)

Module GoInt.

Definition minInt64 : Z := - 2 ^ 63.
Definition maxInt64 : Z := 2 ^ 63 - 1.

(** The value a 64-bit signed register holds after an overflowing result. *)
Definition wrap64 (z : Z) : Z := (z + 2 ^ 63) mod 2 ^ 64 - 2 ^ 63.

Definition inInt64 (z : Z) : bool := (minInt64 <=? z) && (z <=? maxInt64).

End GoInt.

(** ** Go's float64 and the [math] functions the sorter calls *)

Module GoFloat.

(** [float64(n)] for an [int] n: the nearest binary64, ties to even. *)
Definition float_of_int (z : Z) : float :=
  SF2Prim (binary_normalize prec emax z 0 false).

(** [int(f)]: truncation toward zero.  Outside the range of [int] (and for
    NaN and the infinities) the result is the amd64 one, the minimum int64. *)
Definition int_of_float (f : float) : Z :=
  match Prim2SF f with
  | S754_zero _ => 0
  | S754_finite s m e =>
      let a := if 0 <=? e then Z.pos m * 2 ^ e else Z.pos m / 2 ^ (- e) in
      let v := if s then - a else a in
      if GoInt.inInt64 v then v else GoInt.minInt64
  | _ => GoInt.minInt64
  end.

Definition math_Inf (sign : Z) : float :=
  if 0 <=? sign then infinity else neg_infinity.

Definition math_Abs (f : float) : float := abs f.

(** [math.Floor]: the zeros, the infinities and NaN are returned as they are. *)
Definition math_Floor (f : float) : float :=
  match Prim2SF f with
  | S754_finite s m e =>
      if 0 <=? e then f
      else float_of_int ((if s then Z.neg m else Z.pos m) / 2 ^ (- e))
  | _ => f
  end.

(** [math.Ceil(x)] is [-Floor(-x)], as in Go's own definition. *)
Definition math_Ceil (f : float) : float := (- math_Floor (- f))%float.

(** [math.Round]: nearest integer, halves away from zero; a result that
    rounds to zero keeps the sign of the argument. *)
Definition math_Round (f : float) : float :=
  match Prim2SF f with
  | S754_finite s m e =>
      if 0 <=? e then f
      else
        let d := 2 ^ (- e) in
        let q := Z.pos m / d in
        let r := Z.pos m mod d in
        let n := if d <=? 2 * r then q + 1 else q in
        if n =? 0 then (if s then neg_zero else zero)
        else float_of_int (if s then - n else n)
  | _ => f
  end.

Definition signbit (f : float) : bool :=
  match Prim2SF f with
  | S754_zero s | S754_infinity s | S754_finite s _ _ => s
  | S754_nan => false
  end.

(** [math.Max], with Go's special cases in Go's order. *)
Definition math_Max (x y : float) : float :=
  if (x =? infinity)%float || (y =? infinity)%float then infinity
  else if is_nan x || is_nan y then nan
  else if (x =? zero)%float && (x =? y)%float then (if signbit x then y else x)
  else if (y <? x)%float then x else y.

(** [math.Min], likewise. *)
Definition math_Min (x y : float) : float :=
  if (x =? neg_infinity)%float || (y =? neg_infinity)%float then neg_infinity
  else if is_nan x || is_nan y then nan
  else if (x =? zero)%float && (x =? y)%float then (if signbit x then x else y)
  else if (x <? y)%float then x else y.

(** [sort.Ints]: the ascending arrangement of the values. *)
Fixpoint insertInt (x : Z) (l : list Z) : list Z :=
  match l with
  | [] => [x]
  | y :: l' => if x <=? y then x :: l else y :: insertInt x l'
  end.

Definition sort_Ints (l : list Z) : list Z := foldr insertInt [] l.

(** [sort.Float64s]: ascending, NaN before every other value.  The sort
    of the library is not stable: where values compare equal (the two
    zeros, several NaN) their arrangement is the library's own, while the
    insertion below keeps them in the order of the input.  The two agree
    on every list without such values, and up to the sign of a zero on
    every list without NaN. *)
Definition float64Less (x y : float) : bool :=
  (x <? y)%float || (is_nan x && negb (is_nan y)).

Fixpoint insertFloat (x : float) (l : list float) : list float :=
  match l with
  | [] => [x]
  | y :: l' => if float64Less y x then y :: insertFloat x l' else x :: l
  end.

Definition sort_Float64s (l : list float) : list float := foldr insertFloat [] l.

End GoFloat.

(** ** Go strings: the [strings] and [strconv] functions [ParseKey] calls *)

Module GoString.

Definition byteOf (c : ascii) : Z := Z.of_nat (nat_of_ascii c).

(** [utf8.RuneSelf]: bytes below it are the ASCII characters. *)
Definition RuneSelf : Z := 128.

Definition isASCIIByte (c : ascii) : bool := byteOf c <? RuneSelf.

Fixpoint isASCII (s : string) : bool :=
  match s with
  | EmptyString => true
  | String c s' => isASCIIByte c && isASCII s'
  end.

Definition upperByte (c : ascii) : ascii :=
  if (97 <=? byteOf c) && (byteOf c <=? 122)
  then ascii_of_nat (nat_of_ascii c - 32) else c.

Fixpoint mapBytes (f : ascii -> ascii) (s : string) : string :=
  match s with
  | EmptyString => EmptyString
  | String c s' => String (f c) (mapBytes f s')
  end.

(** The table [asciiSpace] of package [strings]: tab, newline, vertical
    tab, form feed, carriage return, space. *)
Definition asciiSpace (c : ascii) : bool :=
  let b := byteOf c in
  (b =? 9) || (b =? 10) || (b =? 11) || (b =? 12) || (b =? 13) || (b =? 32).

Fixpoint rev_string (s acc : string) : string :=
  match s with
  | EmptyString => acc
  | String c s' => rev_string s' (String c acc)
  end.

Section Unicode.

(** Outside ASCII the two functions consult the Unicode tables of Go's
    standard library, which are not part of the repository.  The three
    table-driven fallbacks are parameters:
    [strings.Map(unicode.ToUpper, s)], [strings.TrimFunc(s, unicode.IsSpace)]
    and [strings.TrimRightFunc(s, unicode.IsSpace)]. *)
Variable unicodeMapToUpper : string -> string.
Variable unicodeTrimFunc : string -> string.
Variable unicodeTrimRightFunc : string -> string.

(** [strings.ToUpper]: the ASCII-only path maps a-z to A-Z byte by byte. *)
Definition ToUpper (s : string) : string :=
  if isASCII s then mapBytes upperByte s else unicodeMapToUpper s.

(** The second loop of [strings.TrimSpace], run on the reversed remainder
    [r] (its first byte is the last byte of the string). *)
Fixpoint trimRightLoop (r : string) : string :=
  match r with
  | EmptyString => EmptyString
  | String c r' =>
      if negb (isASCIIByte c) then unicodeTrimRightFunc (rev_string r EmptyString)
      else if asciiSpace c then trimRightLoop r'
      else rev_string r EmptyString
  end.

(** [strings.TrimSpace]: the first loop advances [start]; a non-ASCII byte
    hands the rest to the Unicode-aware trimming. *)
Fixpoint TrimSpace (s : string) : string :=
  match s with
  | EmptyString => EmptyString
  | String c s' =>
      if negb (isASCIIByte c) then unicodeTrimFunc s
      else if asciiSpace c then TrimSpace s'
      else trimRightLoop (rev_string s EmptyString)
  end.

End Unicode.

Definition isDigit (c : ascii) : bool := (48 <=? byteOf c) && (byteOf c <=? 57).

(** The digit loop of [strconv.Atoi]: [n = n*10 + int(ch - '0')]; a byte
    that is no decimal digit is a syntax error. *)
Fixpoint atoiDigits (s : string) (n : Z) : option Z :=
  match s with
  | EmptyString => Some n
  | String c s' =>
      if isDigit c then atoiDigits s' (n * 10 + (byteOf c - 48)) else None
  end.

(** [strconv.Atoi]: an optional sign, then at least one decimal digit and
    nothing else; a value that does not fit [int] is a range error.
    [None] stands for the returned error. *)
Definition Atoi (s : string) : option Z :=
  match s with
  | EmptyString => None
  | String c s' =>
      let neg := (byteOf c =? 45) in
      let signed := neg || (byteOf c =? 43) in
      let body := if signed then s' else s in
      match body with
      | EmptyString => None
      | _ =>
          match atoiDigits body 0 with
          | None => None
          | Some n =>
              let v := if neg then - n else n in
              if GoInt.inInt64 v then Some v else None
          end
      end
  end.

Definition digitByte (d : Z) : ascii := ascii_of_nat (Z.to_nat (48 + d)).

(** The digit loop of [strconv.Itoa] (base 10) on the magnitude [u]: the
    digits are produced from the least significant one,
    [for u >= 10 { q := u / 10; a[i] = '0' + u - q*10; u = q }], then the
    leading digit.  A 64-bit magnitude has at most 20 digits; [fuel] bounds
    the loop. *)
Fixpoint formatDigits (fuel : nat) (u : Z) (acc : string) : string :=
  match fuel with
  | O => acc
  | S fuel' =>
      if u <? 10 then String (digitByte u) acc
      else formatDigits fuel' (u / 10) (String (digitByte (u mod 10)) acc)
  end.

(** [strconv.Itoa], which is also the verb [%d] of [fmt.Sprintf]. *)
Definition Itoa (n : Z) : string :=
  if n <? 0 then String "-" (formatDigits 20 (- n) EmptyString)
  else formatDigits 20 n EmptyString.

End GoString.

(** ** Package [track] *)

Module track.

(** [type Mode string]: any string can be stored in a [Mode]. *)
Definition Mode := string.

Definition ModeA : Mode := "A"%string.
Definition ModeB : Mode := "B"%string.

Record Key := mkKey { Number : Z; KeyMode : Mode }.

Record Track := mkTrack {
  Title : string;
  Artist : string;
  BPM : float;
  Energy : Z;
  TrackKey : Key
}.

(** [Track.Clone]: a field-by-field copy. *)
Definition Clone (t : Track) : Track :=
  {| Title := Title t; Artist := Artist t; BPM := BPM t;
     Energy := Energy t; TrackKey := TrackKey t |}.

(** The errors of [ParseKey], one per [fmt.Errorf]. *)
Inductive parseError :=
| InvalidKeyFormat
| InvalidKeyMode
| InvalidKeyNumber
| KeyNumberOutOfRange (number : Z).

(** [cleaned[len(cleaned)-1:]] and [cleaned[:len(cleaned)-1]]. *)
Fixpoint splitLast (s : string) : string * string :=
  match s with
  | EmptyString => (EmptyString, EmptyString)
  | String c EmptyString => (EmptyString, s)
  | String c s' => let (front, last) := splitLast s' in (String c front, last)
  end.

(** The body of [ParseKey] below its first line, on the cleaned label. *)
Definition parseCleaned (cleaned : string) : parseError + Key :=
  if (String.length cleaned <? 2)%nat || (3 <? String.length cleaned)%nat
  then inl InvalidKeyFormat
  else
    let (numberPart, mode) := splitLast cleaned in
    if negb (String.eqb mode ModeA) && negb (String.eqb mode ModeB)
    then inl InvalidKeyMode
    else
      match GoString.Atoi numberPart with
      | None => inl InvalidKeyNumber
      | Some number =>
          if (number <? 1) || (12 <? number)
          then inl (KeyNumberOutOfRange number)
          else inr {| Number := number; KeyMode := mode |}
      end.

Section Unicode.

Variable unicodeMapToUpper : string -> string.
Variable unicodeTrimFunc : string -> string.
Variable unicodeTrimRightFunc : string -> string.

(** [cleaned := strings.TrimSpace(strings.ToUpper(input))]. *)
Definition cleanLabel (input : string) : string :=
  GoString.TrimSpace unicodeTrimFunc unicodeTrimRightFunc
    (GoString.ToUpper unicodeMapToUpper input).

(** [ParseKey]: the returned pair (Key, error) as a sum. *)
Definition ParseKey (input : string) : parseError + Key :=
  parseCleaned (cleanLabel input).

End Unicode.

(** [Key.String]: the empty string for a key whose number is 0, otherwise
    [fmt.Sprintf("%d%s", k.Number, string(k.Mode))]. *)
Definition Key_String (k : Key) : string :=
  if Number k =? 0 then EmptyString
  else (GoString.Itoa (Number k) ++ KeyMode k)%string.

Global Instance Key_eq_dec : EqDecision Key.
Proof. solve_decision. Defined.

Global Instance Key_countable : Countable Key.
Proof.
  refine (inj_countable' (fun k => (Number k, KeyMode k))
                         (fun p => mkKey p.1 p.2) _).
  by intros [??].
Defined.

End track.

(** ** Package [strategy]: the default sorter *)

Module strategy.

Import GoInt GoFloat track.

(** *** The collaborators: random source, context, clock *)

(** [math/rand]: [NewSource seed] is [rand.New(rand.NewSource(seed))];
    [Intn g n] returns the drawn number and the advanced generator.  The
    range law is the documented contract of [Rand.Intn] for [n > 0]. *)
Class RandSource := {
  rngState : Type;
  NewSource : Z -> rngState;
  Intn : rngState -> nat -> nat * rngState;
  Intn_range : forall g n, (0 < n)%nat -> (fst (Intn g n) < n)%nat
}.

(** What [ctx.Err()] returns once the context is done. *)
Inductive ctxError := Canceled | DeadlineExceeded.

(** A [context.Context] as the sorter sees it: the values stored under the
    two keys of this package, the state of the [Done] channel at the k-th
    poll of the call, and its error. *)
Record Context := mkContext {
  limitValue : option Z;
  seedValue : option Z;
  Done : nat -> bool;
  Err : ctxError
}.

Definition WithLimit (ctx : Context) (limit : Z) : Context :=
  if limit <=? 0 then ctx
  else {| limitValue := Some limit; seedValue := seedValue ctx;
          Done := Done ctx; Err := Err ctx |}.

Definition limitFromContext (ctx : Context) : Z :=
  match limitValue ctx with
  | Some limit => limit
  | None => 0
  end.

Definition WithSeed (ctx : Context) (seed : Z) : Context :=
  {| limitValue := limitValue ctx; seedValue := Some seed;
     Done := Done ctx; Err := Err ctx |}.

Definition seedFromContext (ctx : Context) : Z * bool :=
  match seedValue ctx with
  | Some seed => (seed, true)
  | None => (0, false)
  end.

(** *** Constants *)

Definition cycleMinTracks : Z := 6.
Definition cycleMaxTracks : Z := 10.
Definition cycleIdealTracks : Z := 8.

Definition keyWeight : float := 12.0.
Definition bpmWeight : float := 0.8.
Definition energyWeight : float := 2.0.

Definition varietyStepThreshold : Z := 2.
Definition varietyStepWeight : float := 3.0.
Definition varietyLetterThreshold : Z := 5.
Definition varietyLetterWeight : float := 2.5.
Definition varietyEnergyThreshold : Z := 5.
Definition varietyEnergyReward : float := 1.5.
Definition varietyEnergyPenalty : float := 0.6.
Definition energyDropThreshold : float := 10.
Definition startSelectionTolerance : float := 1.0.

(** The constant expression [(varietyStepWeight * 0.7)]: Go evaluates it
    exactly and converts the result, 2.1, to float64. *)
Definition varietyStepPenalty : float := 2.1.

(** *** Data *)

Record mixStats := mkMixStats {
  energySorted : list Z;
  bpmSorted : list float;
  energyLow : float;
  energyHigh : float;
  energyMedian : float;
  bpmMedian : float
}.

(** The field [stats] of the Go struct is [stateStats] here: the planner
    has a field of the same name. *)
Record mixState := mkMixState {
  prev : Track;
  prevSet : bool;
  cycleIndex : Z;
  tracksInCycle : Z;
  cycleStartEnergy : float;
  desiredCycleLen : Z;
  stateStats : mixStats;
  sameNumberStreak : Z;
  stepsSinceStep1 : Z;
  stepsSinceStep2 : Z;
  stepsSinceLetterFlip : Z;
  stepsSinceEnergyDrop : Z
}.

Record transition := mkTransition {
  diff : Z;
  wrap : bool;
  modeChange : bool
}.

(** [closeFloat] and [maxInt]. *)
Definition closeFloat (a b : float) : bool :=
  (math_Abs (a - b) <=? 1e-6)%float.

Definition maxInt (a b : Z) : Z := if b <? a then a else b.

(** A read of a Go map: a missing key reads as zero. *)
Definition count {K} `{Countable K} (m : gmap K Z) (k : K) : Z :=
  default 0 (m !! k).

(** [m[k]++] and the pair [m[k]--; if m[k] <= 0 { delete(m, k) }]. *)
Definition increment {K} `{Countable K} (m : gmap K Z) (k : K) : gmap K Z :=
  <[k := count m k + 1]> m.

Definition decrement {K} `{Countable K} (m : gmap K Z) (k : K) : gmap K Z :=
  let m' := <[k := count m k - 1]> m in
  if count m' k <=? 0 then delete k m' else m'.

(** *** Statistics *)

(** [values[i]] of the quantile functions; for 0 < q < 1 the two indices
    lie between 0 and len-1. *)
Definition quantileInts (values : list Z) (q : float) : float :=
  match values with
  | [] => 0%float
  | v0 :: _ =>
      if (q <=? 0)%float then float_of_int v0
      else if (1 <=? q)%float then float_of_int (List.last values 0)
      else
        let position := (q * float_of_int (Z.of_nat (length values) - 1))%float in
        let lower := int_of_float (math_Floor position) in
        let upper := int_of_float (math_Ceil position) in
        let at_ i := float_of_int (nth (Z.to_nat i) values 0) in
        if lower =? upper then at_ lower
        else
          let fraction := (position - float_of_int lower)%float in
          (at_ lower + (at_ upper - at_ lower) * fraction)%float
  end.

Definition quantileFloats (values : list float) (q : float) : float :=
  match values with
  | [] => 0%float
  | v0 :: _ =>
      if (q <=? 0)%float then v0
      else if (1 <=? q)%float then List.last values 0%float
      else
        let position := (q * float_of_int (Z.of_nat (length values) - 1))%float in
        let lower := int_of_float (math_Floor position) in
        let upper := int_of_float (math_Ceil position) in
        let at_ i := nth (Z.to_nat i) values 0%float in
        if lower =? upper then at_ lower
        else
          let fraction := (position - float_of_int lower)%float in
          (at_ lower + (at_ upper - at_ lower) * fraction)%float
  end.

Definition analyzeMixStats (tracks : list Track) : mixStats :=
  let energies := sort_Ints (map Energy tracks) in
  let bpms := sort_Float64s (map BPM tracks) in
  {| energySorted := energies;
     bpmSorted := bpms;
     energyLow := quantileInts energies 0.25;
     energyHigh := quantileInts energies 0.75;
     energyMedian := quantileInts energies 0.5;
     bpmMedian := quantileFloats bpms 0.5 |}.

Definition idealCycleLength (total : Z) : Z :=
  if total <=? cycleMinTracks then
    if total =? 0 then cycleMinTracks else total
  else
    let estimatedCycles :=
      int_of_float
        (math_Max 1 (math_Round (float_of_int total / float_of_int cycleIdealTracks))) in
    Z.min
      (Z.max
         (int_of_float (math_Round (float_of_int total / float_of_int estimatedCycles)))
         cycleMinTracks)
      cycleMaxTracks.

(** *** Transitions *)

Definition emptyTransition : transition :=
  {| diff := 0; wrap := false; modeChange := false |}.

Definition computeTransition (state : mixState) (candidate : Track) : transition :=
  if negb (prevSet state) then emptyTransition
  else
    let prevNumber := Number (TrackKey (prev state)) in
    let nextNumber := Number (TrackKey candidate) in
    let d := wrap64 (nextNumber - prevNumber) in
    let mc := negb (String.eqb (KeyMode (TrackKey candidate))
                               (KeyMode (TrackKey (prev state)))) in
    if d <? 0 then {| diff := d + 12; wrap := true; modeChange := mc |}
    else {| diff := d; wrap := false; modeChange := mc |}.

Definition categorizeTransition (state : mixState) (trans : transition) : Z :=
  if negb (prevSet state) then 0
  else if modeChange trans && (0 <? diff trans) then 4
  else
    match diff trans with
    | 1 => if modeChange trans then 4 else 0
    | 2 => if modeChange trans then 4 else 1
    | 0 => if modeChange trans then 3 else 2
    | _ => 4
    end.

(** The loop of [hasShallowStepOption] over the remaining pool. *)
Fixpoint shallowLoop (state : mixState) (pool : list Track) (maxStep : Z) : bool :=
  match pool with
  | [] => false
  | cand :: pool' =>
      let trans := computeTransition state cand in
      if diff trans =? 0 then true
      else if modeChange trans then shallowLoop state pool' maxStep
      else if (0 <? diff trans) && (diff trans <=? maxStep) then true
      else shallowLoop state pool' maxStep
  end.

(** *** Costs *)

Definition keyTransitionCost (state : mixState) (trans : transition) : float :=
  if negb (prevSet state) then 0%float
  else
    let d := diff trans in
    let cost :=
      match d with
      | 0 => 3.0%float
      | 1 => 0%float
      | 2 => 0%float
      | 3 => 2%float
      | _ => (float_of_int (wrap64 (d * d)) / 2)%float
      end in
    let cost :=
      if modeChange trans && (0 <? d) then (cost + 12)%float else cost in
    if wrap trans && (2 <? d) then
      let basePenalty :=
        if desiredCycleLen state - 1 <=? tracksInCycle state then (6.0 * 0.4)%float
        else if desiredCycleLen state - 2 <=? tracksInCycle state then (6.0 * 0.6)%float
        else 6.0%float in
      (cost + basePenalty)%float
    else cost.

Definition nextEnergyTarget (state : mixState) (stats : mixStats)
    (desiredCycleLen : Z) : float :=
  let base := cycleStartEnergy state in
  let high := energyHigh stats in
  let high := if (high <=? base)%float then math_Min 100 (base + 12)%float else high in
  let progress :=
    (float_of_int (tracksInCycle state) / float_of_int (maxInt desiredCycleLen 1))%float in
  let progress := if (1 <? progress)%float then 1%float else progress in
  (base + (high - base) * progress)%float.

(** The variety adjustment shared by the two branches of
    [energyTransitionCost], followed by the floor at -5. *)
Definition energyVariety (state : mixState) (drop cost : float) : float :=
  let cost :=
    if (energyDropThreshold <=? drop)%float
       && (varietyEnergyThreshold <=? stepsSinceEnergyDrop state)
    then
      (cost - float_of_int (stepsSinceEnergyDrop state - varietyEnergyThreshold + 1)
              * varietyEnergyReward)%float
    else if (drop <? energyDropThreshold)%float
            && (varietyEnergyThreshold + 2 <=? stepsSinceEnergyDrop state)
    then
      (cost + float_of_int (stepsSinceEnergyDrop state - (varietyEnergyThreshold + 1))
              * varietyEnergyPenalty)%float
    else cost in
  if (cost <? -5)%float then (-5)%float else cost.

Definition energyTransitionCost (state : mixState) (candidate : Track)
    (trans : transition) (stats : mixStats) (desiredCycleLen : Z) : float :=
  let energy := float_of_int (Energy candidate) in
  if negb (prevSet state) then
    (math_Abs (energy - energyLow stats) / 8)%float
  else
    let delta := (energy - float_of_int (Energy (prev state)))%float in
    let drop := (- delta)%float in
    if wrap trans then
      let cost := (math_Abs (energy - energyLow stats) / 6)%float in
      let cost := if (drop <? 12)%float then (cost + (12 - drop) / 6)%float else cost in
      energyVariety state drop cost
    else
      let target := nextEnergyTarget state stats desiredCycleLen in
      let cost := (math_Abs (energy - target) / 9)%float in
      let cost :=
        if (delta <? 0)%float then
          if Z.quot desiredCycleLen 2 <? tracksInCycle state
          then (cost + math_Abs delta / 10)%float
          else (cost + math_Abs delta / 6)%float
        else if (12 <? delta)%float then (cost + (delta - 12) / 8)%float
        else cost in
      energyVariety state drop cost.

Definition bpmTransitionCost (state : mixState) (candidate : Track)
    (stats : mixStats) : float :=
  if negb (prevSet state) then
    (math_Abs (BPM candidate - bpmMedian stats) / 6)%float
  else
    let d := math_Abs (BPM candidate - BPM (prev state)) in
    if (d <=? 1)%float then (d * 0.2)%float
    else if (d <=? 2.5)%float then (d * 0.4)%float
    else if (d <=? 5)%float then (0.8 + (d - 2.5) * 0.5)%float
    else (2 + (d - 5) * 0.7)%float.

(** *** The planner *)

Section Planner.

Context {rand : RandSource}.

Record mixPlanner := mkMixPlanner {
  remaining : list Track;
  stats : mixStats;
  desiredCycleLength : Z;
  countsByKey : gmap Key Z;
  countsByNumber : gmap Z Z;
  rng : rngState;
  totalTracks : Z;
  targetCount : Z
}.

Definition withRng (p : mixPlanner) (g : rngState) : mixPlanner :=
  {| remaining := remaining p; stats := stats p;
     desiredCycleLength := desiredCycleLength p;
     countsByKey := countsByKey p; countsByNumber := countsByNumber p;
     rng := g; totalTracks := totalTracks p; targetCount := targetCount p |}.

(** [time.Now().UnixNano()] is the argument [now]. *)
Definition plannerSeed (now : Z) (ctx : Context) : Z :=
  let (seed, ok) := seedFromContext ctx in
  if negb ok || (seed =? 0) then now else seed.

Definition newMixPlanner (now : Z) (ctx : Context) (tracks : list Track)
    (targetCount : Z) : mixPlanner :=
  let remaining := map Clone tracks in
  {| remaining := remaining;
     stats := analyzeMixStats remaining;
     desiredCycleLength := idealCycleLength (Z.of_nat (length remaining));
     countsByKey := fold_left (fun m t => increment m (TrackKey t)) remaining ∅;
     countsByNumber :=
       fold_left (fun m t => increment m (Number (TrackKey t))) remaining ∅;
     rng := NewSource (plannerSeed now ctx);
     totalTracks := Z.of_nat (length tracks);
     targetCount := targetCount |}.

Definition initialState (p : mixPlanner) (start : Track) : mixState :=
  {| prev := start;
     prevSet := true;
     cycleIndex := 0;
     tracksInCycle := 1;
     cycleStartEnergy := float_of_int (Energy start);
     desiredCycleLen := desiredCycleLength p;
     stateStats := stats p;
     sameNumberStreak := 0;
     stepsSinceStep1 := 0;
     stepsSinceStep2 := 0;
     stepsSinceLetterFlip := 0;
     stepsSinceEnergyDrop := 0 |}.

(** [for idx, candidate := range p.remaining]: the pool with its indices. *)
Definition indexed {A} (l : list A) : list (nat * A) :=
  combine (seq 0 (length l)) l.

(** **** Start selection *)

Definition startScore (p : mixPlanner) (candidate : Track) : float :=
  let keyCount := float_of_int (count (countsByNumber p) (Number (TrackKey candidate))) in
  let modeCount := float_of_int (count (countsByKey p) (TrackKey candidate)) in
  let freqScore := (- keyCount * 6)%float in
  let freqScore := if (1 <? modeCount)%float then (freqScore - 1)%float else freqScore in
  let energyDiff := math_Abs (float_of_int (Energy candidate) - energyLow (stats p)) in
  let bpmDiff := math_Abs (BPM candidate - bpmMedian (stats p)) in
  (freqScore + energyDiff * 0.2 + bpmDiff * 0.05)%float.

(** One iteration of the loop of [chooseStartIndex] on the pair
    (bestScore, candidates). *)
Definition startStep (p : mixPlanner) (acc : float * list nat)
    (ic : nat * Track) : float * list nat :=
  let (bestScore, candidates) := acc in
  let (idx, candidate) := ic in
  let score := startScore p candidate in
  if (score <? bestScore - startSelectionTolerance)%float then (score, [idx])
  else if (score <=? bestScore + startSelectionTolerance)%float
       then (bestScore, candidates ++ [idx])
       else (bestScore, candidates).

Definition startScan (p : mixPlanner) : float * list nat :=
  fold_left (startStep p) (indexed (remaining p)) (math_Inf 1, []).

(** The chosen index and the planner with its generator advanced. *)
Definition chooseStartIndex (p : mixPlanner) : nat * mixPlanner :=
  let candidates := snd (startScan p) in
  match candidates with
  | [] => (0%nat, p)
  | _ =>
      let (r, g) := Intn (rng p) (length candidates) in
      (nth r candidates 0%nat, withRng p g)
  end.

(** **** Scoring of a transition *)

Definition hasShallowStepOption (state : mixState) (p : mixPlanner)
    (maxStep : Z) : bool :=
  if negb (prevSet state) then true
  else shallowLoop state (remaining p) maxStep.

Definition coverageOf (p : mixPlanner) : float :=
  if 0 <? totalTracks p then
    let coverage := (float_of_int (targetCount p) / float_of_int (totalTracks p))%float in
    let coverage := if (1 <? coverage)%float then 1%float else coverage in
    if (coverage <? 0.1)%float then 0.1%float else coverage
  else 1.0%float.

(** [if v := float64(n); v > 0 { total += v * w }]. *)
Definition addIfPositive (total v w : float) : float :=
  if (0 <? v)%float then (total + v * w)%float else total.

Definition transitionScoreWithTransition (p : mixPlanner) (state : mixState)
    (candidate : Track) (trans : transition) : float :=
  let keyCost := keyTransitionCost state trans in
  let energyCost :=
    energyTransitionCost state candidate trans (stats p) (desiredCycleLength p) in
  let bpmCost := bpmTransitionCost state candidate (stats p) in
  let remainingCount :=
    float_of_int (count (countsByNumber p) (Number (TrackKey candidate))) in
  let flexCost :=
    if (0 <? remainingCount)%float then (1.0 / remainingCount)%float else 0.0%float in
  let total :=
    (keyCost * keyWeight + bpmCost * bpmWeight + energyCost * energyWeight + flexCost)%float in
  let coverage := coverageOf p in
  let remainingCurrent :=
    float_of_int (count (countsByNumber p) (Number (TrackKey (prev state)))) in
  let remainingMode := float_of_int (count (countsByKey p) (TrackKey (prev state))) in
  let d := diff trans in
  (* first block guarded by state.prevSet *)
  let total :=
    if prevSet state then
      let total :=
        if 0 <? d then
          let total :=
            if (0 <? remainingCurrent)%float
            then (total + remainingCurrent * 0.5 * coverage)%float else total in
          if (0 <? remainingMode)%float
          then (total + remainingMode * 1.0 * coverage)%float else total
        else total in
      if (3 <=? d) && hasShallowStepOption state p 2
      then (total + (float_of_int (wrap64 ((d - 2) * 8)) + 18))%float else total
    else total in
  (* second block guarded by state.prevSet: the variety terms *)
  let total :=
    if prevSet state then
      let total :=
        if d =? 1 then
          let total :=
            if varietyStepThreshold <=? stepsSinceStep1 state
            then (total - float_of_int (stepsSinceStep1 state - varietyStepThreshold + 1)
                          * varietyStepWeight)%float
            else total in
          if varietyStepThreshold + 1 <=? stepsSinceStep2 state
          then (total + float_of_int (stepsSinceStep2 state - varietyStepThreshold)
                        * varietyStepPenalty)%float
          else total
        else total in
      let total :=
        if d =? 2 then
          let total :=
            if varietyStepThreshold <=? stepsSinceStep2 state
            then (total - float_of_int (stepsSinceStep2 state - varietyStepThreshold + 1)
                          * varietyStepWeight)%float
            else total in
          if varietyStepThreshold + 1 <=? stepsSinceStep1 state
          then (total + float_of_int (stepsSinceStep1 state - varietyStepThreshold)
                        * varietyStepPenalty)%float
          else total
        else total in
      if (d =? 0) && modeChange trans
         && (varietyLetterThreshold <=? stepsSinceLetterFlip state)
      then (total - float_of_int (stepsSinceLetterFlip state - varietyLetterThreshold + 1)
                    * varietyLetterWeight)%float
      else total
    else total in
  let baseWeight := (0.6 * coverage)%float in
  let total := (total - remainingCount * baseWeight)%float in
  let total :=
    (total - float_of_int (count (countsByKey p) (TrackKey candidate)) * baseWeight)%float in
  let total :=
    if wrap trans && (2 <? d) && (tracksInCycle state <? cycleMinTracks)
    then (total + 7)%float else total in
  let total :=
    if wrap trans && (2 <? d) && prevSet state
    then addIfPositive total remainingCurrent 2 else total in
  if prevSet state && (d =? 0)
  then (total + float_of_int (sameNumberStreak state + 1) * 6)%float
  else total.

(** **** Next-step selection *)

(** The local [type choice struct] of [chooseNextIndex]. *)
Record choice := mkChoice {
  choiceIdx : nat;
  choiceScore : float;
  choiceSet : bool
}.

Definition noChoice : choice :=
  {| choiceIdx := 0; choiceScore := 0; choiceSet := false |}.

(** [var buckets [5]choice]. *)
Definition emptyBuckets : list choice := replicate 5 noChoice.

(** One iteration of the first loop of [chooseNextIndex]: the buckets and
    the generator after candidate [idx] has been scored. *)
Definition bucketStep (p : mixPlanner) (state : mixState)
    (acc : list choice * rngState) (ic : nat * Track) : list choice * rngState :=
  let (buckets, g) := acc in
  let (idx, candidate) := ic in
  let trans := computeTransition state candidate in
  let score := transitionScoreWithTransition p state candidate trans in
  let category := categorizeTransition state trans in
  if (category <? 0) || (Z.of_nat (length buckets) <=? category) then acc
  else
    match buckets !! Z.to_nat category with
    | None => acc
    | Some best =>
        if negb (choiceSet best) || (score <? choiceScore best - 1e-6)%float then
          (<[Z.to_nat category :=
               {| choiceIdx := idx; choiceScore := score; choiceSet := true |}]> buckets, g)
        else if choiceSet best && closeFloat score (choiceScore best) then
          let (r, g') := Intn g 2 in
          if (r =? 0)%nat then
            (<[Z.to_nat category :=
                 {| choiceIdx := idx; choiceScore := score;
                    choiceSet := choiceSet best |}]> buckets, g')
          else (buckets, g')
        else acc
    end.

Definition scanBuckets (p : mixPlanner) (state : mixState) : list choice * rngState :=
  fold_left (bucketStep p state) (indexed (remaining p)) (emptyBuckets, rng p).

(** The de-duplication loop at the end of [categoryOrder]. *)
Fixpoint uniqueOrder (seen order : list Z) : list Z :=
  match order with
  | [] => []
  | v :: order' =>
      if existsb (Z.eqb v) seen then uniqueOrder seen order'
      else v :: uniqueOrder (v :: seen) order'
  end.

Definition categoryOrder (state : mixState) : list Z :=
  let order := [0; 1; 2; 3; 4] in
  if negb (prevSet state) then order
  else
    let order :=
      if varietyStepThreshold <=? stepsSinceStep2 state then [1; 0; 2; 3; 4]
      else if varietyStepThreshold <=? stepsSinceStep1 state then [0; 1; 2; 3; 4]
      else order in
    let order :=
      if varietyLetterThreshold <=? stepsSinceLetterFlip state then 3 :: order
      else order in
    uniqueOrder [] order.

(** The second loop of [chooseNextIndex]: the first category of the order
    whose bucket is set; [None] when the loop ends without returning. *)
Fixpoint firstSet (buckets : list choice) (order : list Z) : option nat :=
  match order with
  | [] => None
  | category :: order' =>
      match buckets !! Z.to_nat category with
      | Some best =>
          if choiceSet best then Some (choiceIdx best) else firstSet buckets order'
      | None => firstSet buckets order'
      end
  end.

(** The chosen index and the planner with its generator advanced; the
    final [return 0] is the [None] case of [firstSet]. *)
Definition chooseNextIndex (p : mixPlanner) (state : mixState) : nat * mixPlanner :=
  let (buckets, g) := scanBuckets p state in
  match firstSet buckets (categoryOrder state) with
  | Some idx => (idx, withRng p g)
  | None => (0%nat, withRng p g)
  end.

(** **** Taking a track out of the pool *)

(** [take]: [None] is the panic of [p.remaining[idx]] out of range. *)
Definition take (p : mixPlanner) (idx : nat) : option (Track * mixPlanner) :=
  match remaining p !! idx with
  | None => None
  | Some selected =>
      let last := (length (remaining p) - 1)%nat in
      let moved :=
        match remaining p !! last with
        | Some t => <[idx := t]> (remaining p)
        | None => remaining p
        end in
      Some (selected,
            {| remaining := firstn last moved;
               stats := stats p;
               desiredCycleLength := desiredCycleLength p;
               countsByKey := decrement (countsByKey p) (TrackKey selected);
               countsByNumber := decrement (countsByNumber p) (Number (TrackKey selected));
               rng := rng p;
               totalTracks := totalTracks p;
               targetCount := targetCount p |})
  end.

Definition remainingCount (p : mixPlanner) : nat := length (remaining p).

End Planner.

(** **** State advancement *)

Definition cappedIncrement (v : Z) : Z := if v <? 100 then v + 1 else 100.

Definition advance (state : mixState) (next : Track) : mixState :=
  if negb (prevSet state) then
    {| prev := next;
       prevSet := true;
       cycleIndex := cycleIndex state;
       tracksInCycle := 1;
       cycleStartEnergy := float_of_int (Energy next);
       desiredCycleLen := desiredCycleLen state;
       stateStats := stateStats state;
       sameNumberStreak := 0;
       stepsSinceStep1 := 0;
       stepsSinceStep2 := 0;
       stepsSinceLetterFlip := 0;
       stepsSinceEnergyDrop := 0 |}
  else
    let previous := prev state in
    let trans := computeTransition state next in
    let energyDelta := float_of_int (wrap64 (Energy next - Energy previous)) in
    {| prev := next;
       prevSet := prevSet state;
       cycleIndex := if wrap trans then cycleIndex state + 1 else cycleIndex state;
       tracksInCycle := if wrap trans then 1 else tracksInCycle state + 1;
       cycleStartEnergy :=
         if wrap trans then float_of_int (Energy next) else cycleStartEnergy state;
       desiredCycleLen := desiredCycleLen state;
       stateStats := stateStats state;
       sameNumberStreak :=
         if diff trans =? 0 then sameNumberStreak state + 1 else 0;
       stepsSinceStep1 :=
         if diff trans =? 1 then 0 else cappedIncrement (stepsSinceStep1 state);
       stepsSinceStep2 :=
         if diff trans =? 2 then 0 else cappedIncrement (stepsSinceStep2 state);
       stepsSinceLetterFlip :=
         if negb (String.eqb (KeyMode (TrackKey previous)) (KeyMode (TrackKey next)))
         then 0 else cappedIncrement (stepsSinceLetterFlip state);
       stepsSinceEnergyDrop :=
         if (energyDropThreshold <=? - energyDelta)%float
         then 0 else cappedIncrement (stepsSinceEnergyDrop state) |}.

(** *** [DefaultSorter.Sort] *)

Section Sort.

Context {rand : RandSource}.

(** The returned pair ([]Track, error); the outer [None] is a panic. *)
Definition sortResult : Type := option (list Track * option ctxError).

(** The [for] loop of [Sort].  [polls] counts the polls of [ctx.Done()]
    made so far.  Every iteration shortens the pool by one track, so the
    length of the pool at entry is fuel enough; running out of it with the
    loop condition still true does not happen ([greedyLoop_result]). *)
Fixpoint greedyLoop (ctx : Context) (targetCount : Z) (fuel : nat)
    (planner : mixPlanner) (state : mixState) (ordered : list Track)
    (polls : nat) : sortResult :=
  if (0 <? remainingCount planner)%nat
     && (Z.of_nat (length ordered) <? targetCount) then
    match fuel with
    | O => None
    | S fuel' =>
        if Done ctx polls then Some ([], Some (Err ctx))
        else
          let (idx, planner1) := chooseNextIndex planner state in
          match take planner1 idx with
          | None => None
          | Some (next, planner2) =>
              greedyLoop ctx targetCount fuel' planner2 (advance state next)
                         (ordered ++ [next]) (S polls)
          end
    end
  else Some (ordered, None).

Definition sortTarget (ctx : Context) (tracks : list Track) : Z :=
  let targetCount := Z.of_nat (length tracks) in
  let limit := limitFromContext ctx in
  if (0 <? limit) && (limit <? targetCount) then limit else targetCount.

Definition Sort (now : Z) (ctx : Context) (tracks : list Track) : sortResult :=
  if (length tracks <=? 1)%nat then Some (map Clone tracks, None)
  else
    let targetCount := sortTarget ctx tracks in
    let planner := newMixPlanner now ctx tracks targetCount in
    let (startIdx, planner) := chooseStartIndex planner in
    match take planner startIdx with
    | None => None
    | Some (start, planner) =>
        let state := initialState planner start in
        let ordered := [start] in
        if targetCount <=? Z.of_nat (length ordered) then Some (ordered, None)
        else greedyLoop ctx targetCount (remainingCount planner) planner state ordered 0
    end.

End Sort.

(** *** Ordering of tracks *)

(** [compareTracks]: key number, mode, BPM, energy, artist, title, in this
    order.  [<] on Go strings is the bytewise lexicographic order. *)
Definition compareTracks (a b : Track) : Z :=
  if negb (Number (TrackKey a) =? Number (TrackKey b)) then
    wrap64 (Number (TrackKey a) - Number (TrackKey b))
  else if negb (String.eqb (KeyMode (TrackKey a)) (KeyMode (TrackKey b))) then
    if String.ltb (KeyMode (TrackKey a)) (KeyMode (TrackKey b)) then -1 else 1
  else if negb (BPM a =? BPM b)%float then
    if (BPM a <? BPM b)%float then -1 else 1
  else if negb (Energy a =? Energy b) then
    wrap64 (Energy a - Energy b)
  else if negb (String.eqb (Artist a) (Artist b)) then
    if String.ltb (Artist a) (Artist b) then -1 else 1
  else if negb (String.eqb (Title a) (Title b)) then
    if String.ltb (Title a) (Title b) then -1 else 1
  else 0.

End strategy.

(** ** Package [csvio] *)

Module csvio.

Import GoInt GoString track strategy.

(** The errors of [parseRecord], one per [fmt.Errorf]; the error of
    [track.ParseKey] is passed on as it is. *)
Inductive recordError :=
| InvalidBpm
| InvalidEnergy
| EnergyOutOfRange (energy : Z)
| InvalidKey (e : parseError).

(** The errors of [Load]: the file cannot be opened, the context is done,
    the reader fails, a record is too short, a record does not parse. *)
Inductive loadError :=
| OpenInput
| Interrupted (e : ctxError)
| ReadLine (line : Z)
| ColumnCount (line : Z) (got : nat)
| BadLine (line : Z) (e : recordError).

(** What a call of [reader.Read] returns before the end of the file: an
    error other than [io.EOF], or a record.  A file is carried by the list
    of these results; the end of the list is [io.EOF].  Which records the
    reader of [encoding/csv] makes of a text (it is set to trim leading
    space, and it fails on a record whose number of fields differs from
    that of the first) is its own matter: [Load] is modelled on every
    list of results. *)
Inductive readResult :=
| ReadFailure
| Record (fields : list string).

Definition isOk {A} (o : option A) : bool :=
  match o with Some _ => true | None => false end.

Definition isKey {E} (r : E + Key) : bool :=
  match r with inr _ => true | inl _ => false end.

Section Library.

(** The Unicode fallbacks of package [strings], and the two functions of
    package [strconv] on floats: [ParseFloat(s, 64)], whose error is [None],
    and [FormatFloat(f, 'f', -1, 64)]. *)
Variable unicodeMapToUpper : string -> string.
Variable unicodeTrimFunc : string -> string.
Variable unicodeTrimRightFunc : string -> string.
Variable ParseFloat : string -> option float.
Variable FormatFloat : float -> string.

Definition trimSpace (s : string) : string :=
  TrimSpace unicodeTrimFunc unicodeTrimRightFunc s.

Definition parseKey (s : string) : parseError + Key :=
  ParseKey unicodeMapToUpper unicodeTrimFunc unicodeTrimRightFunc s.

(** [looksLikeData]: behind the length check the three fields exist. *)
Definition looksLikeData (record : list string) : bool :=
  if (length record <? 5)%nat then false
  else if negb (isOk (ParseFloat (trimSpace (nth 2 record EmptyString)))) then false
  else if negb (isOk (Atoi (trimSpace (nth 3 record EmptyString)))) then false
  else if negb (isKey (parseKey (nth 4 record EmptyString))) then false
  else true.

(** [parseRecord]: every [record[i]] is a lookup, whose [None] is the
    panic of an index out of range; the inner sum is the returned pair
    (Track, error). *)
Definition parseRecord (record : list string) : option (recordError + Track) :=
  title ← record !! 0%nat;
  artist ← record !! 1%nat;
  bpmField ← record !! 2%nat;
  match ParseFloat (trimSpace bpmField) with
  | None => Some (inl InvalidBpm)
  | Some bpm =>
      energyField ← record !! 3%nat;
      match Atoi (trimSpace energyField) with
      | None => Some (inl InvalidEnergy)
      | Some energy =>
          if (energy <? 0) || (100 <? energy)
          then Some (inl (EnergyOutOfRange energy))
          else
            keyField ← record !! 4%nat;
            match parseKey keyField with
            | inl e => Some (inl (InvalidKey e))
            | inr key =>
                Some (inr {| Title := trimSpace title;
                             Artist := trimSpace artist;
                             BPM := bpm;
                             Energy := energy;
                             TrackKey := key |})
            end
      end
  end.

(** The returned pair ([]Track, error); the outer [None] is a panic. *)
Definition loadResult : Type := option (loadError + list Track).

(** The [for] loop of [Load] on the results the reader still has to give.
    [polls] counts the polls of [ctx.Done()] made so far; [tracks], [line]
    and [header] are the variables of the same names. *)
Fixpoint loadLoop (ctx : Context) (reads : list readResult) (polls : nat)
    (tracks : list Track) (line : Z) (header : bool) : loadResult :=
  if Done ctx polls then Some (inl (Interrupted (Err ctx)))
  else
    match reads with
    | [] => Some (inr tracks)
    | ReadFailure :: _ => Some (inl (ReadLine (line + 1)))
    | Record record :: reads' =>
        let line := line + 1 in
        if (length record =? 0)%nat then
          loadLoop ctx reads' (S polls) tracks line header
        else if (length record <? 5)%nat then
          Some (inl (ColumnCount line (length record)))
        else if (line =? 1) && negb (looksLikeData record) then
          loadLoop ctx reads' (S polls) tracks line true
        else if header && (line =? 1) then
          loadLoop ctx reads' (S polls) tracks line header
        else
          match parseRecord record with
          | None => None
          | Some (inl e) => Some (inl (BadLine line e))
          | Some (inr t) => loadLoop ctx reads' (S polls) (tracks ++ [t]) line header
          end
    end.

(** [Load]: [files] is the file system as [os.Open] and the csv reader
    present it, a path that cannot be opened being [None]. *)
Definition Load (files : string -> option (list readResult)) (ctx : Context)
    (path : string) : loadResult :=
  match files path with
  | None => Some (inl OpenInput)
  | Some reads => loadLoop ctx reads 0 [] 0 false
  end.

(** The records [Save] hands to [writer.Write], in order: the header, then
    one row for every track. *)
Definition saveHeader : list string :=
  ["Title"; "Artist"; "BPM"; "Energy"; "Key"]%string.

Definition saveRow (t : Track) : list string :=
  [Title t; Artist t; FormatFloat (BPM t); Itoa (Energy t); Key_String (TrackKey t)].

Definition saveRecords (tracks : list Track) : list (list string) :=
  saveHeader :: map saveRow tracks.

End Library.

End csvio.

(** * A generator and a fixture for concrete runs *)

Module Fixture.

Import strategy track.

(** A linear congruential generator, standing in for [math/rand] where a
    run has to be evaluated. *)
Definition lcgNext (g : Z) : Z := (g * 1103515245 + 12345) mod 2147483648.

Definition lcgIntn (g : Z) (n : nat) : nat * Z :=
  (Z.to_nat ((g / 65536) mod Z.of_nat n), lcgNext g).

Definition lcg : RandSource.
Proof.
  refine {| rngState := Z;
            NewSource := fun seed => seed mod 2147483648;
            Intn := lcgIntn |}.
  intros g n Hn. unfold lcgIntn. simpl.
  pose proof (Z.mod_pos_bound (g / 65536) (Z.of_nat n)). lia.
Defined.

(** A context that is never cancelled. *)
Definition background : Context :=
  {| limitValue := None; seedValue := None; Done := fun _ => false; Err := Canceled |}.

(** A context that was cancelled before the call. *)
Definition cancelled : Context :=
  {| limitValue := None; seedValue := None; Done := fun _ => true; Err := Canceled |}.

Definition row (title artist : string) (bpm : float) (energy number : Z)
    (mode : Mode) : Track :=
  {| Title := title; Artist := artist; BPM := bpm; Energy := energy;
     TrackKey := {| Number := number; KeyMode := mode |} |}.

(** The three-track example of the specification. *)
Definition trackOne : Track := row "one" "x" 120 50 1 ModeA.
Definition trackTwo : Track := row "two" "x" 121 60 2 ModeA.
Definition trackThree : Track := row "three" "x" 122 70 3 ModeA.

Definition threeTracks : list Track := [trackOne; trackTwo; trackThree].

(** The planner of a run on the three tracks with seed 1, and the state
    once [trackOne] has been placed. *)
Definition plannerThree : mixPlanner (rand := lcg) :=
  newMixPlanner 0 (WithSeed background 1) threeTracks 3.

Definition stateAfterOne : mixState := initialState plannerThree trackOne.

End Fixture.

Module StartFixture.

Import strategy track Fixture.

(** Three tracks whose start scores are -5.6, -4.6 and -6.0, in this
    order, and the planner of a run on them. *)
Definition tracks : list Track :=
  [ row "p" "x" 120 40 1 ModeA;
    row "q" "x" 132 46 2 ModeA;
    row "r" "x" 128 40 3 ModeA ].

Definition planner : mixPlanner (rand := lcg) :=
  newMixPlanner 0 (WithSeed background 65536) tracks 3.

End StartFixture.

(** * The vocabulary of the properties *)

Import GoInt GoFloat GoString track strategy.

(** ** Next-step selection *)

Definition categoryOf (state : mixState) (candidate : Track) : Z :=
  categorizeTransition state (computeTransition state candidate).

(** The bucket of a category holds a choice. *)
Definition isSet (buckets : list choice) (category : Z) : Prop :=
  exists best, buckets !! Z.to_nat category = Some best /\ choiceSet best = true.

(** Every choice held by a bucket is a candidate of the pool that falls in
    the category of the bucket. *)
Definition bucketsSound (pool : list Track) (state : mixState)
    (buckets : list choice) : Prop :=
  length buckets = 5%nat /\
  forall (c : nat) (best : choice),
    buckets !! c = Some best -> choiceSet best = true ->
    exists candidate,
      pool !! choiceIdx best = Some candidate /\
      categoryOf state candidate = Z.of_nat c.

(** A shallow option, in the words of the specification: forward distance
    0, or at most 2 without a change of mode. *)
Definition shallow (state : mixState) (candidate : Track) : Prop :=
  let trans := computeTransition state candidate in
  diff trans = 0 \/ (0 <= diff trans <= 2 /\ modeChange trans = false).

(** ** The output of [Sort] *)

(** The target length in the words of the specification: the limit of the
    context when it is positive, the input length otherwise. *)
Definition requestedTarget (ctx : Context) (tracks : list Track) : Z :=
  if 0 <? limitFromContext ctx then limitFromContext ctx
  else Z.of_nat (length tracks).

(** [out] is a selection of [tracks]: position [i] of the output holds the
    input track of position [f i], and no input position is used twice. *)
Definition selectionOf (out tracks : list Track) : Prop :=
  exists f : nat -> nat,
    Inj (=) (=) f /\
    forall i, (i < length out)%nat -> out !! i = tracks !! f i.

(** The forward key-number distance and the shallow options of the
    specification, between two tracks. *)
Definition keyDistance (a b : Track) : Z :=
  let d := wrap64 (Number (TrackKey b) - Number (TrackKey a)) in
  if d <? 0 then d + 12 else d.

Definition modeChanged (a b : Track) : bool :=
  negb (String.eqb (KeyMode (TrackKey b)) (KeyMode (TrackKey a))).

Definition shallowPair (a c : Track) : Prop :=
  keyDistance a c = 0 \/ (0 <= keyDistance a c <= 2 /\ modeChanged a c = false).

(** [forcedFrom a pool seq]: the sequence [seq] is drawn track by track
    from [pool] after the track [a], and wherever a track follows its
    predecessor at a distance above 3, the pool of that moment held no
    shallow option. *)
Inductive forcedFrom : Track -> list Track -> list Track -> Prop :=
| forced_end (a : Track) (pool : list Track) : forcedFrom a pool []
| forced_step (a b : Track) (pool pool' seq : list Track) :
    Permutation (b :: pool') pool ->
    (3 < keyDistance a b -> forall c, In c pool -> ~ shallowPair a c) ->
    forcedFrom b pool' seq ->
    forcedFrom a pool (b :: seq).

(** ** The order of the numbers *)

Module FloatRank.

(** The place of a number on the line of the comparisons: its class (the
    infinities outermost, zero in the middle), then exponent and mantissa,
    mirrored for a negative number. *)
Definition rank (f : spec_float) : Z * Z * Z :=
  match f with
  | S754_nan => (0, 0, 0)
  | S754_zero _ => (0, 0, 0)
  | S754_infinity s => (if s then -2 else 2, 0, 0)
  | S754_finite s m e => if s then (-1, - e, - Z.pos m) else (1, e, Z.pos m)
  end.

Definition lexlt (a b : Z * Z * Z) : Prop :=
  let '(a1, a2, a3) := a in
  let '(b1, b2, b3) := b in
  a1 < b1 \/ (a1 = b1 /\ (a2 < b2 \/ (a2 = b2 /\ a3 < b3))).

Definition lexle (a b : Z * Z * Z) : Prop :=
  let '(a1, a2, a3) := a in
  let '(b1, b2, b3) := b in
  a1 < b1 \/ (a1 = b1 /\ (a2 < b2 \/ (a2 = b2 /\ a3 <= b3))).

Definition opposite (a : Z * Z * Z) : Z * Z * Z :=
  let '(a1, a2, a3) := a in (- a1, - a2, - a3).

Definition number (f : spec_float) : Prop := f <> S754_nan.

End FloatRank.

(** ** Start selection *)

Section StartVocabulary.

Context {rand : RandSource}.

(** The least start score of the pool. *)
Definition minStartScore (p : mixPlanner) : float :=
  fold_left (fun m candidate =>
               if (startScore p candidate <? m)%float then startScore p candidate else m)
            (remaining p) infinity.

(** The indices of the candidates whose start score lies within the
    tolerance of the least start score. *)
Definition withinTolerance (p : mixPlanner) : list nat :=
  map fst
    (filter (fun ic : nat * Track =>
               (startScore p (snd ic) <=? minStartScore p + startSelectionTolerance)%float
               = true)
            (indexed (remaining p))).

(** A candidate is near the running best [best]: it set it, or it is at
    most the tolerance above it and not more than the tolerance below. *)
Definition nearBest (p : mixPlanner) (best : float) (candidate : Track) : Prop :=
  startScore p candidate = best \/
  ((startScore p candidate <=? best + startSelectionTolerance)%float = true /\
   (startScore p candidate <? best - startSelectionTolerance)%float = false).

(** All start scores of the pool are numbers. *)
Definition scoresAreNumbers (p : mixPlanner) : Prop :=
  forall c, In c (remaining p) -> is_nan (startScore p c) = false.

(** No candidate of the pool has a start score below that of [c]. *)
Definition leastScore (p : mixPlanner) (c : Track) : Prop :=
  forall c', In c' (remaining p) -> (startScore p c' <? startScore p c)%float = false.

(** [m] is the least start score of the candidates [scanned]: the
    infinity of the start or one of their scores, and none of them is
    below it. *)
Definition minOfPool (p : mixPlanner) (scanned : list Track) (m : float) : Prop :=
  (m = infinity \/ exists c, In c scanned /\ m = startScore p c) /\
  forall c, In c scanned -> (startScore p c <? m)%float = false.

(** The running best of a pass is the infinity of the start or a start
    score of the pool. *)
Definition bestOfPool (p : mixPlanner) (acc : float * list nat) : Prop :=
  fst acc = infinity \/ exists c, In c (remaining p) /\ fst acc = startScore p c.

(** A candidate of least score, once visited, is in the list, and what
    undercuts the running best by more than the tolerance would undercut
    the least score. *)
Definition keptLeast (p : mixPlanner) (ic : nat * Track) (acc : float * list nat) : Prop :=
  leastScore p (snd ic) ->
  In (fst ic) (snd acc) /\
  forall s : float,
    (s <? fst acc - startSelectionTolerance)%float = true ->
    (s <? startScore p (snd ic))%float = true.

End StartVocabulary.

(** ** Key labels *)

Module KeyLabels.

Local Open Scope string_scope.

(** The number labels in canonical decimal notation, as the specification
    describes them. *)
Definition canonicalNumerals : list (string * Z) :=
  [ ("1", 1); ("2", 2); ("3", 3); ("4", 4); ("5", 5); ("6", 6);
    ("7", 7); ("8", 8); ("9", 9); ("10", 10); ("11", 11); ("12", 12) ].

(** What [strconv.Atoi] accepts beside them within two bytes: a leading
    zero or a plus sign before one digit. *)
Definition paddedNumerals : list (string * Z) :=
  [ ("01", 1); ("02", 2); ("03", 3); ("04", 4); ("05", 5); ("06", 6);
    ("07", 7); ("08", 8); ("09", 9) ].

Definition signedNumerals : list (string * Z) :=
  [ ("+1", 1); ("+2", 2); ("+3", 3); ("+4", 4); ("+5", 5); ("+6", 6);
    ("+7", 7); ("+8", 8); ("+9", 9) ].

Definition acceptedNumerals : list (string * Z) :=
  canonicalNumerals ++ paddedNumerals ++ signedNumerals.

(** [cleaned] is the numeral followed by the mode letter of key [k]. *)
Definition labelOf (numerals : list (string * Z)) (cleaned : string) (k : Key) : Prop :=
  exists numeral,
    In (numeral, Number k) numerals /\
    (KeyMode k = ModeA \/ KeyMode k = ModeB) /\
    cleaned = numeral ++ KeyMode k.

(** A stand-in for the three Unicode fallbacks where the input is ASCII
    and they are not consulted. *)
Definition noUnicode (s : string) : string := s.

End KeyLabels.

(** ** The desired cycle length *)

(** The cycle length as the specification words it, in exact arithmetic.
    [roundHalfAway num den] is the quotient num/den rounded to the nearest
    integer, halves away from zero, for num >= 0 and den > 0. *)
Definition roundHalfAway (num den : Z) : Z := (2 * num + den) / (2 * den).

Definition cycleLengthSpec (n : Z) : Z :=
  if n =? 0 then 6
  else if n <=? 6 then n
  else Z.min (Z.max (roundHalfAway n (Z.max 1 (roundHalfAway n 8))) 6) 10.

(** ** Binary64 values *)

(** The real number a positive normal float stands for. *)
Definition valueOf (m : positive) (e : Z) : R :=
  (IZR (Z.pos m) * powerRZ 2 e)%R.

(** The relative size of one unit in the last place of a 53-bit mantissa. *)
Definition eps : R := (/ 4503599627370496)%R.

(** ** Tracks as the loader admits them *)

(** A key of the Camelot wheel. *)
Definition wheelKey (k : Key) : Prop :=
  1 <= Number k <= 12 /\ (KeyMode k = ModeA \/ KeyMode k = ModeB).

(** What [parseRecord] checks of a track: the energy is a percentage and
    the key lies on the wheel. *)
Definition validTrack (t : Track) : Prop :=
  0 <= Energy t <= 100 /\ wheelKey (TrackKey t).

(** The two [int] fields of a track hold values of the type. *)
Definition intFields (t : Track) : Prop :=
  inInt64 (Number (TrackKey t)) = true /\ inInt64 (Energy t) = true.

(** The two tracks agree field by field, the BPM values as [==] compares
    them. *)
Definition sameFields (a b : Track) : Prop :=
  Number (TrackKey a) = Number (TrackKey b) /\
  KeyMode (TrackKey a) = KeyMode (TrackKey b) /\
  (BPM a =? BPM b)%float = true /\
  Energy a = Energy b /\
  Artist a = Artist b /\
  Title a = Title b.

(** ** Records and files *)

Section CsvVocabulary.

Import csvio.

Variable unicodeMapToUpper : string -> string.
Variable unicodeTrimFunc : string -> string.
Variable unicodeTrimRightFunc : string -> string.
Variable ParseFloat : string -> option float.
Variable FormatFloat : float -> string.

(** The record parses to the track. *)
Definition parsesTo (record : list string) (t : Track) : Prop :=
  parseRecord unicodeMapToUpper unicodeTrimFunc unicodeTrimRightFunc ParseFloat record
  = Some (inr t).

(** A first record that [Load] takes for a header: it has its five
    columns and does not look like data. *)
Definition headerLike (record : list string) : Prop :=
  (5 <= length record)%nat /\
  looksLikeData unicodeMapToUpper unicodeTrimFunc unicodeTrimRightFunc ParseFloat record
  = false.

(** A track that survives being written and read: title and artist carry
    no outer white space, the BPM reads back from its printed form, and
    energy and key are those of a valid track. *)
Definition storable (t : Track) : Prop :=
  trimSpace unicodeTrimFunc unicodeTrimRightFunc (Title t) = Title t /\
  trimSpace unicodeTrimFunc unicodeTrimRightFunc (Artist t) = Artist t /\
  ParseFloat (trimSpace unicodeTrimFunc unicodeTrimRightFunc (FormatFloat (BPM t)))
  = Some (BPM t) /\
  validTrack t.

End CsvVocabulary.

(** ** The inventory of the planner *)

(** How many tracks of the pool have the value [k] under [f]. *)
Definition occurrences {K} `{EqDecision K} (f : Track -> K) (k : K)
    (pool : list Track) : Z :=
  Z.of_nat (length (filter (fun t => f t = k) pool)).

(** The two count maps of the planner agree with its pool. *)
Definition countsConsistent `{RandSource} (p : mixPlanner) : Prop :=
  (forall k, count (countsByKey p) k = occurrences TrackKey k (remaining p)) /\
  (forall n, count (countsByNumber p) n
             = occurrences (fun t => Number (TrackKey t)) n (remaining p)).

(** ** The state along a sequence *)

(** The state after the tracks of [seq] have been placed, one by one. *)
Definition stateAfter (state : mixState) (seq : list Track) : mixState :=
  fold_left advance seq state.

(** The counters of a state after [steps] placements: a previous track
    exists, no counter is negative or exceeds the number of placements,
    and the four variety counters stop at 100. *)
Definition stateBounded (steps : Z) (state : mixState) : Prop :=
  prevSet state = true /\
  0 <= cycleIndex state <= steps /\
  1 <= tracksInCycle state <= steps + 1 /\
  0 <= sameNumberStreak state <= steps /\
  0 <= stepsSinceStep1 state <= Z.min steps 100 /\
  0 <= stepsSinceStep2 state <= Z.min steps 100 /\
  0 <= stepsSinceLetterFlip state <= Z.min steps 100 /\
  0 <= stepsSinceEnergyDrop state <= Z.min steps 100.

(** The number of places of the sequence [a :: seq] at which the key
    number falls from one track to the next. *)
Fixpoint descents (a : Track) (seq : list Track) : Z :=
  match seq with
  | [] => 0
  | b :: seq' =>
      (if Number (TrackKey b) <? Number (TrackKey a) then 1 else 0) + descents b seq'
  end.

(** The key numbers of the run never fall from one track to the next. *)
Fixpoint nonDescending (run : list Track) : Prop :=
  match run with
  | a :: (b :: _) as rest =>
      Number (TrackKey a) <= Number (TrackKey b) /\ nonDescending rest
  | _ => True
  end.

(** [run] is the current cycle of the sequence [hist]: the longest run at
    its end in which the key number never falls.  Either it is the whole
    sequence, or the key number falls right before it. *)
Definition currentCycle (hist run : list Track) : Prop :=
  run <> [] /\ nonDescending run /\
  exists pre,
    hist = pre ++ run /\
    forall a b, last pre = Some a -> head run = Some b ->
                Number (TrackKey b) < Number (TrackKey a).

(** ** The order of the categories *)

(** The order [categoryOrder] arrives at, written without the loop that
    removes duplicates: category 3 moves to the front once the letter has
    not flipped for five steps, categories 0 and 1 trade places once no
    step of two has been taken for two steps, category 4 stays last. *)
Definition categoryOrderSpec (state : mixState) : list Z :=
  let letterFirst := prevSet state && (5 <=? stepsSinceLetterFlip state) in
  let twoFirst := prevSet state && (2 <=? stepsSinceStep2 state) in
  (if letterFirst then [3] else []) ++
  (if twoFirst then [1; 0] else [0; 1]) ++ [2] ++
  (if letterFirst then [] else [3]) ++ [4].

(** ** A fixture for the loader *)

Module CsvFixture.

Import csvio.

Local Open Scope string_scope.

(** Stand-ins for [strconv.ParseFloat] and [strconv.FormatFloat] on whole
    numbers written in digits, where they agree with the two functions. *)
Definition parseWhole (s : string) : option float :=
  match s with
  | EmptyString => None
  | _ => option_map float_of_int (atoiDigits s 0)
  end.

Definition formatWhole (f : float) : string := Itoa (int_of_float f).

(** The file of the tests of the package, record by record. *)
Definition heading : list string := ["Title"; "Artist"; "BPM"; "Energy"; "Key"].
Definition songA : list string := ["Song A"; "Artist"; "120"; "50"; "1A"].
Definition songB : list string := ["Song B"; "Another"; "121"; "60"; "2B"].

Definition trackA : Track := Fixture.row "Song A" "Artist" 120 50 1 ModeA.
Definition trackB : Track := Fixture.row "Song B" "Another" 121 60 2 ModeB.

(** A row whose key is off the wheel, and a row that lacks a column. *)
Definition songOffWheel : list string := ["Song C"; "Third"; "122"; "70"; "13A"].
Definition songShort : list string := ["Song D"; "Fourth"; "123"; "80"].

(** The functions of the package with the stand-ins in place; the
    Unicode fallbacks are not consulted on ASCII input. *)
Definition parse : list string -> option (recordError + Track) :=
  parseRecord KeyLabels.noUnicode KeyLabels.noUnicode KeyLabels.noUnicode parseWhole.

Definition looksData : list string -> bool :=
  looksLikeData KeyLabels.noUnicode KeyLabels.noUnicode KeyLabels.noUnicode parseWhole.

Definition load : (string -> option (list readResult)) -> Context -> string -> loadResult :=
  Load KeyLabels.noUnicode KeyLabels.noUnicode KeyLabels.noUnicode parseWhole.

Definition reads : list string -> Track -> Prop :=
  parsesTo KeyLabels.noUnicode KeyLabels.noUnicode KeyLabels.noUnicode parseWhole.

Definition keeps : Track -> Prop :=
  storable KeyLabels.noUnicode KeyLabels.noUnicode parseWhole formatWhole.

(** A file system with one file. *)
Definition oneFile (reads : list readResult) (path : string)
    : option (list readResult) :=
  if String.eqb path "tracks.csv" then Some reads else None.

(** A context whose signal fires before the third poll. *)
Definition cancelledAtTwo : Context :=
  {| limitValue := None; seedValue := None;
     Done := fun k => (2 <=? k)%nat; Err := Canceled |}.

End CsvFixture.

(** * Properties *)

Lemma Clone_id (t : Track) : Clone t = t.
Proof. by destruct t. Qed.

Lemma map_Clone (tracks : list Track) : map Clone tracks = tracks.
Proof.
  induction tracks as [|t tracks IH]; simpl; [done|].
  by rewrite Clone_id, IH.
Qed.

(** The first branch of [Sort]. *)
Lemma Sort_short `{RandSource} (now : Z) (ctx : Context) (tracks : list Track) :
  (length tracks <= 1)%nat ->
  Sort now ctx tracks = Some (map Clone tracks, None).
Proof.
  intros Hlen. unfold Sort.
  by destruct (Nat.leb_spec (length tracks) 1) as [_|Hgt]; [|lia].
Qed.

(** C5.  An input of at most one track is returned as it is, without an
    error, whatever the target length, the seed, the clock and the state of
    the cancellation signal. *)
Theorem Sort_short_input `{RandSource} (now : Z) (ctx : Context) (tracks : list Track) :
  (length tracks <= 1)%nat ->
  Sort now ctx tracks = Some (tracks, None).
Proof.
  intros Hlen. rewrite (Sort_short now ctx tracks Hlen).
  by rewrite map_Clone.
Qed.

Lemma Sort_short_input_witness :
  (length [Fixture.trackOne] <= 1)%nat /\
  Sort (rand := Fixture.lcg) 7 (WithSeed (WithLimit Fixture.cancelled 3) 0)
       [Fixture.trackOne]
  = Some ([Fixture.trackOne], None).
Proof.
  assert (Hlen : (length [Fixture.trackOne] <= 1)%nat) by (simpl; lia).
  split; [exact Hlen | exact (Sort_short_input _ _ _ Hlen)].
Defined.

(** ** Transitions and their categories *)

Lemma categorizeTransition_range (state : mixState) (trans : transition) :
  0 <= categorizeTransition state trans <= 4.
Proof.
  unfold categorizeTransition.
  destruct (prevSet state), (modeChange trans); simpl; try lia;
    destruct (0 <? diff trans); try lia;
    destruct (diff trans) as [|[[]|[]|]|]; lia.
Qed.

(** With key numbers on the wheel the forward distance is in [0,11]. *)
Lemma computeTransition_diff_range (state : mixState) (candidate : Track) :
  1 <= Number (TrackKey (prev state)) <= 12 ->
  1 <= Number (TrackKey candidate) <= 12 ->
  0 <= diff (computeTransition state candidate) <= 11.
Proof.
  intros Hp Hc. unfold computeTransition.
  destruct (prevSet state); simpl; [|lia].
  assert (Hw : wrap64 (Number (TrackKey candidate) - Number (TrackKey (prev state)))
               = Number (TrackKey candidate) - Number (TrackKey (prev state))).
  { unfold wrap64.
    rewrite Z.mod_small by lia. lia. }
  rewrite Hw.
  destruct (Z.ltb_spec (Number (TrackKey candidate) - Number (TrackKey (prev state))) 0);
    simpl; lia.
Qed.

(** C7.  Once a previous track exists, a transition with [diff] in
    [0,11] is classified exactly by the table: 0 for diff 1 without mode
    change, 1 for diff 2 without mode change, 2 for diff 0 without mode
    change, 3 for diff 0 with mode change, and 4 for everything else, that
    is for diff >= 3 or a mode change with diff > 0. *)
Theorem categorizeTransition_table (state : mixState) (trans : transition) :
  prevSet state = true ->
  0 <= diff trans <= 11 ->
  let category := categorizeTransition state trans in
  (category = 0 <-> diff trans = 1 /\ modeChange trans = false) /\
  (category = 1 <-> diff trans = 2 /\ modeChange trans = false) /\
  (category = 2 <-> diff trans = 0 /\ modeChange trans = false) /\
  (category = 3 <-> diff trans = 0 /\ modeChange trans = true) /\
  (category = 4 <-> 3 <= diff trans \/ (modeChange trans = true /\ 0 < diff trans)).
Proof.
  intros Hset Hrange. unfold categorizeTransition. rewrite Hset. simpl.
  destruct trans as [d w mc]. simpl in *.
  destruct mc; simpl.
  - destruct (Z.ltb_spec 0 d) as [Hpos|Hzero].
    + repeat split; intros; try lia; try tauto; intuition (try lia; try congruence).
    + assert (d = 0) by lia. subst d.
      repeat split; intros; try lia; try tauto; intuition (try lia; try congruence).
  - assert (Hd : d = 0 \/ d = 1 \/ d = 2 \/ 3 <= d) by lia.
    destruct Hd as [->|[->|[->|Hd]]].
    + repeat split; intros; try lia; try tauto; intuition (try lia; try congruence).
    + repeat split; intros; try lia; try tauto; intuition (try lia; try congruence).
    + repeat split; intros; try lia; try tauto; intuition (try lia; try congruence).
    + destruct d as [|[[]|[]|]|]; try lia;
        repeat split; intros; try lia; try tauto; intuition (try lia; try congruence).
Qed.

Lemma categorizeTransition_table_witness :
  prevSet Fixture.stateAfterOne = true /\
  0 <= diff (computeTransition Fixture.stateAfterOne Fixture.trackThree) <= 11 /\
  (categorizeTransition Fixture.stateAfterOne
     (computeTransition Fixture.stateAfterOne Fixture.trackThree) = 1
   <-> diff (computeTransition Fixture.stateAfterOne Fixture.trackThree) = 2
       /\ modeChange (computeTransition Fixture.stateAfterOne Fixture.trackThree) = false).
Proof.
  assert (Hset : prevSet Fixture.stateAfterOne = true) by reflexivity.
  assert (Hrange : 0 <= diff (computeTransition Fixture.stateAfterOne Fixture.trackThree) <= 11)
    by (vm_compute; split; discriminate).
  split; [exact Hset|]. split; [exact Hrange|].
  exact (proj1 (proj2 (categorizeTransition_table _ _ Hset Hrange))).
Defined.

(** ** Loops over the pool *)

Lemma fold_left_invariant {A B} (f : A -> B -> A) (P : A -> Prop) (l : list B) (a : A) :
  P a ->
  (forall a x, In x l -> P a -> P (f a x)) ->
  P (fold_left f l a).
Proof.
  revert a. induction l as [|y l IH]; intros a Ha Hstep; simpl; [exact Ha|].
  apply IH.
  - apply Hstep; [now left | exact Ha].
  - intros a' x Hx. apply Hstep. now right.
Qed.

(** A fact established when an element is visited and kept by every later
    iteration holds of every element at the end. *)
Lemma fold_left_visited {A B} (f : A -> B -> A) (P : A -> Prop) (Q : B -> A -> Prop)
    (l : list B) (a : A) :
  P a ->
  (forall a x, In x l -> P a -> P (f a x)) ->
  (forall a x, In x l -> P a -> Q x (f a x)) ->
  (forall a x y, In y l -> P a -> Q x a -> Q x (f a y)) ->
  forall x, In x l -> Q x (fold_left f l a).
Proof.
  revert a. induction l as [|y l IH]; intros a Ha HP Hvisit Hkeep x Hx; simpl.
  - destruct Hx.
  - assert (Hy : P (f a y)) by (apply HP; [now left | exact Ha]).
    destruct Hx as [->|Hx].
    + apply (fold_left_invariant f (fun a' => P a' /\ Q x a')).
      * split; [exact Hy|]. apply Hvisit; [now left | exact Ha].
      * intros a' z Hz [Ha' Hq]. split.
        -- apply HP; [now right | exact Ha'].
        -- apply Hkeep; [now right | exact Ha' | exact Hq].
    + apply IH; try assumption.
      * intros a' z Hz. apply HP. now right.
      * intros a' z Hz. apply Hvisit. now right.
      * intros a' z z' Hz. apply Hkeep. now right.
Qed.

Lemma In_combine_seq {A} (l : list A) (start i : nat) (x : A) :
  In (i, x) (combine (seq start (length l)) l) <->
  (start <= i)%nat /\ l !! (i - start)%nat = Some x.
Proof.
  revert start. induction l as [|y l IH]; intros start; simpl.
  - split; [tauto | intros [_ H]; discriminate].
  - rewrite IH. split.
    + intros [Heq|[Hle Hl]].
      * inversion Heq; subst. split; [lia|]. by rewrite Nat.sub_diag.
      * split; [lia|].
        replace (i - start)%nat with (S (i - S start)) by lia. exact Hl.
    + intros [Hle Hl].
      destruct (decide (i = start)) as [->|Hne].
      * left. rewrite Nat.sub_diag in Hl. simpl in Hl. congruence.
      * right. split; [lia|].
        replace (i - start)%nat with (S (i - S start)) in Hl by lia. exact Hl.
Qed.

Lemma In_indexed {A} (l : list A) (i : nat) (x : A) :
  In (i, x) (indexed l) <-> l !! i = Some x.
Proof.
  unfold indexed. rewrite In_combine_seq, Nat.sub_0_r.
  split; [tauto | intros H; split; [lia | exact H]].
Qed.

(** ** Next-step selection *)

Section NextStep.

Context {rand : RandSource}.


Lemma emptyBuckets_sound (pool : list Track) (state : mixState) :
  bucketsSound pool state emptyBuckets.
Proof.
  split; [reflexivity|].
  intros c best Hc Hset.
  unfold emptyBuckets in Hc. apply lookup_replicate in Hc as [-> _]. discriminate.
Qed.

(** One iteration either leaves the buckets alone, the bucket of the
    candidate's category being set already, or stores the candidate there. *)
Lemma bucketStep_cases (p : mixPlanner) (state : mixState) (buckets : list choice)
    (g : rngState) (idx : nat) (candidate : Track) :
  length buckets = 5%nat ->
  let buckets' := fst (bucketStep p state (buckets, g) (idx, candidate)) in
  (buckets' = buckets /\ isSet buckets (categoryOf state candidate)) \/
  (exists score,
     buckets' = <[Z.to_nat (categoryOf state candidate) :=
                    {| choiceIdx := idx; choiceScore := score; choiceSet := true |}]> buckets).
Proof.
  intros Hlen. unfold bucketStep. fold (categoryOf state candidate).
  pose proof (categorizeTransition_range state (computeTransition state candidate)) as Hr.
  fold (categoryOf state candidate) in Hr.
  set (category := categoryOf state candidate) in *.
  rewrite Hlen.
  destruct (Z.ltb_spec category 0) as [|_]; [lia|].
  destruct (Z.leb_spec (Z.of_nat 5) category) as [|_]; [lia|]. simpl.
  destruct (buckets !! Z.to_nat category) as [best|] eqn:Hbest.
  2:{ apply lookup_ge_None in Hbest. lia. }
  destruct (choiceSet best) eqn:Hset; simpl.
  - destruct (_ <? _)%float; simpl; [right; eauto|].
    destruct (closeFloat _ _).
    + destruct (Intn g 2) as [r g']. destruct (r =? 0)%nat; simpl.
      * right; eauto.
      * left. split; [reflexivity | exists best; auto].
    + left. split; [reflexivity | exists best; auto].
  - right; eauto.
Qed.

Lemma bucketStep_sound (p : mixPlanner) (state : mixState) (pool : list Track)
    (acc : list choice * rngState) (idx : nat) (candidate : Track) :
  pool !! idx = Some candidate ->
  bucketsSound pool state (fst acc) ->
  bucketsSound pool state (fst (bucketStep p state acc (idx, candidate))).
Proof.
  destruct acc as [buckets g]. cbn [fst]. intros Hidx [Hlen Hsound].
  destruct (bucketStep_cases p state buckets g idx candidate Hlen) as [[-> _]|[score ->]].
  - split; assumption.
  - split; [by rewrite length_insert|].
    intros c best Hc Hset.
    destruct (decide (c = Z.to_nat (categoryOf state candidate))) as [->|Hne].
    + rewrite list_lookup_insert_eq in Hc.
      * inversion Hc; subst; simpl. exists candidate. split; [exact Hidx|].
        pose proof (categorizeTransition_range state (computeTransition state candidate)).
        unfold categoryOf. lia.
      * apply lookup_lt_Some in Hc. by rewrite length_insert in Hc.
    + rewrite list_lookup_insert_ne in Hc by congruence. eauto.
Qed.

Lemma bucketStep_visited (p : mixPlanner) (state : mixState)
    (acc : list choice * rngState) (idx : nat) (candidate : Track) :
  length (fst acc) = 5%nat ->
  isSet (fst (bucketStep p state acc (idx, candidate))) (categoryOf state candidate).
Proof.
  destruct acc as [buckets g]. cbn [fst]. intros Hlen.
  destruct (bucketStep_cases p state buckets g idx candidate Hlen) as [[-> H]|[score ->]];
    [exact H|].
  eexists. split.
  - apply list_lookup_insert_eq.
    pose proof (categorizeTransition_range state (computeTransition state candidate)).
    unfold categoryOf. lia.
  - reflexivity.
Qed.

Lemma bucketStep_keeps (p : mixPlanner) (state : mixState)
    (acc : list choice * rngState) (idx : nat) (candidate : Track) (category : Z) :
  length (fst acc) = 5%nat ->
  isSet (fst acc) category ->
  isSet (fst (bucketStep p state acc (idx, candidate))) category.
Proof.
  destruct acc as [buckets g]. cbn [fst]. intros Hlen [best [Hbest Hset]].
  destruct (bucketStep_cases p state buckets g idx candidate Hlen) as [[-> _]|[score ->]];
    [exists best; auto|].
  destruct (decide (Z.to_nat category = Z.to_nat (categoryOf state candidate))) as [Heq|Hne].
  - eexists. split.
    + rewrite Heq. apply list_lookup_insert_eq.
      rewrite <- Heq. by apply lookup_lt_Some in Hbest.
    + reflexivity.
  - exists best. split; [|exact Hset]. by rewrite list_lookup_insert_ne.
Qed.

(** After the scan the buckets are sound and the bucket of every
    candidate's category is set. *)
Lemma scanBuckets_sound (p : mixPlanner) (state : mixState) :
  bucketsSound (remaining p) state (fst (scanBuckets p state)).
Proof.
  unfold scanBuckets.
  apply (fold_left_invariant _ (fun acc => bucketsSound (remaining p) state (fst acc))).
  - apply emptyBuckets_sound.
  - intros acc [idx candidate] Hin Hacc.
    apply bucketStep_sound; [by apply In_indexed | exact Hacc].
Qed.

Lemma scanBuckets_covers (p : mixPlanner) (state : mixState) (idx : nat)
    (candidate : Track) :
  remaining p !! idx = Some candidate ->
  isSet (fst (scanBuckets p state)) (categoryOf state candidate).
Proof.
  intros Hidx. unfold scanBuckets.
  apply (fold_left_visited (bucketStep p state)
           (fun acc => length (fst acc) = 5%nat)
           (fun ic acc => isSet (fst acc) (categoryOf state (snd ic)))
           (indexed (remaining p)) (emptyBuckets, rng p)) with (x := (idx, candidate)).
  - reflexivity.
  - intros [buckets g] [i c] _ Hlen. cbn [fst] in *.
    destruct (bucketStep_cases p state buckets g i c Hlen) as [[-> _]|[score ->]];
      [exact Hlen | by rewrite length_insert].
  - intros acc [i c] _ Hlen. by apply bucketStep_visited.
  - intros acc x [i c] _ Hlen Hq. by apply bucketStep_keeps.
  - by apply In_indexed.
Qed.

(** The order in which the buckets are looked at: the catch-all category 4
    always comes last, after the four shallow categories. *)
Lemma categoryOrder_cases (state : mixState) :
  categoryOrder state = [0; 1; 2; 3] ++ [4] \/
  categoryOrder state = [1; 0; 2; 3] ++ [4] \/
  categoryOrder state = [3; 0; 1; 2] ++ [4] \/
  categoryOrder state = [3; 1; 0; 2] ++ [4].
Proof.
  unfold categoryOrder.
  destruct (prevSet state); simpl; [|tauto].
  destruct (varietyStepThreshold <=? stepsSinceStep2 state),
           (varietyStepThreshold <=? stepsSinceStep1 state),
           (varietyLetterThreshold <=? stepsSinceLetterFlip state); simpl; tauto.
Qed.

Lemma categoryOrder_front (state : mixState) :
  exists front,
    categoryOrder state = front ++ [4] /\
    forall c, In c front <-> 0 <= c <= 3.
Proof.
  destruct (categoryOrder_cases state) as [-> | [-> | [-> | ->]]];
    eexists; (split; [reflexivity|]); intros c; simpl; lia.
Qed.

Lemma categoryOrder_complete (state : mixState) (c : Z) :
  0 <= c <= 4 -> In c (categoryOrder state).
Proof.
  intros Hc.
  destruct (categoryOrder_cases state) as [-> | [-> | [-> | ->]]]; simpl; lia.
Qed.

(** The second loop returns the choice of the first set bucket of the
    order; if a bucket of the front part is set, it is one of the front. *)
Lemma firstSet_front (buckets : list choice) (front rest : list Z) (c : Z) :
  In c front -> isSet buckets c ->
  exists c' best,
    In c' front /\
    buckets !! Z.to_nat c' = Some best /\ choiceSet best = true /\
    firstSet buckets (front ++ rest) = Some (choiceIdx best).
Proof.
  induction front as [|a front IH]; intros Hin Hset; [destruct Hin|].
  simpl.
  destruct (buckets !! Z.to_nat a) as [best|] eqn:Ha.
  - destruct (choiceSet best) eqn:Hbest.
    + exists a, best. auto.
    + destruct Hin as [->|Hin].
      * destruct Hset as [b [Hb Hbs]]. congruence.
      * destruct (IH Hin Hset) as (c' & b & Hc' & Hb & Hbs & Hfirst).
        exists c', b. auto.
  - destruct Hin as [->|Hin].
    + destruct Hset as [b [Hb Hbs]]. congruence.
    + destruct (IH Hin Hset) as (c' & b & Hc' & Hb & Hbs & Hfirst).
      exists c', b. auto.
Qed.

Lemma chooseNextIndex_remaining (p : mixPlanner) (state : mixState) :
  remaining (snd (chooseNextIndex p state)) = remaining p.
Proof.
  unfold chooseNextIndex.
  destruct (scanBuckets p state) as [buckets g].
  by destruct (firstSet buckets (categoryOrder state)).
Qed.

(** C10.  With a non-empty pool and a previous track, the scan leaves at
    least one of the five buckets set, and the second loop of
    [chooseNextIndex] returns from a set bucket: the final [return 0] is
    not reached. *)
Theorem chooseNextIndex_no_fallback (p : mixPlanner) (state : mixState) :
  remaining p <> [] ->
  prevSet state = true ->
  (exists category, 0 <= category <= 4 /\ isSet (fst (scanBuckets p state)) category) /\
  (exists idx,
     firstSet (fst (scanBuckets p state)) (categoryOrder state) = Some idx /\
     fst (chooseNextIndex p state) = idx).
Proof.
  intros Hpool _.
  destruct (remaining p) as [|candidate pool] eqn:Hrem; [congruence|].
  assert (Hcover : isSet (fst (scanBuckets p state)) (categoryOf state candidate)).
  { apply (scanBuckets_covers p state 0 candidate). by rewrite Hrem. }
  pose proof (categorizeTransition_range state (computeTransition state candidate)) as Hr.
  fold (categoryOf state candidate) in Hr.
  split; [eauto|].
  destruct (firstSet_front (fst (scanBuckets p state)) (categoryOrder state) []
              (categoryOf state candidate))
    as (c' & best & _ & _ & _ & Hfirst);
    [by apply categoryOrder_complete | exact Hcover |].
  rewrite app_nil_r in Hfirst.
  exists (choiceIdx best). split; [exact Hfirst|].
  unfold chooseNextIndex.
  destruct (scanBuckets p state) as [buckets g]. simpl in Hfirst.
  by rewrite Hfirst.
Qed.

(** The index returned by [chooseNextIndex] is an index of the pool. *)
Lemma chooseNextIndex_valid (p : mixPlanner) (state : mixState) :
  remaining p <> [] ->
  exists next, remaining p !! fst (chooseNextIndex p state) = Some next.
Proof.
  intros Hpool.
  destruct (remaining p) as [|candidate pool] eqn:Hrem; [congruence|].
  assert (Hcover : isSet (fst (scanBuckets p state)) (categoryOf state candidate)).
  { apply (scanBuckets_covers p state 0 candidate). by rewrite Hrem. }
  pose proof (categorizeTransition_range state (computeTransition state candidate)) as Hr.
  fold (categoryOf state candidate) in Hr.
  destruct (firstSet_front (fst (scanBuckets p state)) (categoryOrder state) []
              (categoryOf state candidate))
    as (c' & best & _ & Hbest & Hset & Hfirst);
    [by apply categoryOrder_complete | exact Hcover |].
  rewrite app_nil_r in Hfirst.
  destruct (scanBuckets_sound p state) as [_ Hsound].
  destruct (Hsound _ _ Hbest Hset) as (next & Hnext & _).
  exists next. rewrite Hrem in Hnext.
  unfold chooseNextIndex.
  destruct (scanBuckets p state) as [buckets g]. simpl in Hfirst.
  by rewrite Hfirst.
Qed.


(** It is what [hasShallowStepOption] looks for with [maxStep] 2. *)
Lemma shallowLoop_spec (state : mixState) (pool : list Track) :
  shallowLoop state pool 2 = true <->
  exists candidate, In candidate pool /\ shallow state candidate.
Proof.
  induction pool as [|cand pool IH]; simpl.
  - split; [discriminate | intros (c & [] & _)].
  - destruct (Z.eqb_spec (diff (computeTransition state cand)) 0) as [Hz|Hnz].
    { split; [|reflexivity]. intros _. exists cand. split; [now left|]. now left. }
    assert (Hrest : (exists candidate, (cand = candidate \/ In candidate pool)
                                       /\ shallow state candidate) <->
                    shallow state cand \/
                    exists candidate, In candidate pool /\ shallow state candidate).
    { split.
      - intros (c & [->|Hin] & Hs); [now left | right; eauto].
      - intros [Hs|(c & Hin & Hs)]; [exists cand; auto | exists c; auto]. }
    rewrite Hrest. unfold shallow at 1. cbv zeta.
    destruct (modeChange (computeTransition state cand)) eqn:Hmc.
    { rewrite IH. split; [tauto|]. intros [[?|[_ ?]]|?]; [lia|discriminate|assumption]. }
    destruct (Z.ltb_spec 0 (diff (computeTransition state cand)));
      destruct (Z.leb_spec (diff (computeTransition state cand)) 2); simpl;
      try (split; [intros _; left; right; split; [lia|reflexivity] | reflexivity]);
      rewrite IH; (split; [tauto|]); intros [[?|[? _]]|?]; try lia; assumption.
Qed.

Lemma hasShallowStepOption_spec (state : mixState) (p : mixPlanner) :
  prevSet state = true ->
  (hasShallowStepOption state p 2 = true <->
   exists candidate, In candidate (remaining p) /\ shallow state candidate).
Proof.
  intros Hset. unfold hasShallowStepOption. rewrite Hset. simpl.
  apply shallowLoop_spec.
Qed.

Lemma shallow_category (state : mixState) (candidate : Track) :
  prevSet state = true ->
  shallow state candidate ->
  0 <= categoryOf state candidate <= 3.
Proof.
  intros Hset Hs. unfold shallow in Hs. cbv zeta in Hs.
  unfold categoryOf, categorizeTransition. rewrite Hset. simpl.
  destruct (computeTransition state candidate) as [d w mc]. simpl in *.
  destruct Hs as [->|[Hd ->]].
  - destruct mc; simpl; lia.
  - simpl. assert (Hc : d = 0 \/ d = 1 \/ d = 2) by lia.
    destruct Hc as [-> | [-> | ->]]; lia.
Qed.

Lemma category_shallow (state : mixState) (candidate : Track) :
  prevSet state = true ->
  categoryOf state candidate <= 3 ->
  0 <= diff (computeTransition state candidate) <= 2.
Proof.
  intros Hset. unfold categoryOf, categorizeTransition. rewrite Hset. simpl.
  destruct (computeTransition state candidate) as [d w mc]. simpl.
  destruct mc; simpl.
  - destruct (Z.ltb_spec 0 d); [lia|].
    destruct d as [|[[]|[]|]|]; lia.
  - destruct d as [|[[]|[]|]|]; lia.
Qed.

(** The step behind C3, in its strong form: when the pool holds a shallow
    option the chosen track comes from one of the categories 0 to 3. *)
Lemma chooseNextIndex_prefers_shallow (p : mixPlanner) (state : mixState) :
  prevSet state = true ->
  (exists candidate, In candidate (remaining p) /\ shallow state candidate) ->
  exists next,
    remaining p !! fst (chooseNextIndex p state) = Some next /\
    0 <= categoryOf state next <= 3.
Proof.
  intros Hset (candidate & Hin & Hshallow).
  apply list_elem_of_In, list_elem_of_lookup in Hin as [i Hi].
  pose proof (scanBuckets_covers p state i candidate Hi) as Hcover.
  pose proof (shallow_category state candidate Hset Hshallow) as Hcat.
  destruct (categoryOrder_front state) as (front & Horder & Hfront).
  destruct (firstSet_front (fst (scanBuckets p state)) front [4]
              (categoryOf state candidate))
    as (c' & best & Hc' & Hbest & Hbs & Hfirst);
    [by apply Hfront | exact Hcover |].
  rewrite <- Horder in Hfirst.
  destruct (scanBuckets_sound p state) as [_ Hsound].
  destruct (Hsound _ _ Hbest Hbs) as (next & Hnext & Hnextcat).
  apply Hfront in Hc'.
  exists next. split.
  - unfold chooseNextIndex.
    destruct (scanBuckets p state) as [buckets g]. simpl in Hfirst.
    by rewrite Hfirst.
  - lia.
Qed.

(** The transition that the code computes after a previous track carries
    the forward key-number distance and the change of mode of the pair,
    so the shallow options of a state are the shallow pairs of its
    previous track. *)
Lemma computeTransition_prev (state : mixState) (candidate : Track) :
  prevSet state = true ->
  diff (computeTransition state candidate) = keyDistance (prev state) candidate /\
  modeChange (computeTransition state candidate) = modeChanged (prev state) candidate.
Proof.
  intros Hset. unfold computeTransition, keyDistance, modeChanged. rewrite Hset. simpl.
  by destruct (_ <? 0).
Qed.

Lemma shallow_shallowPair (state : mixState) (candidate : Track) :
  prevSet state = true ->
  (shallow state candidate <-> shallowPair (prev state) candidate).
Proof.
  intros Hset. unfold shallow, shallowPair. cbv zeta.
  by destruct (computeTransition_prev state candidate Hset) as [-> ->].
Qed.


End NextStep.

Lemma chooseNextIndex_no_fallback_witness :
  remaining Fixture.plannerThree <> [] /\
  prevSet Fixture.stateAfterOne = true /\
  (exists category,
     0 <= category <= 4 /\
     isSet (fst (scanBuckets Fixture.plannerThree Fixture.stateAfterOne)) category) /\
  (exists idx,
     firstSet (fst (scanBuckets Fixture.plannerThree Fixture.stateAfterOne))
              (categoryOrder Fixture.stateAfterOne) = Some idx /\
     fst (chooseNextIndex Fixture.plannerThree Fixture.stateAfterOne) = idx).
Proof.
  assert (Hpool : remaining Fixture.plannerThree <> []) by discriminate.
  assert (Hset : prevSet Fixture.stateAfterOne = true) by reflexivity.
  split; [exact Hpool|]. split; [exact Hset|].
  exact (chooseNextIndex_no_fallback _ _ Hpool Hset).
Defined.


(** ** Taking a track out of the pool *)

(** Removal by moving the last element into the hole keeps the elements:
    the removed one together with what is left is the list. *)
Lemma swap_remove_Permutation {A} (l : list A) (idx : nat) (sel : A) :
  l !! idx = Some sel ->
  Permutation
    (sel :: firstn (length l - 1)
              (match l !! (length l - 1)%nat with
               | Some t => <[idx := t]> l
               | None => l
               end))
    l.
Proof.
  intros Hsel.
  assert (Hsplit : exists l1 l2, l = l1 ++ sel :: l2 /\ length l1 = idx).
  { exists (firstn idx l), (drop (S idx) l). split.
    - symmetry. by apply take_drop_middle.
    - apply length_take_le. apply lookup_lt_Some in Hsel. lia. }
  destruct Hsplit as (l1 & l2 & -> & <-). clear Hsel.
  induction l2 as [|x l2 _] using rev_ind.
  - replace (length (l1 ++ [sel]) - 1)%nat with (length l1)
      by (rewrite length_app; simpl; lia).
    rewrite list_lookup_middle by reflexivity.
    rewrite list_insert_id by (by apply list_lookup_middle).
    rewrite take_app_length.
    apply Permutation_cons_append.
  - replace (l1 ++ sel :: l2 ++ [x]) with ((l1 ++ sel :: l2) ++ [x])
      by (by rewrite <- app_assoc).
    replace (length ((l1 ++ sel :: l2) ++ [x]) - 1)%nat with (length (l1 ++ sel :: l2))
      by (rewrite (length_app _ [x]); simpl; lia).
    rewrite list_lookup_middle by reflexivity.
    rewrite <- app_assoc. simpl.
    replace (length l1) with (length l1 + 0)%nat at 1 by lia.
    rewrite insert_app_r. simpl.
    replace (l1 ++ x :: l2 ++ [x]) with ((l1 ++ x :: l2) ++ [x])
      by (by rewrite <- app_assoc).
    rewrite take_app_length' by (rewrite !length_app; simpl; lia).
    transitivity (l1 ++ sel :: x :: l2); [apply Permutation_middle|].
    apply Permutation_app_head, perm_skip, Permutation_cons_append.
Qed.

Section Pool.

Context {rand : RandSource}.

Lemma take_Some (p p' : mixPlanner) (idx : nat) (sel : Track) :
  take p idx = Some (sel, p') ->
  remaining p !! idx = Some sel /\
  Permutation (sel :: remaining p') (remaining p) /\
  S (length (remaining p')) = length (remaining p) /\
  rng p' = rng p.
Proof.
  unfold take. intros Htake.
  destruct (remaining p !! idx) as [t|] eqn:Hidx; [|discriminate].
  inversion Htake; subst; clear Htake. simpl.
  pose proof (swap_remove_Permutation (remaining p) idx sel Hidx) as Hperm.
  split; [reflexivity|]. split; [exact Hperm|]. split; [|reflexivity].
  apply Permutation_length in Hperm. exact Hperm.
Qed.

Lemma take_in_range (p : mixPlanner) (idx : nat) (sel : Track) :
  remaining p !! idx = Some sel ->
  exists p', take p idx = Some (sel, p').
Proof.
  intros Hidx. unfold take. rewrite Hidx. eauto.
Qed.

(** *** Start selection returns an index of the pool *)

Lemma startStep_valid (p : mixPlanner) (pool : list Track)
    (acc : float * list nat) (idx : nat) (candidate : Track) :
  pool !! idx = Some candidate ->
  Forall (fun i => is_Some (pool !! i)) (snd acc) ->
  Forall (fun i => is_Some (pool !! i)) (snd (startStep p acc (idx, candidate))).
Proof.
  destruct acc as [best candidates]. intros Hidx Hall. unfold startStep.
  destruct (_ <? _)%float; simpl.
  - constructor; [eauto | constructor].
  - destruct (_ <=? _)%float; simpl; [|exact Hall].
    apply Forall_app. split; [exact Hall|]. constructor; [eauto | constructor].
Qed.

Lemma startScan_valid (p : mixPlanner) :
  Forall (fun i => is_Some (remaining p !! i)) (snd (startScan p)).
Proof.
  unfold startScan.
  apply (fold_left_invariant _
           (fun acc => Forall (fun i => is_Some (remaining p !! i)) (snd acc))).
  - constructor.
  - intros acc [idx candidate] Hin Hacc.
    apply startStep_valid; [by apply In_indexed | exact Hacc].
Qed.

Lemma chooseStartIndex_remaining (p : mixPlanner) :
  remaining (snd (chooseStartIndex p)) = remaining p.
Proof.
  unfold chooseStartIndex.
  destruct (snd (startScan p)); [reflexivity|].
  by destruct (Intn _ _).
Qed.

(** The start index is drawn from the collected candidates; with none
    collected it is 0. *)
Lemma chooseStartIndex_pick (p : mixPlanner) :
  let candidates := snd (startScan p) in
  (candidates = [] /\ fst (chooseStartIndex p) = 0%nat) \/
  (candidates <> [] /\
   (fst (Intn (rng p) (length candidates)) < length candidates)%nat /\
   candidates !! fst (Intn (rng p) (length candidates))
   = Some (fst (chooseStartIndex p))).
Proof.
  intros candidates. unfold chooseStartIndex. fold candidates.
  destruct candidates as [|c cs] eqn:Hc; [left; auto|].
  right. split; [discriminate|].
  pose proof (Intn_range (rng p) (length (c :: cs))) as Hr.
  destruct (Intn (rng p) (length (c :: cs))) as [r g]. cbn [fst] in Hr |- *.
  assert (Hlt : (r < length (c :: cs))%nat) by (apply Hr; simpl; lia).
  split; [exact Hlt|].
  destruct (lookup_lt_is_Some_2 (c :: cs) r Hlt) as [i Hi].
  rewrite Hi. f_equal. symmetry. by apply nth_lookup_Some with (d := 0%nat).
Qed.

Lemma chooseStartIndex_valid (p : mixPlanner) :
  remaining p <> [] ->
  exists start, remaining p !! fst (chooseStartIndex p) = Some start.
Proof.
  intros Hpool.
  destruct (chooseStartIndex_pick p) as [[_ ->]|(_ & _ & Hpick)].
  - destruct (remaining p) as [|t pool]; [congruence | by exists t].
  - pose proof (startScan_valid p) as Hall.
    rewrite Forall_forall in Hall.
    apply list_elem_of_lookup_2 in Hpick.
    exact (Hall _ Hpick).
Qed.

End Pool.

(** ** The greedy loop *)

Section Loop.

Context {rand : RandSource}.

Lemma greedyLoop_unfold (ctx : Context) (target : Z) (fuel : nat) (p : mixPlanner)
    (state : mixState) (ordered : list Track) (polls : nat) :
  greedyLoop ctx target fuel p state ordered polls =
  if (0 <? remainingCount p)%nat && (Z.of_nat (length ordered) <? target) then
    match fuel with
    | O => None
    | S fuel' =>
        if Done ctx polls then Some ([], Some (Err ctx))
        else
          let (idx, p1) := chooseNextIndex p state in
          match take p1 idx with
          | None => None
          | Some (next, p2) =>
              greedyLoop ctx target fuel' p2 (advance state next)
                         (ordered ++ [next]) (S polls)
          end
    end
  else Some (ordered, None).
Proof. by destruct fuel. Qed.

(** One iteration that is not cancelled: the chosen index is in the pool,
    so [take] does not panic, and the pool loses exactly the taken track. *)
Lemma loop_step (p : mixPlanner) (state : mixState) :
  remaining p <> [] ->
  exists idx p1 next p2,
    chooseNextIndex p state = (idx, p1) /\
    take p1 idx = Some (next, p2) /\
    remaining p !! idx = Some next /\
    Permutation (next :: remaining p2) (remaining p) /\
    S (length (remaining p2)) = length (remaining p).
Proof.
  intros Hpool.
  destruct (chooseNextIndex_valid p state Hpool) as [next Hnext].
  pose proof (chooseNextIndex_remaining p state) as Hrem.
  destruct (chooseNextIndex p state) as [idx p1] eqn:Hchoose. simpl in *.
  rewrite <- Hrem in Hnext.
  destruct (take_in_range p1 idx next Hnext) as [p2 Htake].
  destruct (take_Some _ _ _ _ Htake) as (_ & Hperm & Hlen & _).
  rewrite Hrem in Hnext, Hperm, Hlen.
  exists idx, p1, next, p2. auto.
Qed.

(** The loop returns.  Without an error it has filled the output up to the
    target or emptied the pool, and output and pool together are still the
    tracks it started from; with an error there is no output, and a poll
    found the signal fired. *)
Lemma greedyLoop_result (ctx : Context) (target : Z) (fuel : nat) :
  forall (p : mixPlanner) (state : mixState) (ordered : list Track) (polls : nat),
    (length (remaining p) <= fuel)%nat ->
    Z.of_nat (length ordered) <= target ->
    exists out err,
      greedyLoop ctx target fuel p state ordered polls = Some (out, err) /\
      (err = None ->
       Z.of_nat (length out)
       = Z.min target (Z.of_nat (length ordered + length (remaining p))) /\
       exists rest, Permutation (out ++ rest) (ordered ++ remaining p)) /\
      (err <> None ->
       out = [] /\ err = Some (Err ctx) /\
       exists k, (polls <= k)%nat /\ Done ctx k = true) /\
      ((forall k, (polls <= k)%nat -> Done ctx k = false) -> err = None).
Proof.
  induction fuel as [|fuel IH]; intros p state ordered polls Hfuel Hlen;
    rewrite greedyLoop_unfold; unfold remainingCount.
  - destruct (remaining p) as [|t pool] eqn:Hpool; [|simpl in Hfuel; lia].
    simpl. exists ordered, None. split; [reflexivity|].
    split; [|split; [congruence | reflexivity]].
    intros _. split; [rewrite Nat.add_0_r; lia|].
    exists []. by rewrite !app_nil_r.
  - destruct (Nat.ltb_spec 0 (length (remaining p))) as [Hpos|Hzero]; simpl.
    2:{ exists ordered, None. split; [reflexivity|].
        split; [|split; [congruence | reflexivity]].
        intros _. split; [lia|]. by exists (remaining p). }
    destruct (Z.ltb_spec (Z.of_nat (length ordered)) target) as [Hroom|Hfull].
    2:{ exists ordered, None. split; [reflexivity|].
        split; [|split; [congruence | reflexivity]].
        intros _. split; [lia|]. by exists (remaining p). }
    destruct (Done ctx polls) eqn:Hdone.
    { exists [], (Some (Err ctx)). split; [reflexivity|].
      split; [discriminate|]. split.
      - intros _. split; [reflexivity|]. split; [reflexivity|]. exists polls. auto.
      - intros Hnever. rewrite Hnever in Hdone by lia. discriminate. }
    assert (Hne : remaining p <> []) by (destruct (remaining p); simpl in *; [lia|discriminate]).
    destruct (loop_step p state Hne) as (idx & p1 & next & p2 & -> & -> & _ & Hperm & Hlen2).
    destruct (IH p2 (advance state next) (ordered ++ [next]) (S polls))
      as (out & err & Hloop & Hok & Herr & Hnever).
    { lia. }
    { rewrite length_app. simpl. lia. }
    exists out, err. split; [exact Hloop|]. split; [|split].
    + intros Hnone. destruct (Hok Hnone) as [Hout [rest Hrest]]. split.
      * rewrite Hout, length_app. simpl. f_equal. lia.
      * exists rest. rewrite Hrest, <- app_assoc. simpl.
        by apply Permutation_app_head.
    + intros Hsome. destruct (Herr Hsome) as (-> & -> & k & Hk & Hdk).
      split; [reflexivity|]. split; [reflexivity|]. exists k. split; [lia | exact Hdk].
    + intros Hn. apply Hnever. intros k Hk. apply Hn. lia.
Qed.

(** The result of the loop does not depend on the cancellation signal
    except through the error: two runs that both end without an error end
    with the same output. *)
Lemma greedyLoop_deterministic (ctx1 ctx2 : Context) (target : Z) (fuel : nat) :
  forall (p : mixPlanner) (state : mixState) (ordered : list Track)
         (polls1 polls2 : nat) (out1 out2 : list Track),
    greedyLoop ctx1 target fuel p state ordered polls1 = Some (out1, None) ->
    greedyLoop ctx2 target fuel p state ordered polls2 = Some (out2, None) ->
    out1 = out2.
Proof.
  induction fuel as [|fuel IH]; intros p state ordered polls1 polls2 out1 out2;
    rewrite !greedyLoop_unfold;
    destruct ((0 <? remainingCount p)%nat && (Z.of_nat (length ordered) <? target));
    try congruence.
  destruct (Done ctx1 polls1); [discriminate|].
  destruct (Done ctx2 polls2); [discriminate|].
  destruct (chooseNextIndex p state) as [idx p1].
  destruct (take p1 idx) as [[next p2]|]; [|discriminate].
  apply IH.
Qed.

(** A poll that finds the signal fired ends the loop with the error and
    no tracks. *)
Lemma greedyLoop_cancelled (ctx : Context) (target : Z) (k : nat) (fuel : nat) :
  forall (p : mixPlanner) (state : mixState) (ordered : list Track) (polls : nat),
    (length (remaining p) <= fuel)%nat ->
    (polls <= k)%nat ->
    (k - polls < length (remaining p))%nat ->
    Z.of_nat (length ordered + (k - polls)) < target ->
    Done ctx k = true ->
    greedyLoop ctx target fuel p state ordered polls = Some ([], Some (Err ctx)).
Proof.
  induction fuel as [|fuel IH]; intros p state ordered polls Hfuel Hk Hpool Hroom Hdone;
    [lia|].
  rewrite greedyLoop_unfold. unfold remainingCount.
  destruct (Nat.ltb_spec 0 (length (remaining p))) as [_|]; [|lia].
  destruct (Z.ltb_spec (Z.of_nat (length ordered)) target) as [_|]; [|lia]. simpl.
  destruct (Done ctx polls) eqn:Hpoll; [reflexivity|].
  assert (polls <> k) by congruence.
  assert (Hne : remaining p <> []) by (destruct (remaining p); simpl in *; [lia|discriminate]).
  destruct (loop_step p state Hne) as (idx & p1 & next & p2 & -> & -> & _ & _ & Hlen2).
  apply IH; try lia; [|exact Hdone].
  rewrite length_app. simpl. lia.
Qed.

End Loop.

(** ** [Sort] *)


Lemma Permutation_selectionOf (out rest tracks : list Track) :
  Permutation (out ++ rest) tracks -> selectionOf out tracks.
Proof.
  intros Hperm. apply Permutation_inj in Hperm as (_ & f & Hinj & Hf).
  exists f. split; [exact Hinj|].
  intros i Hi. rewrite <- Hf. symmetry. by apply lookup_app_l.
Qed.

Section SortProperties.

Context {rand : RandSource}.

Lemma sortTarget_min (ctx : Context) (tracks : list Track) :
  sortTarget ctx tracks = Z.min (requestedTarget ctx tracks) (Z.of_nat (length tracks)).
Proof.
  unfold sortTarget, requestedTarget.
  destruct (Z.ltb_spec 0 (limitFromContext ctx));
    destruct (Z.ltb_spec (limitFromContext ctx) (Z.of_nat (length tracks))); simpl; lia.
Qed.

Lemma sortTarget_positive (ctx : Context) (tracks : list Track) :
  tracks <> [] -> 1 <= sortTarget ctx tracks <= Z.of_nat (length tracks).
Proof.
  intros Hne. unfold sortTarget.
  assert (0 < length tracks)%nat by (destruct tracks; simpl; [congruence|lia]).
  destruct (Z.ltb_spec 0 (limitFromContext ctx));
    destruct (Z.ltb_spec (limitFromContext ctx) (Z.of_nat (length tracks))); simpl; lia.
Qed.

Lemma newMixPlanner_remaining (now : Z) (ctx : Context) (tracks : list Track)
    (target : Z) :
  remaining (newMixPlanner now ctx tracks target) = tracks.
Proof. simpl. apply map_Clone. Qed.

(** [Sort] on two tracks or more: the start track is taken without a
    panic, and the rest is the greedy loop unless the target is 1. *)
Lemma Sort_long (now : Z) (ctx : Context) (tracks : list Track) :
  (2 <= length tracks)%nat ->
  exists start p,
    take (snd (chooseStartIndex (newMixPlanner now ctx tracks (sortTarget ctx tracks))))
         (fst (chooseStartIndex (newMixPlanner now ctx tracks (sortTarget ctx tracks))))
    = Some (start, p) /\
    Permutation (start :: remaining p) tracks /\
    Sort now ctx tracks =
    if sortTarget ctx tracks <=? 1 then Some ([start], None)
    else greedyLoop ctx (sortTarget ctx tracks) (remainingCount p) p
                    (initialState p start) [start] 0.
Proof.
  intros Hlen. unfold Sort.
  destruct (Nat.leb_spec (length tracks) 1) as [|_]; [lia|].
  set (p0 := newMixPlanner now ctx tracks (sortTarget ctx tracks)).
  assert (Hrem0 : remaining p0 = tracks) by apply newMixPlanner_remaining.
  assert (Hne : remaining p0 <> []).
  { rewrite Hrem0. destruct tracks; simpl in *; [lia | discriminate]. }
  destruct (chooseStartIndex_valid p0 Hne) as [start Hstart].
  pose proof (chooseStartIndex_remaining p0) as Hrem1.
  destruct (chooseStartIndex p0) as [startIdx p1]. simpl in *.
  rewrite <- Hrem1 in Hstart.
  destruct (take_in_range p1 startIdx start Hstart) as [p Htake].
  destruct (take_Some _ _ _ _ Htake) as (_ & Hperm & _ & _).
  rewrite Htake. exists start, p.
  split; [reflexivity|]. split; [by rewrite <- Hrem0, <- Hrem1|]. reflexivity.
Qed.

(** C1.  [Sort] returns (it does not panic).  When it returns without an
    error, the output has length min(target, input length), the target
    being the input length unless a positive limit is supplied, and the
    output is a selection of the input: every output track is the track of
    some input position and no input position is used twice.  A context
    that is never cancelled gives no error. *)
Theorem Sort_output (now : Z) (ctx : Context) (tracks : list Track) :
  exists out err,
    Sort now ctx tracks = Some (out, err) /\
    (err = None ->
     Z.of_nat (length out)
     = Z.min (requestedTarget ctx tracks) (Z.of_nat (length tracks)) /\
     selectionOf out tracks) /\
    ((forall k, Done ctx k = false) -> err = None).
Proof.
  destruct (le_lt_dec (length tracks) 1) as [Hshort|Hlong].
  - exists tracks, None. split; [by rewrite Sort_short, map_Clone|].
    split; [|reflexivity]. intros _. split.
    + unfold requestedTarget. destruct (Z.ltb_spec 0 (limitFromContext ctx)); lia.
    + apply (Permutation_selectionOf tracks []). by rewrite app_nil_r.
  - destruct (Sort_long now ctx tracks) as (start & p & _ & Hperm & ->); [lia|].
    assert (Hne : tracks <> []) by (destruct tracks; simpl in *; [lia | discriminate]).
    pose proof (sortTarget_positive ctx tracks Hne) as Htarget.
    pose proof (Permutation_length Hperm) as Hlen. simpl in Hlen.
    rewrite <- sortTarget_min.
    destruct (Z.leb_spec (sortTarget ctx tracks) 1) as [Hone|Hmore].
    + exists [start], None. split; [reflexivity|]. split; [|reflexivity].
      intros _. split; [simpl; lia|].
      by apply (Permutation_selectionOf [start] (remaining p)).
    + destruct (greedyLoop_result ctx (sortTarget ctx tracks) (remainingCount p) p
                  (initialState p start) [start] 0)
        as (out & err & -> & Hok & _ & Hnever);
        [reflexivity | simpl; lia |].
      exists out, err. split; [reflexivity|]. split.
      * intros Hnone. destruct (Hok Hnone) as [Hout [rest Hrest]]. split.
        -- rewrite Hout. simpl length. lia.
        -- apply (Permutation_selectionOf out rest). by rewrite Hrest.
      * intros Hn. apply Hnever. intros k _. apply Hn.
Qed.

End SortProperties.

(** The example of the specification: three tracks, target length two. *)
Example Sort_three_tracks_limit_two :
  Sort (rand := Fixture.lcg) 0 (WithSeed (WithLimit Fixture.background 2) 1)
       Fixture.threeTracks
  = Some ([Fixture.trackOne; Fixture.trackTwo], None).
Proof. vm_compute. reflexivity. Qed.

(** ** Cancellation *)

(** As stated, C4 fails: on an input of two tracks or more with target
    length 1, [Sort] returns the start track before any poll, so a context
    that was cancelled before the call still gets a result and no error. *)
Lemma Sort_cancelled_context_limit_one :
  (forall k, Done (WithSeed (WithLimit Fixture.cancelled 1) 1) k = true) /\
  (2 <= length Fixture.threeTracks)%nat /\
  Sort (rand := Fixture.lcg) 0 (WithSeed (WithLimit Fixture.cancelled 1) 1)
       Fixture.threeTracks
  = Some ([Fixture.trackOne], None).
Proof.
  split; [reflexivity|]. split; [simpl; lia|]. vm_compute. reflexivity.
Qed.

(** C4, amended.  On an input of two tracks or more with a target length
    of at least 2, the signal is polled before each greedy selection step,
    once per track after the first; when one of these polls (they are
    numbered from 0 to target - 2) finds the signal fired, [Sort] returns
    the error of the context and no tracks. *)
Theorem Sort_cancelled `{RandSource} (now : Z) (ctx : Context) (tracks : list Track)
    (k : nat) :
  (2 <= length tracks)%nat ->
  2 <= sortTarget ctx tracks ->
  Z.of_nat k <= sortTarget ctx tracks - 2 ->
  Done ctx k = true ->
  Sort now ctx tracks = Some ([], Some (Err ctx)).
Proof.
  intros Hlen Htarget Hk Hdone.
  destruct (Sort_long now ctx tracks Hlen) as (start & p & _ & Hperm & ->).
  assert (Hne : tracks <> []) by (destruct tracks; simpl in *; [lia | discriminate]).
  pose proof (sortTarget_positive ctx tracks Hne) as Hbound.
  apply Permutation_length in Hperm. simpl in Hperm.
  destruct (Z.leb_spec (sortTarget ctx tracks) 1) as [|_]; [lia|].
  apply greedyLoop_cancelled with (k := k); unfold remainingCount; simpl; try lia.
  exact Hdone.
Qed.

Lemma Sort_cancelled_witness :
  (2 <= length Fixture.threeTracks)%nat /\
  2 <= sortTarget Fixture.cancelled Fixture.threeTracks /\
  Z.of_nat 1 <= sortTarget Fixture.cancelled Fixture.threeTracks - 2 /\
  Done Fixture.cancelled 1 = true /\
  Sort (rand := Fixture.lcg) 0 Fixture.cancelled Fixture.threeTracks
  = Some ([], Some (Err Fixture.cancelled)).
Proof.
  assert (H1 : (2 <= length Fixture.threeTracks)%nat) by (simpl; lia).
  assert (H2 : 2 <= sortTarget Fixture.cancelled Fixture.threeTracks)
    by (vm_compute; discriminate).
  assert (H3 : Z.of_nat 1 <= sortTarget Fixture.cancelled Fixture.threeTracks - 2)
    by (vm_compute; discriminate).
  assert (H4 : Done Fixture.cancelled 1 = true) by reflexivity.
  repeat (split; [assumption|]).
  exact (Sort_cancelled (H := Fixture.lcg) 0 _ _ 1 H1 H2 H3 H4).
Defined.

(** X24.  When [Sort] returns an error it returns no tracks with it, the
    error is the one of the context, and some poll found the signal
    fired: a context that is never done lets every call succeed. *)
Theorem Sort_error `{RandSource} (now : Z) (ctx : Context) (tracks : list Track)
    (out : list Track) (e : ctxError) :
  Sort now ctx tracks = Some (out, Some e) ->
  out = [] /\ e = Err ctx /\ exists k, Done ctx k = true.
Proof.
  intros HSort.
  destruct (le_lt_dec (length tracks) 1) as [Hshort|Hlong].
  - rewrite Sort_short in HSort by exact Hshort. discriminate.
  - destruct (Sort_long now ctx tracks) as (start & p & _ & Hperm & Heq); [lia|].
    rewrite Heq in HSort.
    assert (Hne : tracks <> []) by (destruct tracks; simpl in *; [lia | discriminate]).
    pose proof (sortTarget_positive ctx tracks Hne) as Htarget.
    destruct (Z.leb_spec (sortTarget ctx tracks) 1) as [Hone|Hmore]; [discriminate|].
    destruct (greedyLoop_result ctx (sortTarget ctx tracks) (remainingCount p) p
                (initialState p start) [start] 0)
      as (out' & err & Hloop & _ & Herr & _);
      [reflexivity | simpl; lia |].
    rewrite Hloop in HSort. inversion HSort; subst.
    destruct Herr as (-> & Hctx & k & _ & Hk); [discriminate|].
    split; [reflexivity|]. split; [congruence | eauto].
Qed.

Lemma Sort_error_witness :
  Sort (rand := Fixture.lcg) 0 Fixture.cancelled Fixture.threeTracks
  = Some ([], Some Canceled) /\
  Canceled = Err Fixture.cancelled /\
  exists k, Done Fixture.cancelled k = true.
Proof.
  assert (H : Sort (rand := Fixture.lcg) 0 Fixture.cancelled Fixture.threeTracks
              = Some ([], Some Canceled)) by (vm_compute; reflexivity).
  split; [exact H|].
  exact (proj2 (Sort_error (H := Fixture.lcg) 0 Fixture.cancelled Fixture.threeTracks
                  [] Canceled H)).
Defined.

(** ** Determinism under a seed *)

Section Determinism.

Context {rand : RandSource}.

(** The seed of the generator is the clock reading when the context holds
    no seed, and also when it holds the seed 0. *)
Lemma plannerSeed_zero (now : Z) (ctx : Context) :
  seedValue ctx = Some 0 -> plannerSeed now ctx = now.
Proof. unfold plannerSeed, seedFromContext. by intros ->. Qed.

Lemma plannerSeed_explicit (now : Z) (ctx : Context) (seed : Z) :
  seedValue ctx = Some seed -> seed <> 0 -> plannerSeed now ctx = seed.
Proof.
  unfold plannerSeed, seedFromContext. intros -> Hnz. simpl.
  by destruct (Z.eqb_spec seed 0).
Qed.

Lemma newMixPlanner_seed (now1 now2 : Z) (ctx1 ctx2 : Context)
    (tracks : list Track) (target : Z) :
  plannerSeed now1 ctx1 = plannerSeed now2 ctx2 ->
  newMixPlanner now1 ctx1 tracks target = newMixPlanner now2 ctx2 tracks target.
Proof. unfold newMixPlanner. by intros ->. Qed.

(** C2, amended.  Two calls with the same explicit seed other than 0, the
    same input in the same order and the same limit, made at any two
    times and under any two cancellation signals, return the same output
    sequence whenever both return without an error. *)
Theorem Sort_deterministic (now1 now2 : Z) (ctx1 ctx2 : Context)
    (tracks : list Track) (seed : Z) (out1 out2 : list Track) :
  seedValue ctx1 = Some seed ->
  seedValue ctx2 = Some seed ->
  seed <> 0 ->
  limitFromContext ctx1 = limitFromContext ctx2 ->
  Sort now1 ctx1 tracks = Some (out1, None) ->
  Sort now2 ctx2 tracks = Some (out2, None) ->
  out1 = out2.
Proof.
  intros Hs1 Hs2 Hnz Hlimit.
  assert (Htarget : sortTarget ctx1 tracks = sortTarget ctx2 tracks)
    by (unfold sortTarget; by rewrite Hlimit).
  assert (Hplanner : newMixPlanner now1 ctx1 tracks (sortTarget ctx1 tracks)
                     = newMixPlanner now2 ctx2 tracks (sortTarget ctx2 tracks)).
  { rewrite Htarget. apply newMixPlanner_seed.
    by rewrite (plannerSeed_explicit _ _ seed Hs1 Hnz),
               (plannerSeed_explicit _ _ seed Hs2 Hnz). }
  unfold Sort. rewrite Hplanner, Htarget.
  destruct (length tracks <=? 1)%nat; [congruence|].
  destruct (chooseStartIndex _) as [startIdx p0].
  destruct (take p0 startIdx) as [[start p]|]; [|discriminate].
  destruct (sortTarget ctx2 tracks <=? Z.of_nat (length [start])); [congruence|].
  apply greedyLoop_deterministic.
Qed.

End Determinism.

Lemma Sort_deterministic_witness :
  seedValue (WithSeed Fixture.background 12345) = Some 12345 /\
  seedValue (WithSeed Fixture.background 12345) = Some 12345 /\
  12345 <> 0 /\
  limitFromContext (WithSeed Fixture.background 12345)
  = limitFromContext (WithSeed Fixture.background 12345) /\
  Sort (rand := Fixture.lcg) 1 (WithSeed Fixture.background 12345) Fixture.threeTracks
  = Some ([Fixture.trackOne; Fixture.trackTwo; Fixture.trackThree], None) /\
  Sort (rand := Fixture.lcg) 2 (WithSeed Fixture.background 12345) Fixture.threeTracks
  = Some ([Fixture.trackOne; Fixture.trackTwo; Fixture.trackThree], None) /\
  [Fixture.trackOne; Fixture.trackTwo; Fixture.trackThree]
  = [Fixture.trackOne; Fixture.trackTwo; Fixture.trackThree].
Proof.
  assert (H1 : seedValue (WithSeed Fixture.background 12345) = Some 12345) by reflexivity.
  assert (H3 : 12345 <> 0) by discriminate.
  assert (H4 : limitFromContext (WithSeed Fixture.background 12345)
               = limitFromContext (WithSeed Fixture.background 12345)) by reflexivity.
  assert (H5 : Sort (rand := Fixture.lcg) 1 (WithSeed Fixture.background 12345)
                 Fixture.threeTracks
               = Some ([Fixture.trackOne; Fixture.trackTwo; Fixture.trackThree], None))
    by (vm_compute; reflexivity).
  assert (H6 : Sort (rand := Fixture.lcg) 2 (WithSeed Fixture.background 12345)
                 Fixture.threeTracks
               = Some ([Fixture.trackOne; Fixture.trackTwo; Fixture.trackThree], None))
    by (vm_compute; reflexivity).
  repeat (split; [assumption|]).
  exact (Sort_deterministic (rand := Fixture.lcg) 1 2 _ _ _ 12345 _ _ H1 H1 H3 H4 H5 H6).
Defined.

(** As stated, C2 fails for the explicit seed 0: [newMixPlanner] treats it
    as no seed and seeds the generator from the clock, so two calls made
    at different times can differ.  Here the two tracks tie for the start
    and the generator decides. *)
Lemma Sort_seed_zero_not_deterministic :
  Sort (rand := Fixture.lcg) 0 (WithSeed Fixture.background 0)
       [Fixture.row "a" "x" 120 50 1 ModeA; Fixture.row "b" "x" 120 50 1 ModeA]
  <>
  Sort (rand := Fixture.lcg) 65536 (WithSeed Fixture.background 0)
       [Fixture.row "a" "x" 120 50 1 ModeA; Fixture.row "b" "x" 120 50 1 ModeA].
Proof. vm_compute. discriminate. Qed.

(** ** [ParseKey] *)

Module ParseKeyProps.

Import KeyLabels.
Local Open Scope string_scope.


Lemma byteOf_char (c : ascii) : c = ascii_of_nat (Z.to_nat (byteOf c)).
Proof. unfold byteOf. by rewrite Nat2Z.id, ascii_nat_embedding. Qed.

Lemma isDigit_cases (c : ascii) :
  isDigit c = true ->
  In c ["0"; "1"; "2"; "3"; "4"; "5"; "6"; "7"; "8"; "9"]%char.
Proof.
  unfold isDigit. intros H.
  apply andb_true_iff in H as [Hlo Hhi].
  apply Z.leb_le in Hlo, Hhi.
  rewrite (byteOf_char c).
  assert (Hc : byteOf c = 48 \/ byteOf c = 49 \/ byteOf c = 50 \/ byteOf c = 51 \/
               byteOf c = 52 \/ byteOf c = 53 \/ byteOf c = 54 \/ byteOf c = 55 \/
               byteOf c = 56 \/ byteOf c = 57) by lia.
  repeat (destruct Hc as [->|Hc]; [simpl; tauto|]).
  rewrite Hc. simpl; tauto.
Qed.

(** The first byte of a string accepted by [Atoi] is a sign or a digit. *)
Lemma Atoi_first (c : ascii) (s : string) (n : Z) :
  Atoi (String c s) = Some n ->
  In c ["+"; "-"; "0"; "1"; "2"; "3"; "4"; "5"; "6"; "7"; "8"; "9"]%char.
Proof.
  unfold Atoi.
  destruct (Z.eqb_spec (byteOf c) 45) as [Hminus|_].
  { intros _. rewrite (byteOf_char c), Hminus. simpl; tauto. }
  destruct (Z.eqb_spec (byteOf c) 43) as [Hplus|_].
  { intros _. rewrite (byteOf_char c), Hplus. simpl; tauto. }
  simpl. destruct (isDigit c) eqn:Hd; [|discriminate].
  intros _. apply isDigit_cases in Hd. simpl in *. tauto.
Qed.

Lemma Atoi_second (c1 c2 : ascii) (n : Z) :
  Atoi (String c1 (String c2 "")) = Some n -> isDigit c2 = true.
Proof.
  unfold Atoi.
  destruct ((byteOf c1 =? 45)%Z || (byteOf c1 =? 43)%Z); simpl.
  - by destruct (isDigit c2).
  - destruct (isDigit c1); [|discriminate]. by destruct (isDigit c2).
Qed.

(** Within one or two bytes [Atoi] yields a number from 1 to 12 on the
    accepted numerals only. *)
Lemma Atoi_accepted (s : string) (n : Z) :
  (String.length s <= 2)%nat ->
  Atoi s = Some n ->
  1 <= n <= 12 ->
  In (s, n) acceptedNumerals.
Proof.
  intros Hlen HAtoi Hn.
  destruct s as [|c1 [|c2 [|c3 s]]]; [discriminate| | |simpl in Hlen; lia].
  - pose proof (Atoi_first _ _ _ HAtoi) as H1. simpl in H1.
    repeat (destruct H1 as [<-|H1];
            [vm_compute in HAtoi; inversion HAtoi; subst n;
             first [lia | vm_compute; tauto]|]).
    destruct H1.
  - pose proof (Atoi_first _ _ _ HAtoi) as H1.
    pose proof (isDigit_cases _ (Atoi_second _ _ _ HAtoi)) as H2.
    simpl in H1, H2.
    repeat (destruct H1 as [<-|H1];
            [repeat (destruct H2 as [<-|H2];
                     [vm_compute in HAtoi; inversion HAtoi; subst n;
                      first [lia | vm_compute; tauto]|]);
             destruct H2|]).
    destruct H1.
Qed.

Lemma splitLast_two (c1 c2 : ascii) :
  splitLast (String c1 (String c2 "")) = (String c1 "", String c2 "").
Proof. reflexivity. Qed.

Lemma splitLast_three (c1 c2 c3 : ascii) :
  splitLast (String c1 (String c2 (String c3 ""))) =
  (String c1 (String c2 ""), String c3 "").
Proof. reflexivity. Qed.

(** The labels [parseCleaned] accepts, and the key it returns. *)
Lemma parseCleaned_accepts (cleaned : string) (k : Key) :
  parseCleaned cleaned = inr k <-> labelOf acceptedNumerals cleaned k.
Proof.
  split.
  - unfold parseCleaned. intros H.
    destruct cleaned as [|c1 [|c2 [|c3 [|c4 s]]]]; try discriminate.
    + rewrite splitLast_two in H. cbn [String.length Nat.ltb Nat.leb orb] in H.
      destruct (negb (String.eqb (String c2 "") ModeA)
                && negb (String.eqb (String c2 "") ModeB)) eqn:Hmode; [discriminate|].
      destruct (Atoi (String c1 "")) as [n|] eqn:HAtoi; [|discriminate].
      destruct (Z.ltb_spec n 1); [discriminate|].
      destruct (Z.ltb_spec 12 n); [discriminate|].
      simpl in H. inversion H; subst k; clear H.
      exists (String c1 ""). simpl. split; [|split; [|reflexivity]].
      * apply Atoi_accepted; [simpl; lia | exact HAtoi | lia].
      * destruct (String.eqb_spec (String c2 "") ModeA); [by left|].
        destruct (String.eqb_spec (String c2 "") ModeB); [by right|discriminate].
    + rewrite splitLast_three in H. cbn [String.length Nat.ltb Nat.leb orb] in H.
      destruct (negb (String.eqb (String c3 "") ModeA)
                && negb (String.eqb (String c3 "") ModeB)) eqn:Hmode; [discriminate|].
      destruct (Atoi (String c1 (String c2 ""))) as [n|] eqn:HAtoi; [|discriminate].
      destruct (Z.ltb_spec n 1); [discriminate|].
      destruct (Z.ltb_spec 12 n); [discriminate|].
      simpl in H. inversion H; subst k; clear H.
      exists (String c1 (String c2 "")). simpl. split; [|split; [|reflexivity]].
      * apply Atoi_accepted; [simpl; lia | exact HAtoi | lia].
      * destruct (String.eqb_spec (String c3 "") ModeA); [by left|].
        destruct (String.eqb_spec (String c3 "") ModeB); [by right|discriminate].
  - intros (numeral & Hin & Hmode & ->).
    destruct k as [n mode]. simpl in *.
    unfold acceptedNumerals, canonicalNumerals, paddedNumerals, signedNumerals in Hin.
    simpl in Hin.
    repeat (destruct Hin as [Heq|Hin];
            [inversion Heq; subst; destruct Hmode as [->| ->]; vm_compute; reflexivity|]).
    destruct Hin.
Qed.

End ParseKeyProps.

Section ParseKeyUnicode.

Import KeyLabels ParseKeyProps.

Variable unicodeMapToUpper : string -> string.
Variable unicodeTrimFunc : string -> string.
Variable unicodeTrimRightFunc : string -> string.

(** C9, amended.  [ParseKey] succeeds exactly when the input, upper-cased
    and trimmed, is a numeral for a number from 1 to 12 followed by the
    letter A or B, where a numeral is the canonical decimal notation, or a
    single digit preceded by a zero or by a plus sign; the returned key
    carries that number and that letter. *)
Theorem ParseKey_accepts (input : string) (k : Key) :
  ParseKey unicodeMapToUpper unicodeTrimFunc unicodeTrimRightFunc input = inr k
  <->
  labelOf acceptedNumerals
    (cleanLabel unicodeMapToUpper unicodeTrimFunc unicodeTrimRightFunc input) k.
Proof. unfold ParseKey. apply parseCleaned_accepts. Qed.

End ParseKeyUnicode.

(** As stated, C9 fails: the label "+1A" is accepted, with the key 1A,
    though it is no number from 1 to 12 followed by a letter. *)
Lemma ParseKey_plus_sign :
  ParseKey KeyLabels.noUnicode KeyLabels.noUnicode KeyLabels.noUnicode "+1A"
  = inr {| Number := 1; KeyMode := ModeA |} /\
  ~ KeyLabels.labelOf KeyLabels.canonicalNumerals
      (cleanLabel KeyLabels.noUnicode KeyLabels.noUnicode KeyLabels.noUnicode
                  "+1A")
      {| Number := 1; KeyMode := ModeA |}.
Proof.
  split; [vm_compute; reflexivity|].
  intros (numeral & Hin & _ & Heq).
  vm_compute in Heq. simpl in Hin.
  repeat (destruct Hin as [Hin|Hin]; [inversion Hin; subst; discriminate|]).
  destruct Hin.
Qed.

(** The labels of the repository's test are treated as the test expects. *)
Example ParseKey_test_table :
  map (ParseKey KeyLabels.noUnicode KeyLabels.noUnicode KeyLabels.noUnicode)
      ["1A"; "12b"; " 5B "; "0A"; "13B"; "AA"; "2"]%string
  = [ inr {| Number := 1; KeyMode := ModeA |};
      inr {| Number := 12; KeyMode := ModeB |};
      inr {| Number := 5; KeyMode := ModeB |};
      inl (KeyNumberOutOfRange 0);
      inl (KeyNumberOutOfRange 13);
      inl InvalidKeyNumber;
      inl InvalidKeyFormat ].
Proof. vm_compute. reflexivity. Qed.

(** ** Large jumps in the output *)


Section LargeJumps.

Context {rand : RandSource}.

Lemma advance_prev (state : mixState) (next : Track) :
  prev (advance state next) = next /\ prevSet (advance state next) = true.
Proof.
  unfold advance. destruct (prevSet state) eqn:Hset; simpl; auto.
Qed.

Lemma greedyLoop_forced (ctx : Context) (target : Z) (fuel : nat) :
  forall (p : mixPlanner) (state : mixState) (ordered : list Track) (polls : nat)
         (out : list Track),
    prevSet state = true ->
    greedyLoop ctx target fuel p state ordered polls = Some (out, None) ->
    exists seq, out = ordered ++ seq /\ forcedFrom (prev state) (remaining p) seq.
Proof.
  induction fuel as [|fuel IH]; intros p state ordered polls out Hset;
    rewrite greedyLoop_unfold; unfold remainingCount.
  - destruct (_ && _); [discriminate|].
    intros H; inversion H; subst. exists []. rewrite app_nil_r. split; [done|constructor].
  - destruct (Nat.ltb_spec 0 (length (remaining p))) as [Hpos|_]; simpl.
    2:{ intros H; inversion H; subst. exists []. rewrite app_nil_r.
        split; [done|constructor]. }
    destruct (_ <? target).
    2:{ intros H; inversion H; subst. exists []. rewrite app_nil_r.
        split; [done|constructor]. }
    destruct (Done ctx polls); [discriminate|].
    assert (Hne : remaining p <> [])
      by (destruct (remaining p); simpl in *; [lia|discriminate]).
    destruct (loop_step p state Hne)
      as (idx & p1 & next & p2 & Hchoose & Htake & Hnext & Hperm & _).
    rewrite Hchoose, Htake. intros Hloop.
    destruct (advance_prev state next) as [Hprev Hset'].
    destruct (IH _ _ _ _ _ Hset' Hloop) as (seq & -> & Hforced).
    rewrite Hprev in Hforced.
    exists (next :: seq). split; [by rewrite <- app_assoc|].
    apply forced_step with (pool' := remaining p2); [exact Hperm | | exact Hforced].
    intros Hfar c Hc Hshallow.
    destruct (chooseNextIndex_prefers_shallow p state Hset) as (next' & Hnext' & Hcat).
    { exists c. split; [exact Hc | by apply shallow_shallowPair]. }
    rewrite Hchoose in Hnext'. simpl in Hnext'.
    assert (next' = next) by congruence. subst next'.
    pose proof (category_shallow state next Hset) as Hd.
    destruct (computeTransition_prev state next Hset) as [Hdist _].
    lia.
Qed.

(** X25.  In an output of [Sort] the first track is one of the input,
    every later track was drawn from the tracks not yet placed, and every
    track that follows its predecessor at a key-number distance above 3
    was chosen from a pool without a shallow option. *)
Theorem Sort_large_jumps_forced (now : Z) (ctx : Context) (tracks out : list Track) :
  (2 <= length tracks)%nat ->
  Sort now ctx tracks = Some (out, None) ->
  exists start seq pool,
    out = start :: seq /\
    Permutation (start :: pool) tracks /\
    forcedFrom start pool seq.
Proof.
  intros Hlen HSort.
  destruct (Sort_long now ctx tracks Hlen) as (start & p & _ & Hperm & Heq).
  rewrite Heq in HSort.
  destruct (sortTarget ctx tracks <=? 1).
  - inversion HSort; subst. exists start, [], (remaining p).
    split; [reflexivity|]. split; [exact Hperm | constructor].
  - destruct (greedyLoop_forced _ _ _ _ _ _ _ _ (eq_refl : prevSet (initialState p start) = true) HSort)
      as (seq & -> & Hforced).
    exists start, seq, (remaining p). auto.
Qed.

End LargeJumps.

Lemma Sort_large_jumps_forced_witness :
  (2 <= length Fixture.threeTracks)%nat /\
  Sort (rand := Fixture.lcg) 0 (WithSeed Fixture.background 1) Fixture.threeTracks
  = Some ([Fixture.trackOne; Fixture.trackTwo; Fixture.trackThree], None) /\
  exists start seq pool,
    [Fixture.trackOne; Fixture.trackTwo; Fixture.trackThree] = start :: seq /\
    Permutation (start :: pool) Fixture.threeTracks /\
    forcedFrom start pool seq.
Proof.
  assert (H1 : (2 <= length Fixture.threeTracks)%nat) by (simpl; lia).
  assert (H2 : Sort (rand := Fixture.lcg) 0 (WithSeed Fixture.background 1)
                    Fixture.threeTracks
               = Some ([Fixture.trackOne; Fixture.trackTwo; Fixture.trackThree], None))
    by (vm_compute; reflexivity).
  split; [exact H1|]. split; [exact H2|].
  exact (Sort_large_jumps_forced (rand := Fixture.lcg) 0 _ _ _ H1 H2).
Defined.

(** ** Binary64 arithmetic

    What the proof about [idealCycleLength] needs to know of IEEE-754
    double precision: how an [int] converts, how a quotient is rounded,
    and what [math.Round], [math.Max] and the conversion back to [int]
    do on the numbers that occur.  The primitive operations are tied to
    the specification of the standard library ([SpecFloat]) by its
    axioms. *)

Module Binary64.

Lemma digits2_pos_bounds (p : positive) :
  2 ^ (Z.pos (digits2_pos p) - 1) <= Z.pos p < 2 ^ Z.pos (digits2_pos p).
Proof.
  induction p as [p IH|p IH|]; simpl digits2_pos.
  - rewrite Pos2Z.inj_succ.
    replace (Z.succ (Z.pos (digits2_pos p)) - 1) with (Z.succ (Z.pos (digits2_pos p) - 1)) by lia.
    rewrite !Z.pow_succ_r by lia. lia.
  - rewrite Pos2Z.inj_succ.
    replace (Z.succ (Z.pos (digits2_pos p)) - 1) with (Z.succ (Z.pos (digits2_pos p) - 1)) by lia.
    rewrite !Z.pow_succ_r by lia. lia.
  - simpl. lia.
Qed.

Lemma pow2_lt_inv (a b : Z) : 0 <= a -> 0 <= b -> 2 ^ a < 2 ^ b -> a < b.
Proof.
  intros Ha Hb H. destruct (Z.lt_ge_cases a b) as [|Hge]; [assumption|].
  pose proof (Z.pow_le_mono_r 2 b a). lia.
Qed.

Lemma digits2_pos_unique (p : positive) (d : Z) :
  2 ^ (d - 1) <= Z.pos p < 2 ^ d -> Z.pos (digits2_pos p) = d.
Proof.
  intros [Hlo Hhi].
  pose proof (digits2_pos_bounds p) as [Hlo' Hhi'].
  assert (0 < d).
  { destruct (Z.lt_ge_cases 0 d); [assumption|].
    destruct (Z.eq_dec d 0) as [->|]; [simpl in Hhi; lia|].
    rewrite Z.pow_neg_r in Hhi by lia. lia. }
  assert (Z.pos (digits2_pos p) - 1 < d) by (apply pow2_lt_inv; lia).
  assert (d - 1 < Z.pos (digits2_pos p)) by (apply pow2_lt_inv; lia).
  lia.
Qed.

Lemma shr_1_m (mrs : shr_record) :
  0 <= shr_m mrs -> shr_m (shr_1 mrs) = shr_m mrs / 2 /\ 0 <= shr_m (shr_1 mrs).
Proof.
  destruct mrs as [m r s]. simpl. intros Hm.
  destruct m as [|[p|p|]|p]; cbn [shr_m]; try lia.
  - split; [reflexivity | lia].
  - split; [|lia]. apply Z.div_unique with (r := 1); lia.
  - split; [|lia]. apply Z.div_unique with (r := 0); lia.
  - split; [reflexivity | lia].
Qed.

Lemma pow2_xI (n : positive) : 2 ^ Z.pos n~1 = 2 * (2 ^ Z.pos n * 2 ^ Z.pos n).
Proof.
  rewrite (Pos2Z.inj_xI n).
  replace (2 * Z.pos n + 1) with (1 + (Z.pos n + Z.pos n)) by lia.
  rewrite !Z.pow_add_r by lia. reflexivity.
Qed.

Lemma pow2_xO (n : positive) : 2 ^ Z.pos n~0 = 2 ^ Z.pos n * 2 ^ Z.pos n.
Proof.
  rewrite (Pos2Z.inj_xO n).
  replace (2 * Z.pos n) with (Z.pos n + Z.pos n) by lia.
  rewrite !Z.pow_add_r by lia. reflexivity.
Qed.

Lemma iter_shr_1_m (n : positive) :
  forall mrs, 0 <= shr_m mrs ->
    shr_m (SpecFloat.iter_pos shr_1 n mrs) = shr_m mrs / 2 ^ Z.pos n /\
    0 <= shr_m (SpecFloat.iter_pos shr_1 n mrs).
Proof.
  induction n as [n IH|n IH|]; intros mrs Hm; simpl SpecFloat.iter_pos.
  - destruct (shr_1_m mrs Hm) as [H1 H1'].
    destruct (IH _ H1') as [H2 H2'].
    destruct (IH _ H2') as [H3 H3'].
    split; [|assumption].
    assert (0 < 2 ^ Z.pos n) by (apply Z.pow_pos_nonneg; lia).
    rewrite H3, H2, H1, pow2_xI.
    rewrite !Z.div_div by lia. reflexivity.
  - destruct (IH _ Hm) as [H2 H2'].
    destruct (IH _ H2') as [H3 H3'].
    split; [|assumption].
    assert (0 < 2 ^ Z.pos n) by (apply Z.pow_pos_nonneg; lia).
    rewrite H3, H2, pow2_xO.
    rewrite !Z.div_div by lia. reflexivity.
  - destruct (shr_1_m mrs Hm) as [H1 H1']. split; [|assumption].
    rewrite H1. reflexivity.
Qed.

Lemma shr_m_of_loc (m : Z) (l : location) : shr_m (shr_record_of_loc m l) = m.
Proof. by destruct l as [|[]]. Qed.

Lemma round_nearest_even_cases (m : Z) (l : location) :
  round_nearest_even m l = m \/ round_nearest_even m l = m + 1.
Proof.
  destruct l as [|[]]; simpl; auto.
  destruct (Z.even m); auto.
Qed.

Lemma fexp_normal (e : Z) : -1074 <= e - 53 -> fexp prec emax e = e - 53.
Proof. intros H. unfold fexp, emin, prec, emax. lia. Qed.

(** The right shift of [shr_fexp]: the mantissa loses the bits below the
    53 it keeps. *)
Lemma shr_fexp_m (mx ex : Z) (lx : location) (n : Z) :
  0 < mx ->
  fexp prec emax (Zdigits2 mx + ex) - ex = n ->
  0 <= n ->
  exists mrs,
    shr_fexp prec emax mx ex lx = (mrs, ex + n) /\
    shr_m mrs = mx / 2 ^ n.
Proof.
  intros Hmx Hn Hpos. unfold shr_fexp. rewrite Hn. unfold shr.
  destruct n as [|p|p]; [| |lia].
  - exists (shr_record_of_loc mx lx). split; [f_equal; lia|].
    rewrite shr_m_of_loc. simpl. by rewrite Z.div_1_r.
  - destruct (iter_shr_1_m p (shr_record_of_loc mx lx)) as [Hm _].
    { rewrite shr_m_of_loc. lia. }
    eexists. split; [reflexivity|]. by rewrite Hm, shr_m_of_loc.
Qed.

Lemma Zdigits2_bounds (m d : Z) :
  0 < m -> Zdigits2 m = d -> 2 ^ (d - 1) <= m < 2 ^ d.
Proof.
  intros Hm <-. destruct m as [|p|p]; try lia. simpl. apply digits2_pos_bounds.
Qed.

Lemma Zdigits2_unique (m d : Z) :
  2 ^ (d - 1) <= m < 2 ^ d -> 0 < m -> Zdigits2 m = d.
Proof.
  intros H Hm. destruct m as [|p|p]; try lia. simpl. by apply digits2_pos_unique.
Qed.

(** Rounding a positive mantissa of at least 53 bits: the result is a
    normal number whose mantissa is the truncated one or its successor. *)
Lemma binary_round_aux_bounds (s : bool) (mx ex : Z) (lx : location) (d : Z) :
  0 < mx -> Zdigits2 mx = d -> 53 <= d ->
  -1074 <= ex + d - 53 -> ex + d - 53 < 971 ->
  exists mz ez j,
    binary_round_aux prec emax s mx ex lx = S754_finite s mz ez /\
    2 ^ 52 <= Z.pos mz < 2 ^ 53 /\
    (j = 0 \/ j = 1) /\
    ez = ex + (d - 53) + j /\
    mx / 2 ^ (d - 53) <= Z.pos mz * 2 ^ j <= mx / 2 ^ (d - 53) + 1.
Proof.
  intros Hmx Hd Hd53 Hlo Hhi.
  pose proof (Zdigits2_bounds mx d Hmx Hd) as [Hmlo Hmhi].
  set (n := d - 53) in *.
  assert (Hpow : 2 ^ d = 2 ^ n * 2 ^ 53).
  { rewrite <- Z.pow_add_r by lia. f_equal. lia. }
  assert (Hpow' : 2 ^ (d - 1) = 2 ^ n * 2 ^ 52).
  { rewrite <- Z.pow_add_r by lia. f_equal. lia. }
  assert (Hn : 0 < 2 ^ n) by (apply Z.pow_pos_nonneg; lia).
  assert (Hm' : 2 ^ 52 <= mx / 2 ^ n < 2 ^ 53).
  { split.
    - apply Z.div_le_lower_bound; lia.
    - apply Z.div_lt_upper_bound; lia. }
  destruct (shr_fexp_m mx ex lx n Hmx) as (mrs & Hshr & Hmrs).
  { rewrite Hd, fexp_normal by lia. lia. }
  { lia. }
  unfold binary_round_aux. rewrite Hshr.
  set (m'' := round_nearest_even (shr_m mrs) (loc_of_shr_record mrs)).
  assert (Hm'' : m'' = mx / 2 ^ n \/ m'' = mx / 2 ^ n + 1).
  { subst m''. rewrite <- Hmrs. apply round_nearest_even_cases. }
  destruct (Z.lt_ge_cases m'' (2 ^ 53)) as [Hsmall|Hbig].
  - assert (Hd'' : Zdigits2 m'' = 53) by (apply Zdigits2_unique; lia).
    destruct (shr_fexp_m m'' (ex + n) loc_Exact 0) as (mrs2 & Hshr2 & Hmrs2).
    { lia. }
    { rewrite Hd'', fexp_normal by lia. lia. }
    { lia. }
    rewrite Hshr2, Hmrs2. rewrite Z.div_1_r.
    destruct m'' as [|mz|mz] eqn:Hmz; [lia| |lia].
    destruct (Z.leb_spec (ex + n + 0) (emax - prec)) as [_|Hbad];
      [|unfold emax, prec in Hbad; lia].
    exists mz, (ex + n + 0), 0. split; [reflexivity|].
    split; [lia|]. split; [by left|]. split; [reflexivity|]. lia.
  - assert (Heq : m'' = 2 ^ 53) by lia.
    assert (Hd'' : Zdigits2 m'' = 54) by (apply Zdigits2_unique; rewrite Heq; simpl; lia).
    destruct (shr_fexp_m m'' (ex + n) loc_Exact 1) as (mrs2 & Hshr2 & Hmrs2).
    { lia. }
    { rewrite Hd'', fexp_normal by lia. lia. }
    { lia. }
    rewrite Hshr2, Hmrs2, Heq.
    change (2 ^ 53 / 2 ^ 1) with (Z.pos (2 ^ 52)).
    destruct (Z.leb_spec (ex + n + 1) (emax - prec)) as [_|Hbad];
      [|unfold emax, prec in Hbad; lia].
    exists (2 ^ 52)%positive, (ex + n + 1), 1. split; [reflexivity|].
    split; [simpl; lia|]. split; [by right|]. split; [reflexivity|].
    change (Z.pos (2 ^ 52) * 2 ^ 1) with (2 ^ 53). lia.
Qed.

Lemma loc_of_shr_record_of_loc (m : Z) (l : location) :
  loc_of_shr_record (shr_record_of_loc m l) = l.
Proof. by destruct l as [|[]]. Qed.

(** A 53-bit mantissa that is exact is left as it is. *)
Lemma binary_round_aux_exact (s : bool) (p : positive) (ex : Z) :
  2 ^ 52 <= Z.pos p < 2 ^ 53 -> -1074 <= ex <= 971 ->
  binary_round_aux prec emax s (Z.pos p) ex loc_Exact = S754_finite s p ex.
Proof.
  intros Hp Hex.
  assert (Hd : Zdigits2 (Z.pos p) = 53) by (apply Zdigits2_unique; simpl; lia).
  assert (Hshr : shr_fexp prec emax (Z.pos p) ex loc_Exact
                 = (shr_record_of_loc (Z.pos p) loc_Exact, ex)).
  { unfold shr_fexp. rewrite Hd, fexp_normal by lia.
    replace (53 + ex - 53 - ex) with 0 by lia. reflexivity. }
  unfold binary_round_aux. rewrite Hshr.
  rewrite loc_of_shr_record_of_loc, shr_m_of_loc.
  cbn [round_nearest_even]. rewrite Hshr. cbn [shr_m shr_record_of_loc].
  destruct (Z.leb_spec ex (emax - prec)) as [_|Hbad];
    [reflexivity | unfold emax, prec in Hbad; lia].
Qed.

Lemma valid_binary_normal (s : bool) (mz : positive) (ez : Z) :
  2 ^ 52 <= Z.pos mz < 2 ^ 53 -> -1074 <= ez <= 971 ->
  valid_binary (S754_finite s mz ez) = true.
Proof.
  intros Hm He. unfold SpecFloat.valid_binary, SpecFloat.bounded, SpecFloat.canonical_mantissa.
  rewrite (digits2_pos_unique mz 53) by (simpl; lia).
  rewrite fexp_normal by lia.
  apply andb_true_iff. split; [apply Z.eqb_eq; lia | apply Z.leb_le].
  unfold emax, prec. lia.
Qed.

Lemma Pos_iter_xO (p k : positive) :
  Z.pos (Pos.iter xO p k) = Z.pos p * 2 ^ Z.pos k.
Proof.
  induction k as [|k IH] using Pos.peano_ind.
  - simpl. lia.
  - rewrite Pos.iter_succ, Pos2Z.inj_succ, Z.pow_succ_r by lia.
    rewrite (Pos2Z.inj_xO (Pos.iter xO p k)), IH. lia.
Qed.

(** [float64(n)] for a positive [int]: a normal number; it is [n] itself
    below 2^53 and within one unit of its last place otherwise. *)
Lemma float_of_int_spec (n : Z) :
  1 <= n < 2 ^ 63 ->
  exists mz ez,
    Prim2SF (float_of_int n) = S754_finite false mz ez /\
    2 ^ 52 <= Z.pos mz < 2 ^ 53 /\
    ((n < 2 ^ 53 /\ -52 <= ez <= 0 /\ Z.pos mz = n * 2 ^ (- ez)) \/
     (2 ^ 53 <= n /\ 1 <= ez <= 11 /\
      (Z.pos mz - 1) * 2 ^ ez <= n <= (Z.pos mz + 1) * 2 ^ ez)).
Proof.
  intros Hn. unfold float_of_int.
  destruct n as [|p|p]; [lia| |lia].
  set (d := Z.pos (digits2_pos p)).
  pose proof (digits2_pos_bounds p) as Hp. fold d in Hp.
  assert (Hd1 : 1 <= d) by (subst d; lia).
  assert (Hd63 : d <= 63).
  { destruct (Z.le_gt_cases d 63) as [|Hgt]; [assumption|].
    assert (2 ^ 63 <= 2 ^ (d - 1)) by (apply Z.pow_le_mono_r; lia). lia. }
  assert (Hspec : exists mz ez,
             binary_normalize prec emax (Z.pos p) 0 false = S754_finite false mz ez /\
             2 ^ 52 <= Z.pos mz < 2 ^ 53 /\
             ((Z.pos p < 2 ^ 53 /\ -52 <= ez <= 0 /\ Z.pos mz = Z.pos p * 2 ^ (- ez)) \/
              (2 ^ 53 <= Z.pos p /\ 1 <= ez <= 11 /\
               (Z.pos mz - 1) * 2 ^ ez <= Z.pos p <= (Z.pos mz + 1) * 2 ^ ez))).
  { unfold binary_normalize, binary_round. fold d.
    rewrite fexp_normal by lia. unfold shl_align.
    destruct (d + 0 - 53 - 0) as [|k|k] eqn:Hk; cbv beta iota.
    - (* exactly 53 bits *)
      assert (Heq : d = 53) by lia. rewrite Heq in Hp. simpl in Hp.
      rewrite binary_round_aux_exact by (simpl; lia).
      exists p, 0. split; [reflexivity|]. split; [simpl; lia|].
      left. simpl. lia.
    - (* more than 53 bits: the low bits are rounded away *)
      destruct (binary_round_aux_bounds false (Z.pos p) 0 loc_Exact d)
        as (mz & ez & j & Hres & Hmz & Hj & Hez & Hbr); try lia; [reflexivity|].
      exists mz, ez. split; [exact Hres|]. split; [exact Hmz|].
      right.
      assert (Hpn : 0 < 2 ^ (d - 53)) by (apply Z.pow_pos_nonneg; lia).
      assert (Hbig : 2 ^ 53 <= 2 ^ (d - 1)) by (apply Z.pow_le_mono_r; lia).
      split; [lia|]. split; [lia|].
      assert (Hez2 : 2 ^ ez = 2 ^ (d - 53) * 2 ^ j).
      { rewrite <- Z.pow_add_r by lia. f_equal. lia. }
      pose proof (Z.mul_div_le (Z.pos p) (2 ^ (d - 53)) Hpn) as Hfloor1.
      pose proof (Z.mul_succ_div_gt (Z.pos p) (2 ^ (d - 53)) Hpn) as Hfloor2.
      assert (Hj2 : 1 <= 2 ^ j) by (destruct Hj as [-> | ->]; simpl; lia).
      rewrite Hez2. split; nia.
    - (* fewer than 53 bits: the mantissa is shifted left *)
      assert (Hk' : Z.pos k = 53 - d) by lia.
      assert (Hpow : 2 ^ 52 = 2 ^ (d - 1) * 2 ^ Z.pos k).
      { rewrite <- Z.pow_add_r by lia. f_equal. lia. }
      assert (Hpow' : 2 ^ 53 = 2 ^ d * 2 ^ Z.pos k).
      { rewrite <- Z.pow_add_r by lia. f_equal. lia. }
      assert (Hk2 : 0 < 2 ^ Z.pos k) by (apply Z.pow_pos_nonneg; lia).
      assert (Hm : 2 ^ 52 <= Z.pos (Pos.iter xO p k) < 2 ^ 53).
      { rewrite Pos_iter_xO. nia. }
      rewrite binary_round_aux_exact by lia.
      eexists _, _. split; [reflexivity|]. split; [exact Hm|].
      left. split; [|split; [lia|]].
      + assert (2 ^ d <= 2 ^ 52) by (apply Z.pow_le_mono_r; lia). lia.
      + rewrite Pos_iter_xO. f_equal. f_equal. lia. }
  destruct Hspec as (mz & ez & Hres & Hmz & Hcases).
  exists mz, ez. split; [|split; [exact Hmz | exact Hcases]].
  rewrite Hres. apply Prim2SF_SF2Prim.
  apply valid_binary_normal; [exact Hmz|].
  destruct Hcases as [(_ & ? & _)|(_ & ? & _)]; lia.
Qed.

(** Division of two positive normal numbers: the mantissa of the result,
    moved by one either way, brackets the exact quotient. *)
Lemma SF64div_bounds (mx my : positive) (ex ey : Z) :
  2 ^ 52 <= Z.pos mx < 2 ^ 53 ->
  2 ^ 52 <= Z.pos my < 2 ^ 53 ->
  -1000 <= ex - ey <= 900 ->
  exists mz ez k,
    SF64div (S754_finite false mx ex) (S754_finite false my ey)
    = S754_finite false mz ez /\
    2 ^ 52 <= Z.pos mz < 2 ^ 53 /\
    0 <= k <= 2 /\
    ez = ex - ey - 53 + k /\
    Z.pos my * (Z.pos mz - 1) * 2 ^ k <= Z.pos mx * 2 ^ 53
    <= Z.pos my * (Z.pos mz + 1) * 2 ^ k.
Proof.
  intros Hmx Hmy He.
  unfold SF64div, SFdiv, SFdiv_core_binary.
  rewrite (Zdigits2_unique (Z.pos mx) 53), (Zdigits2_unique (Z.pos my) 53)
    by (simpl; lia).
  rewrite fexp_normal by lia.
  replace (Z.min (53 + ex - (53 + ey) - 53) (ex - ey)) with (ex - ey - 53) by lia.
  replace (ex - ey - (ex - ey - 53)) with 53 by lia.
  rewrite Z.shiftl_mul_pow2 by lia.
  pose proof (Z_div_mod (Z.pos mx * 2 ^ 53) (Z.pos my) eq_refl) as Hdiv.
  destruct (Z.div_eucl (Z.pos mx * 2 ^ 53) (Z.pos my)) as [q r].
  destruct Hdiv as [Hq Hr].
  assert (Hqlo : 2 ^ 52 <= q) by nia.
  assert (Hqhi : q < 2 ^ 54) by nia.
  cbn [xorb].
  destruct (Z.lt_ge_cases q (2 ^ 53)) as [Hsmall|Hbig].
  - destruct (binary_round_aux_bounds false q (ex - ey - 53) (new_location (Z.pos my) r) 53)
      as (mz & ez & j & Hres & Hmz & Hj & Hez & Hbr); try lia.
    { apply Zdigits2_unique; simpl; lia. }
    rewrite Hres. exists mz, ez, j. split; [reflexivity|]. split; [exact Hmz|].
    replace (53 - 53) with 0 in * by lia. rewrite Z.div_1_r in Hbr.
    split; [lia|]. split; [lia|].
    destruct Hj as [-> | ->]; simpl (2 ^ _) in *; split; nia.
  - destruct (binary_round_aux_bounds false q (ex - ey - 53) (new_location (Z.pos my) r) 54)
      as (mz & ez & j & Hres & Hmz & Hj & Hez & Hbr); try lia.
    { apply Zdigits2_unique; simpl; lia. }
    rewrite Hres. exists mz, ez, (1 + j). split; [reflexivity|]. split; [exact Hmz|].
    replace (54 - 53) with 1 in * by lia. change (2 ^ 1) with 2 in Hbr.
    split; [lia|]. split; [lia|].
    pose proof (Z.mul_div_le q 2 eq_refl) as Hfloor1.
    pose proof (Z.mul_succ_div_gt q 2 eq_refl) as Hfloor2.
    destruct Hj as [-> | ->]; simpl (2 ^ _) in *; split; nia.
Qed.


(** *** Values *)

Local Open Scope R_scope.

Lemma pow2R_pos (e : Z) : 0 < powerRZ 2 e.
Proof. apply powerRZ_lt. lra. Qed.

Lemma pow2R_add (a b : Z) : powerRZ 2 (a + b) = powerRZ 2 a * powerRZ 2 b.
Proof. apply powerRZ_add. lra. Qed.

Lemma pow2R_IZR (k : Z) : (0 <= k)%Z -> IZR (2 ^ k) = powerRZ 2 k.
Proof.
  intros Hk. rewrite <- (Z2Nat.id k Hk) at 1 2.
  by rewrite <- pow_IZR, pow_powerRZ.
Qed.

Lemma pow2R_ge_1 (k : Z) : (0 <= k)%Z -> 1 <= powerRZ 2 k.
Proof.
  intros Hk. rewrite <- pow2R_IZR by exact Hk.
  apply IZR_le. pose proof (Z.pow_pos_nonneg 2 k). lia.
Qed.

Lemma valueOf_pos (m : positive) (e : Z) : 0 < valueOf m e.
Proof.
  unfold valueOf. apply Rmult_lt_0_compat; [|apply pow2R_pos].
  apply IZR_lt. lia.
Qed.

Lemma mantissa_eps (m : positive) :
  (2 ^ 52 <= Z.pos m)%Z -> 1 <= IZR (Z.pos m) * eps.
Proof.
  intros Hm. apply IZR_le in Hm. change (2 ^ 52)%Z with 4503599627370496%Z in Hm.
  unfold eps. lra.
Qed.

(** [float64(n)]: its value is [n] below 2^53 and within [eps] of it in
    any case. *)
Lemma float_of_int_value (n : Z) :
  (1 <= n < 2 ^ 63)%Z ->
  exists mz ez,
    Prim2SF (float_of_int n) = S754_finite false mz ez /\
    (2 ^ 52 <= Z.pos mz < 2 ^ 53)%Z /\
    (-52 <= ez <= 11)%Z /\
    ((n < 2 ^ 53)%Z -> (ez <= 0)%Z /\ Z.pos mz = (n * 2 ^ (- ez))%Z) /\
    ((n < 2 ^ 53)%Z -> valueOf mz ez = IZR n) /\
    valueOf mz ez * (1 - eps) <= IZR n <= valueOf mz ez * (1 + eps).
Proof.
  intros Hn.
  destruct (float_of_int_spec n Hn) as (mz & ez & Hres & Hmz & Hcases).
  exists mz, ez. split; [exact Hres|]. split; [exact Hmz|].
  pose proof (mantissa_eps mz (proj1 Hmz)) as Heps.
  pose proof (pow2R_pos ez) as Hpos.
  destruct Hcases as [(Hsmall & Hez & Hexact)|(Hbig & Hez & Hlo & Hhi)].
  - assert (Hval : valueOf mz ez = IZR n).
    { unfold valueOf. rewrite Hexact, mult_IZR, pow2R_IZR by lia.
      rewrite Rmult_assoc, <- pow2R_add.
      replace (- ez + ez)%Z with 0%Z by lia. simpl. lra. }
    split; [lia|]. split; [intros _; split; [lia | exact Hexact]|].
    split; [intros _; exact Hval|].
    rewrite Hval. assert (0 < IZR n) by (apply IZR_lt; lia).
    assert (0 < eps) by (unfold eps; lra). nra.
  - split; [lia|]. split; [lia|]. split; [lia|].
    apply IZR_le in Hlo, Hhi.
    rewrite mult_IZR, pow2R_IZR in Hlo, Hhi by lia.
    rewrite minus_IZR in Hlo. rewrite plus_IZR in Hhi.
    unfold valueOf. split; nra.
Qed.

(** Division: the value of [x / y] times the value of [y] is within
    [eps] of the value of [x]. *)
Lemma div_value (x y : float) (mx my : positive) (ex ey : Z) :
  Prim2SF x = S754_finite false mx ex ->
  Prim2SF y = S754_finite false my ey ->
  (2 ^ 52 <= Z.pos mx < 2 ^ 53)%Z ->
  (2 ^ 52 <= Z.pos my < 2 ^ 53)%Z ->
  (-1000 <= ex - ey <= 900)%Z ->
  exists mz ez,
    Prim2SF (x / y)%float = S754_finite false mz ez /\
    (2 ^ 52 <= Z.pos mz < 2 ^ 53)%Z /\
    (ex - ey - 53 <= ez <= ex - ey - 51)%Z /\
    valueOf mz ez * valueOf my ey * (1 - eps) <= valueOf mx ex
    <= valueOf mz ez * valueOf my ey * (1 + eps).
Proof.
  intros Hx Hy Hmx Hmy He.
  destruct (SF64div_bounds mx my ex ey Hmx Hmy He)
    as (mz & ez & k & Hres & Hmz & Hk & Hez & Hlo & Hhi).
  exists mz, ez. split; [by rewrite FloatAxioms.div_spec, Hx, Hy|].
  split; [exact Hmz|]. split; [lia|].
  pose proof (mantissa_eps mz (proj1 Hmz)) as Heps.
  apply IZR_le in Hlo, Hhi.
  rewrite !mult_IZR, !pow2R_IZR in Hlo, Hhi by lia.
  rewrite minus_IZR in Hlo. rewrite plus_IZR in Hhi.
  unfold valueOf.
  assert (Hez' : powerRZ 2 ez * powerRZ 2 ey = powerRZ 2 k * powerRZ 2 (ex - 53)).
  { rewrite <- !pow2R_add. f_equal. lia. }
  assert (Hex' : powerRZ 2 ex = powerRZ 2 53 * powerRZ 2 (ex - 53)).
  { rewrite <- pow2R_add. f_equal. lia. }
  pose proof (pow2R_pos (ex - 53)) as Hp.
  pose proof (pow2R_pos k) as Hpk.
  assert (Hmy0 : 0 < IZR (Z.pos my)) by (apply IZR_lt; lia).
  set (P := powerRZ 2 (ex - 53)) in *.
  set (K := powerRZ 2 k) in *.
  set (MX := IZR (Z.pos mx)) in *. set (MY := IZR (Z.pos my)) in *.
  set (MZ := IZR (Z.pos mz)) in *.
  replace (MZ * powerRZ 2 ez * (MY * powerRZ 2 ey))
    with (MY * MZ * K * P)
    by (transitivity (MY * MZ * (powerRZ 2 ez * powerRZ 2 ey)); [rewrite Hez'|]; ring).
  rewrite Hex'.
  assert (Hmk : 0 < MY * K) by (apply Rmult_lt_0_compat; assumption).
  assert (H1 : MY * K <= MY * MZ * K * eps) by nra.
  split.
  - apply Rle_trans with (MY * (MZ - 1) * K * P); [|nra].
    replace (MY * MZ * K * P * (1 - eps)) with ((MY * MZ * K - MY * MZ * K * eps) * P) by ring.
    replace (MY * (MZ - 1) * K * P) with ((MY * MZ * K - MY * K) * P) by ring.
    apply Rmult_le_compat_r; lra.
  - apply Rle_trans with (MY * (MZ + 1) * K * P); [nra|].
    replace (MY * MZ * K * P * (1 + eps)) with ((MY * MZ * K + MY * MZ * K * eps) * P) by ring.
    replace (MY * (MZ + 1) * K * P) with ((MY * MZ * K + MY * K) * P) by ring.
    apply Rmult_le_compat_r; lra.
Qed.

(** [math.Round] on a positive normal number with a fractional part: an
    integer within one half of the value. *)
Lemma math_Round_value (f : float) (m : positive) (e : Z) :
  Prim2SF f = S754_finite false m e ->
  (e < 0)%Z ->
  exists n : Z,
    math_Round f = (if (n =? 0)%Z then zero else float_of_int n) /\
    (0 <= n <= Z.pos m / 2 + 1)%Z /\
    IZR n - / 2 <= valueOf m e < IZR n + / 2.
Proof.
  intros Hf He. unfold math_Round. rewrite Hf.
  destruct (Z.leb_spec 0 e) as [|_]; [lia|]. cbv zeta.
  set (d := (2 ^ (- e))%Z).
  assert (Hd : (2 <= d)%Z).
  { subst d. change 2%Z with (2 ^ 1)%Z at 1. apply Z.pow_le_mono_r; lia. }
  pose proof (Z.div_mod (Z.pos m) d ltac:(lia)) as Hdm.
  pose proof (Z.mod_pos_bound (Z.pos m) d ltac:(lia)) as Hr.
  set (q := (Z.pos m / d)%Z) in *. set (r := (Z.pos m mod d)%Z) in *.
  assert (Hq : (0 <= q <= Z.pos m / 2)%Z).
  { split; [apply Z.div_pos; lia|].
    subst q. apply Z.div_le_compat_l; lia. }
  assert (HD : IZR d = powerRZ 2 (- e)) by (subst d; apply pow2R_IZR; lia).
  assert (Hinv : powerRZ 2 e * IZR d = 1).
  { rewrite HD, <- pow2R_add. replace (e + - e)%Z with 0%Z by lia. reflexivity. }
  pose proof (pow2R_pos e) as Hpe.
  assert (HDpos : 0 < IZR d) by (apply IZR_lt; lia).
  assert (Hm : IZR (Z.pos m) = IZR q * IZR d + IZR r).
  { rewrite Hdm at 1. rewrite plus_IZR, mult_IZR. ring. }
  assert (Hr0 : 0 <= IZR r < IZR d) by (split; [apply IZR_le | apply IZR_lt]; lia).
  assert (Hval : valueOf m e * IZR d = IZR q * IZR d + IZR r).
  { unfold valueOf. rewrite Rmult_assoc, Hinv, Hm. ring. }
  destruct (Z.leb_spec d (2 * r)) as [Hup|Hdown].
  - exists (q + 1)%Z. split; [reflexivity|]. split; [lia|].
    apply IZR_le in Hup. rewrite mult_IZR in Hup. rewrite plus_IZR.
    split.
    + apply Rmult_le_reg_r with (IZR d); [exact HDpos|]. rewrite Hval. nra.
    + apply Rmult_lt_reg_r with (IZR d); [exact HDpos|]. rewrite Hval. nra.
  - exists q. split; [reflexivity|]. split; [lia|].
    apply IZR_lt in Hdown. rewrite mult_IZR in Hdown.
    split.
    + apply Rmult_le_reg_r with (IZR d); [exact HDpos|]. rewrite Hval. nra.
    + apply Rmult_lt_reg_r with (IZR d); [exact HDpos|]. rewrite Hval. nra.
Qed.

Lemma math_Round_integral (f : float) (m : positive) (e : Z) :
  Prim2SF f = S754_finite false m e -> (0 <= e)%Z -> math_Round f = f.
Proof.
  intros Hf He. unfold math_Round. rewrite Hf.
  by destruct (Z.leb_spec 0 e) as [_|]; [|lia].
Qed.

(** [math.Max(1, y)] for a normal number [y] that is at least 1. *)
Lemma math_Max_one (y : float) (m : positive) (e : Z) :
  Prim2SF y = S754_finite false m e ->
  (2 ^ 52 <= Z.pos m)%Z -> (-52 <= e)%Z ->
  math_Max 1 y = y.
Proof.
  intros Hy Hm He. unfold math_Max.
  change (1 =? infinity)%float with false.
  change (is_nan 1) with false.
  change (1 =? zero)%float with false.
  assert (Hinf : (y =? infinity)%float = false).
  { rewrite FloatAxioms.eqb_spec, Hy. reflexivity. }
  assert (Hnan : is_nan y = false).
  { unfold is_nan. rewrite FloatAxioms.eqb_spec, Hy. unfold SFeqb, SFcompare.
    by rewrite Z.compare_refl, Pos.compare_cont_refl. }
  assert (Hlt : (y <? 1)%float = false).
  { rewrite FloatAxioms.ltb_spec, Hy.
    change (Prim2SF 1) with (S754_finite false 4503599627370496 (-52)).
    unfold SFltb, SFcompare.
    destruct (Z.compare_spec e (-52)) as [Heq|Hlt|Hgt]; [|lia|reflexivity].
    destruct (Pos.compare_cont Eq m 4503599627370496) eqn:Hc; [reflexivity| |reflexivity].
    apply (proj1 (Pos.compare_lt_iff m 4503599627370496)) in Hc.
    change (2 ^ 52)%Z with (Z.pos 4503599627370496) in Hm.
    apply Pos.lt_nle in Hc. exfalso. apply Hc. exact Hm. }
  rewrite Hinf, Hnan, Hlt. reflexivity.
Qed.

Lemma int_of_float_value (f : float) (m : positive) (e : Z) :
  Prim2SF f = S754_finite false m e ->
  int_of_float f =
  let v := if (0 <=? e)%Z then (Z.pos m * 2 ^ e)%Z else (Z.pos m / 2 ^ (- e))%Z in
  if inInt64 v then v else minInt64.
Proof. intros Hf. unfold int_of_float. by rewrite Hf. Qed.

End Binary64.

(** ** The order of the numbers and the rounding of a sum *)

Module NumberLine.

Import Binary64 FloatRank.

(** *** The comparisons follow the rank *)

Lemma compare_cont_Eq (m1 m2 : positive) :
  Pos.compare_cont Eq m1 m2 = (Z.pos m1 ?= Z.pos m2).
Proof. reflexivity. Qed.

Lemma SFltb_rank (x y : spec_float) :
  number x -> number y -> (SFltb x y = true <-> lexlt (rank x) (rank y)).
Proof.
  unfold number, SFltb.
  destruct x as [s1|s1| |s1 m1 e1], y as [s2|s2| |s2 m2 e2]; try congruence;
    intros _ _; simpl; try destruct s1; try destruct s2; simpl;
    try (split; [discriminate | lia]); try (split; [lia | reflexivity]).
  all: rewrite compare_cont_Eq;
    destruct (Z.compare_spec e1 e2); destruct (Z.compare_spec (Z.pos m1) (Z.pos m2));
    simpl; split; try discriminate; try reflexivity; lia.
Qed.

Lemma SFleb_rank (x y : spec_float) :
  number x -> number y -> (SFleb x y = true <-> lexle (rank x) (rank y)).
Proof.
  unfold number, SFleb.
  destruct x as [s1|s1| |s1 m1 e1], y as [s2|s2| |s2 m2 e2]; try congruence;
    intros _ _; simpl; try destruct s1; try destruct s2; simpl;
    try (split; [discriminate | lia]); try (split; [lia | reflexivity]).
  all: rewrite compare_cont_Eq;
    destruct (Z.compare_spec e1 e2); destruct (Z.compare_spec (Z.pos m1) (Z.pos m2));
    simpl; split; try discriminate; try reflexivity; lia.
Qed.

Lemma SFltb_number (x y : spec_float) : SFltb x y = true -> number x /\ number y.
Proof.
  unfold SFltb, number. destruct x, y; simpl; try discriminate; split; discriminate.
Qed.

Lemma SFleb_number (x y : spec_float) : SFleb x y = true -> number x /\ number y.
Proof.
  unfold SFleb, number. destruct x, y; simpl; try discriminate; split; discriminate.
Qed.

Lemma is_nan_number (x : float) : is_nan x = false <-> number (Prim2SF x).
Proof.
  unfold is_nan, number. rewrite FloatAxioms.eqb_spec. unfold SFeqb.
  destruct (Prim2SF x) as [[]|[]| |[] m e]; simpl; try (split; congruence).
  all: rewrite Z.compare_refl, Pos.compare_cont_refl; simpl; split; congruence.
Qed.

(** Of two numbers, the one that is not below the other is at most it. *)
Lemma not_ltb_leb (x y : float) :
  is_nan x = false -> is_nan y = false ->
  (y <? x)%float = false -> (x <=? y)%float = true.
Proof.
  rewrite !is_nan_number, FloatAxioms.ltb_spec, FloatAxioms.leb_spec.
  intros Hx Hy Hlt. apply SFleb_rank; [assumption..|].
  assert (Hn : ~ lexlt (rank (Prim2SF y)) (rank (Prim2SF x))).
  { intros H. apply SFltb_rank in H; [congruence | assumption..]. }
  destruct (rank (Prim2SF x)) as [[a1 a2] a3], (rank (Prim2SF y)) as [[b1 b2] b3].
  unfold lexlt, lexle in *. lia.
Qed.

Lemma leb_trans (x y z : float) :
  (x <=? y)%float = true -> (y <=? z)%float = true -> (x <=? z)%float = true.
Proof.
  rewrite !FloatAxioms.leb_spec. intros Hxy Hyz.
  destruct (SFleb_number _ _ Hxy) as [Hx Hy], (SFleb_number _ _ Hyz) as [_ Hz].
  apply SFleb_rank in Hxy, Hyz; try assumption. apply SFleb_rank; [assumption..|].
  destruct (rank (Prim2SF x)) as [[a1 a2] a3], (rank (Prim2SF y)) as [[b1 b2] b3],
    (rank (Prim2SF z)) as [[c1 c2] c3].
  unfold lexle in *. lia.
Qed.

Lemma ltb_leb_trans (x y z : float) :
  (x <? y)%float = true -> (y <=? z)%float = true -> (x <? z)%float = true.
Proof.
  rewrite !FloatAxioms.leb_spec, !FloatAxioms.ltb_spec. intros Hxy Hyz.
  destruct (SFltb_number _ _ Hxy) as [Hx Hy], (SFleb_number _ _ Hyz) as [_ Hz].
  apply SFltb_rank in Hxy; try assumption. apply SFleb_rank in Hyz; try assumption.
  apply SFltb_rank; [assumption..|].
  destruct (rank (Prim2SF x)) as [[a1 a2] a3], (rank (Prim2SF y)) as [[b1 b2] b3],
    (rank (Prim2SF z)) as [[c1 c2] c3].
  unfold lexle, lexlt in *. lia.
Qed.

Lemma leb_ltb_trans (x y z : float) :
  (x <=? y)%float = true -> (y <? z)%float = true -> (x <? z)%float = true.
Proof.
  rewrite !FloatAxioms.leb_spec, !FloatAxioms.ltb_spec. intros Hxy Hyz.
  destruct (SFleb_number _ _ Hxy) as [Hx Hy], (SFltb_number _ _ Hyz) as [_ Hz].
  apply SFleb_rank in Hxy; try assumption. apply SFltb_rank in Hyz; try assumption.
  apply SFltb_rank; [assumption..|].
  destruct (rank (Prim2SF x)) as [[a1 a2] a3], (rank (Prim2SF y)) as [[b1 b2] b3],
    (rank (Prim2SF z)) as [[c1 c2] c3].
  unfold lexle, lexlt in *. lia.
Qed.

Lemma ltb_trans (x y z : float) :
  (x <? y)%float = true -> (y <? z)%float = true -> (x <? z)%float = true.
Proof.
  rewrite !FloatAxioms.ltb_spec. intros Hxy Hyz.
  destruct (SFltb_number _ _ Hxy) as [Hx Hy], (SFltb_number _ _ Hyz) as [_ Hz].
  apply SFltb_rank in Hxy, Hyz; try assumption.
  apply SFltb_rank; [assumption..|].
  destruct (rank (Prim2SF x)) as [[a1 a2] a3], (rank (Prim2SF y)) as [[b1 b2] b3],
    (rank (Prim2SF z)) as [[c1 c2] c3].
  unfold lexlt in *. lia.
Qed.

Lemma ltb_number (x y : float) :
  (x <? y)%float = true -> is_nan x = false /\ is_nan y = false.
Proof.
  rewrite FloatAxioms.ltb_spec, !is_nan_number. apply SFltb_number.
Qed.

Lemma leb_infinity (x : float) : is_nan x = false -> (x <=? infinity)%float = true.
Proof.
  rewrite is_nan_number, FloatAxioms.leb_spec. intros Hx.
  apply SFleb_rank; [assumption | discriminate |].
  change (Prim2SF infinity) with (S754_infinity false).
  destruct (Prim2SF x) as [[]|[]| |[] m e]; simpl; try lia; by destruct Hx.
Qed.

Lemma ltb_irrefl (x : float) : (x <? x)%float = false.
Proof.
  rewrite FloatAxioms.ltb_spec. unfold SFltb.
  destruct (Prim2SF x) as [[]|[]| |[] m e]; simpl; try reflexivity.
  all: by rewrite Z.compare_refl, Pos.compare_cont_refl.
Qed.

(** *** Rounding *)

Lemma fexp_value (e : Z) : fexp prec emax e = Z.max (e - 53) (-1074).
Proof. reflexivity. Qed.

(** Rounding a positive mantissa of at least 53 bits, whatever the
    exponent: a normal number whose mantissa is the truncated one or its
    successor, or the infinity of the sign when the exponent is too
    large. *)
Lemma binary_round_aux_cases (s : bool) (mx ex : Z) (lx : location) (d : Z) :
  0 < mx -> Zdigits2 mx = d -> 53 <= d -> -1074 <= ex + d - 53 ->
  exists mz j,
    (j = 0 \/ j = 1) /\
    2 ^ 52 <= Z.pos mz < 2 ^ 53 /\
    mx / 2 ^ (d - 53) <= Z.pos mz * 2 ^ j <= mx / 2 ^ (d - 53) + 1 /\
    binary_round_aux prec emax s mx ex lx
    = if ex + (d - 53) + j <=? 971 then S754_finite s mz (ex + (d - 53) + j)
      else S754_infinity s.
Proof.
  intros Hmx Hd Hd53 Hlo.
  pose proof (Zdigits2_bounds mx d Hmx Hd) as [Hmlo Hmhi].
  set (n := d - 53) in *.
  assert (Hpow : 2 ^ d = 2 ^ n * 2 ^ 53).
  { rewrite <- Z.pow_add_r by lia. f_equal. lia. }
  assert (Hpow' : 2 ^ (d - 1) = 2 ^ n * 2 ^ 52).
  { rewrite <- Z.pow_add_r by lia. f_equal. lia. }
  assert (Hn : 0 < 2 ^ n) by (apply Z.pow_pos_nonneg; lia).
  assert (Hm' : 2 ^ 52 <= mx / 2 ^ n < 2 ^ 53).
  { split.
    - apply Z.div_le_lower_bound; lia.
    - apply Z.div_lt_upper_bound; lia. }
  destruct (shr_fexp_m mx ex lx n Hmx) as (mrs & Hshr & Hmrs).
  { rewrite Hd, fexp_normal by lia. lia. }
  { lia. }
  unfold binary_round_aux. rewrite Hshr.
  set (m'' := round_nearest_even (shr_m mrs) (loc_of_shr_record mrs)).
  assert (Hm'' : m'' = mx / 2 ^ n \/ m'' = mx / 2 ^ n + 1).
  { subst m''. rewrite <- Hmrs. apply round_nearest_even_cases. }
  destruct (Z.lt_ge_cases m'' (2 ^ 53)) as [Hsmall|Hbig].
  - assert (Hd'' : Zdigits2 m'' = 53) by (apply Zdigits2_unique; lia).
    destruct (shr_fexp_m m'' (ex + n) loc_Exact 0) as (mrs2 & Hshr2 & Hmrs2).
    { lia. }
    { rewrite Hd'', fexp_normal by lia. lia. }
    { lia. }
    rewrite Hshr2, Hmrs2. rewrite Z.div_1_r.
    destruct m'' as [|mz|mz] eqn:Hmz; [lia| |lia].
    exists mz, 0. split; [by left|]. split; [lia|]. split; [lia|].
    reflexivity.
  - assert (Heq : m'' = 2 ^ 53) by lia.
    assert (Hd'' : Zdigits2 m'' = 54) by (apply Zdigits2_unique; rewrite Heq; simpl; lia).
    destruct (shr_fexp_m m'' (ex + n) loc_Exact 1) as (mrs2 & Hshr2 & Hmrs2).
    { lia. }
    { rewrite Hd'', fexp_normal by lia. lia. }
    { lia. }
    rewrite Hshr2, Hmrs2, Heq.
    change (2 ^ 53 / 2 ^ 1) with (Z.pos (2 ^ 52)).
    exists (2 ^ 52)%positive, 1. split; [by right|].
    split; [simpl; lia|]. split; [|reflexivity].
    change (Z.pos (2 ^ 52) * 2 ^ 1) with (2 ^ 53). lia.
Qed.

Lemma Zdigits2_shift (m k : Z) :
  0 < m -> 0 <= k -> Zdigits2 (m * 2 ^ k) = Zdigits2 m + k.
Proof.
  intros Hm Hk.
  pose proof (Zdigits2_bounds m _ Hm eq_refl) as [Hlo Hhi].
  assert (Hpos : 0 < 2 ^ k) by (apply Z.pow_pos_nonneg; lia).
  assert (Hd : 0 < Zdigits2 m) by (destruct m; simpl; lia).
  apply Zdigits2_unique; [|nia].
  replace (Zdigits2 m + k - 1) with ((Zdigits2 m - 1) + k) by lia.
  rewrite !Z.pow_add_r by lia. nia.
Qed.

Lemma Zdigits2_mono (a b : Z) : 0 < a -> a <= b -> Zdigits2 a <= Zdigits2 b.
Proof.
  intros Ha Hab.
  pose proof (Zdigits2_bounds a _ Ha eq_refl) as [Hlo _].
  pose proof (Zdigits2_bounds b _ ltac:(lia) eq_refl) as [_ Hhi].
  assert (0 < Zdigits2 a) by (destruct a; simpl; lia).
  assert (0 < Zdigits2 b) by (destruct b; simpl; lia).
  assert (Zdigits2 a - 1 < Zdigits2 b) by (apply pow2_lt_inv; lia).
  lia.
Qed.

Lemma shl_align_value (mx : positive) (ex ez : Z) :
  ez <= ex ->
  exists mz, shl_align mx ex ez = (mz, ez) /\ Z.pos mz = Z.pos mx * 2 ^ (ex - ez).
Proof.
  intros Hle. unfold shl_align.
  destruct (ez - ex) as [|p|p] eqn:Hd; [|lia|].
  - exists mx. assert (ez = ex) by lia. subst ez.
    rewrite Z.sub_diag. split; [reflexivity | simpl; lia].
  - exists (Pos.iter xO mx p). split; [reflexivity|].
    rewrite Pos_iter_xO. f_equal. f_equal. lia.
Qed.

(** A mantissa of fewer than 53 bits is kept as it is, moved to the
    exponent of its size. *)
Lemma binary_round_small (s : bool) (p : positive) (ez d : Z) :
  Zdigits2 (Z.pos p) = d -> d < 53 -> -1074 <= ez <= 971 ->
  exists mz,
    Z.pos mz = Z.pos p * 2 ^ (ez - Z.max (d + ez - 53) (-1074)) /\
    binary_round prec emax s p ez
    = S754_finite s mz (Z.max (d + ez - 53) (-1074)).
Proof.
  intros Hd Hsmall Hez. unfold binary_round.
  change (Z.pos (digits2_pos p)) with (Zdigits2 (Z.pos p)).
  rewrite Hd, fexp_value.
  set (e' := Z.max (d + ez - 53) (-1074)).
  assert (He' : e' <= ez) by lia.
  destruct (shl_align_value p ez e' He') as (mz & -> & Hmz).
  exists mz. split; [exact Hmz|].
  assert (Hdz : Zdigits2 (Z.pos mz) = d + (ez - e')).
  { rewrite Hmz, Zdigits2_shift by lia. by rewrite Hd. }
  assert (Hshr : forall l, shr_fexp prec emax (Z.pos mz) e' l
                           = (shr_record_of_loc (Z.pos mz) l, e')).
  { intros l. unfold shr_fexp. rewrite Hdz, fexp_value.
    replace (Z.max (d + (ez - e') + e' - 53) (-1074) - e') with 0 by lia.
    reflexivity. }
  unfold binary_round_aux. rewrite Hshr.
  rewrite loc_of_shr_record_of_loc, shr_m_of_loc.
  cbn [round_nearest_even]. rewrite Hshr. cbn [shr_m shr_record_of_loc].
  destruct (Z.leb_spec e' (emax - prec)) as [_|Hbad];
    [reflexivity | unfold emax, prec in Hbad; lia].
Qed.

Lemma binary_round_large (s : bool) (p : positive) (ez d : Z) :
  Zdigits2 (Z.pos p) = d -> 53 <= d -> -1074 <= ez ->
  exists mz j,
    (j = 0 \/ j = 1) /\
    2 ^ 52 <= Z.pos mz < 2 ^ 53 /\
    Z.pos p / 2 ^ (d - 53) <= Z.pos mz * 2 ^ j <= Z.pos p / 2 ^ (d - 53) + 1 /\
    binary_round prec emax s p ez
    = if ez + (d - 53) + j <=? 971 then S754_finite s mz (ez + (d - 53) + j)
      else S754_infinity s.
Proof.
  intros Hd Hlarge Hez. unfold binary_round.
  change (Z.pos (digits2_pos p)) with (Zdigits2 (Z.pos p)).
  rewrite Hd, fexp_value.
  assert (Hal : shl_align p ez (Z.max (d + ez - 53) (-1074)) = (p, ez)).
  { unfold shl_align. destruct (Z.max (d + ez - 53) (-1074) - ez) eqn:Hz; try reflexivity.
    lia. }
  rewrite Hal. apply binary_round_aux_cases; [lia | exact Hd | exact Hlarge | lia].
Qed.

Lemma binary_round_opp (s : bool) (p : positive) (e : Z) :
  binary_round prec emax (negb s) p e = SFopp (binary_round prec emax s p e).
Proof.
  unfold binary_round. destruct (shl_align _ _ _) as [mz ez].
  unfold binary_round_aux. destruct (shr_fexp _ _ _ _ _) as [mrs' e'].
  destruct (shr_fexp _ _ _ _ _) as [mrs'' e''].
  destruct (shr_m mrs''); try reflexivity.
  by destruct (_ <=? _).
Qed.

Lemma opposite_involutive (a : Z * Z * Z) : opposite (opposite a) = a.
Proof. destruct a as [[a1 a2] a3]. simpl. by rewrite !Z.opp_involutive. Qed.

Lemma rank_opp (f : spec_float) : rank (SFopp f) = opposite (rank f).
Proof.
  destruct f as [[]|[]| |[] m e]; simpl; try reflexivity.
  by rewrite Z.opp_involutive.
Qed.

Lemma binary_normalize_opp (m e : Z) :
  rank (binary_normalize prec emax (- m) e false)
  = opposite (rank (binary_normalize prec emax m e false)).
Proof.
  destruct m as [|p|p]; cbn [Z.opp binary_normalize].
  - reflexivity.
  - by rewrite <- rank_opp, <- binary_round_opp.
  - rewrite (binary_round_opp false), rank_opp.
    by rewrite opposite_involutive.
Qed.

Lemma binary_round_number (s : bool) (p : positive) (ez : Z) :
  -1074 <= ez <= 971 -> number (binary_round prec emax s p ez).
Proof.
  intros Hez. destruct (Z.lt_ge_cases (Zdigits2 (Z.pos p)) 53) as [Hs|Hl].
  - destruct (binary_round_small s p ez _ eq_refl Hs Hez) as (mz & _ & ->). discriminate.
  - destruct (binary_round_large s p ez _ eq_refl) as (mz & j & _ & _ & _ & ->); [lia..|].
    by destruct (_ <=? _).
Qed.

Lemma binary_normalize_number (m ez : Z) :
  -1074 <= ez <= 971 -> number (binary_normalize prec emax m ez false).
Proof.
  intros Hez. destruct m; simpl; [discriminate | by apply binary_round_number..].
Qed.

(** What the validity of a finite number says of its mantissa. *)
Lemma valid_finite (s : bool) (m : positive) (e : Z) :
  valid_binary (S754_finite s m e) = true ->
  let dm := Zdigits2 (Z.pos m) in
  2 ^ (dm - 1) <= Z.pos m < 2 ^ dm /\
  0 < dm <= 53 /\ e = Z.max (dm + e - 53) (-1074) /\ e <= 971.
Proof.
  unfold SpecFloat.valid_binary, SpecFloat.bounded, SpecFloat.canonical_mantissa. rewrite fexp_value.
  intros H. apply andb_prop in H as [Hc Hb].
  apply Z.eqb_eq in Hc. apply Z.leb_le in Hb. unfold emax, prec in Hb.
  cbn zeta. change (Zdigits2 (Z.pos m)) with (Z.pos (digits2_pos m)).
  split; [apply digits2_pos_bounds|]. lia.
Qed.

Lemma div_pow2_lower (a m k : Z) : 0 <= k -> m * 2 ^ k <= a -> m <= a / 2 ^ k.
Proof.
  intros Hk H. assert (0 < 2 ^ k) by (apply Z.pow_pos_nonneg; lia).
  apply Z.div_le_lower_bound; lia.
Qed.

Lemma div_pow2_upper (a m k : Z) : 0 <= k -> a < m * 2 ^ k -> a / 2 ^ k < m.
Proof.
  intros Hk H. assert (0 < 2 ^ k) by (apply Z.pow_pos_nonneg; lia).
  apply Z.div_lt_upper_bound; lia.
Qed.

(** Rounding does not pass a number of the format: what lies above a
    valid number is rounded to it or above it. *)
Lemma round_above (sx : bool) (mx : positive) (ex ez M : Z) :
  valid_binary (S754_finite sx mx ex) = true ->
  -1074 <= ez <= ex ->
  cond_Zopp sx (Z.pos mx * 2 ^ (ex - ez)) < M ->
  lexle (rank (S754_finite sx mx ex)) (rank (binary_normalize prec emax M ez false)).
Proof.
  intros Hvalid Hez HM.
  destruct (valid_finite _ _ _ Hvalid) as ([Hmlo Hmhi] & Hdm & Hex & Hmax).
  set (dm := Zdigits2 (Z.pos mx)) in *.
  set (k := ex - ez) in *.
  assert (Hk : 0 <= k) by lia.
  assert (Hpk : 0 < 2 ^ k) by (apply Z.pow_pos_nonneg; lia).
  assert (HdA : Zdigits2 (Z.pos mx * 2 ^ k) = dm + k) by (apply Zdigits2_shift; lia).
  assert (H53 : 2 ^ dm <= 2 ^ 53) by (apply Z.pow_le_mono_r; lia).
  destruct sx; cbn [cond_Zopp rank] in *.
  - (* a negative number *)
    destruct M as [|p|p]; cbn [binary_normalize].
    + simpl. lia.
    + destruct (Z.lt_ge_cases (Zdigits2 (Z.pos p)) 53) as [Hs|Hl].
      * destruct (binary_round_small false p ez _ eq_refl Hs) as (mz & _ & ->); [lia|].
        simpl. lia.
      * destruct (binary_round_large false p ez _ eq_refl) as (mz & j & _ & _ & _ & ->);
          [lia..|].
        destruct (_ <=? _); simpl; lia.
    + assert (HP : Z.pos p < Z.pos mx * 2 ^ k) by lia.
      assert (Hd : Zdigits2 (Z.pos p) <= dm + k).
      { rewrite <- HdA. apply Zdigits2_mono; lia. }
      set (d := Zdigits2 (Z.pos p)) in *.
      destruct (Z.lt_ge_cases d 53) as [Hs|Hl].
      * destruct (binary_round_small true p ez d eq_refl Hs) as (mz & Hmz & ->); [lia|].
        cbn [rank]. unfold lexle.
        destruct (Z.eq_dec (Z.max (d + ez - 53) (-1074)) ex) as [He|He]; [|lia].
        rewrite He in Hmz. assert (Hk0 : k = 0) by lia.
        replace (ez - ex) with 0 in Hmz by lia. rewrite Hk0 in HP.
        change (2 ^ 0) with 1 in *. lia.
      * destruct (binary_round_large true p ez d eq_refl Hl)
          as (mz & j & Hj & Hmz & [_ Hup] & ->); [lia|].
        pose proof (Zdigits2_bounds (Z.pos p) d ltac:(lia) eq_refl) as [_ Hphi].
        assert (Hq : Z.pos p / 2 ^ (d - 53) < 2 ^ 53).
        { apply div_pow2_upper; [lia|]. rewrite <- Z.pow_add_r by lia.
          by replace (53 + (d - 53)) with d by lia. }
        destruct (Z.eq_dec (ez + (d - 53)) ex) as [He|He].
        -- assert (Hq' : Z.pos p / 2 ^ (d - 53) < Z.pos mx).
           { apply div_pow2_upper; [lia|]. by replace (d - 53) with k by lia. }
           assert (Hj0 : j = 0).
           { destruct Hj as [->| ->]; [reflexivity|]. change (2 ^ 1) with 2 in Hup. lia. }
           subst j. change (2 ^ 0) with 1 in Hup.
           replace (ez + (d - 53) + 0) with ex by lia.
           destruct (Z.leb_spec ex 971); [|lia]. cbn [rank]. unfold lexle. lia.
        -- assert (Hlt : ez + (d - 53) < ex) by lia.
           destruct (Z.leb_spec (ez + (d - 53) + j) 971); [|lia].
           cbn [rank]. unfold lexle.
           destruct (Z.eq_dec (ez + (d - 53) + j) ex) as [He'|He']; [|lia].
           assert (Hj1 : j = 1) by lia. subst j. change (2 ^ 1) with 2 in Hup.
           assert (Hdm53 : dm = 53) by lia.
           rewrite Hdm53 in Hmlo. change (53 - 1) with 52 in Hmlo. lia.
  - (* a positive number *)
    destruct M as [|p|p]; cbn [binary_normalize]; [lia| |lia].
    assert (Hd : dm + k <= Zdigits2 (Z.pos p)).
    { rewrite <- HdA. apply Zdigits2_mono; lia. }
    set (d := Zdigits2 (Z.pos p)) in *.
    destruct (Z.lt_ge_cases d 53) as [Hs|Hl].
    + destruct (binary_round_small false p ez d eq_refl Hs) as (mz & Hmz & ->); [lia|].
      cbn [rank]. unfold lexle.
      assert (Hk0 : k = 0) by lia.
      replace (Z.max (d + ez - 53) (-1074)) with ex in * by lia.
      replace (ez - ex) with 0 in Hmz by lia. rewrite Hk0 in HM.
      change (2 ^ 0) with 1 in *. lia.
    + destruct (binary_round_large false p ez d eq_refl Hl)
        as (mz & j & Hj & Hmz & [Hlow _] & ->); [lia|].
      destruct (Z.leb_spec (ez + (d - 53) + j) 971); [|simpl; lia].
      cbn [rank]. unfold lexle.
      destruct (Z.eq_dec (ez + (d - 53) + j) ex) as [He|He]; [|lia].
      assert (Hj0 : j = 0) by lia. subst j. change (2 ^ 0) with 1 in Hlow.
      assert (Hq : Z.pos mx <= Z.pos p / 2 ^ (d - 53)).
      { apply div_pow2_lower; [lia|]. replace (d - 53) with k by lia. lia. }
      lia.
Qed.

Lemma lexle_opposite (a b : Z * Z * Z) :
  lexle (opposite a) (opposite b) -> lexle b a.
Proof.
  destruct a as [[a1 a2] a3], b as [[b1 b2] b3]. unfold lexle, opposite. lia.
Qed.

Lemma lexle_not_lexlt (a b : Z * Z * Z) : lexle a b -> ~ lexlt b a.
Proof.
  destruct a as [[a1 a2] a3], b as [[b1 b2] b3]. unfold lexle, lexlt. lia.
Qed.

(** And what lies below a valid number is rounded to it or below it. *)
Lemma round_below (sx : bool) (mx : positive) (ex ez M : Z) :
  valid_binary (S754_finite sx mx ex) = true ->
  -1074 <= ez <= ex ->
  M < cond_Zopp sx (Z.pos mx * 2 ^ (ex - ez)) ->
  lexle (rank (binary_normalize prec emax M ez false)) (rank (S754_finite sx mx ex)).
Proof.
  intros Hvalid Hez HM. apply lexle_opposite.
  rewrite <- binary_normalize_opp, <- rank_opp. cbn [SFopp].
  apply round_above; [exact Hvalid | exact Hez |].
  destruct sx; cbn [negb cond_Zopp] in *; lia.
Qed.

Lemma one_spec : Prim2SF 1 = S754_finite false 4503599627370496 (-52).
Proof. reflexivity. Qed.

(** A number is at most itself plus one: the sum is rounded, but not
    below the number. *)
Lemma leb_add_one (x : float) :
  is_nan x = false -> (x <=? x + 1)%float = true.
Proof.
  intros Hx. apply is_nan_number in Hx.
  rewrite FloatAxioms.leb_spec, FloatAxioms.add_spec, one_spec.
  pose proof (FloatAxioms.Prim2SF_valid x) as Hvalid.
  destruct (Prim2SF x) as [[]|[]| |sx mx ex]; try reflexivity; [by destruct Hx|].
  destruct (valid_finite _ _ _ Hvalid) as (_ & _ & Hex & Hmax).
  unfold SF64add, SFadd. cbv zeta.
  set (ez := Z.min ex (-52)).
  assert (Hez : -1074 <= ez <= ex) by lia.
  destruct (shl_align_value mx ex ez) as (ax & -> & Hax); [lia|].
  destruct (shl_align_value 4503599627370496 (-52) ez) as (a1 & -> & _); [lia|].
  cbn [fst].
  apply SFleb_rank; [discriminate | apply binary_normalize_number; lia |].
  apply round_above; [exact Hvalid | exact Hez |].
  rewrite <- Hax. cbn [cond_Zopp]. lia.
Qed.

(** A number is not below itself minus one. *)
Lemma ltb_sub_one (x : float) : (x <? x - 1)%float = false.
Proof.
  rewrite FloatAxioms.ltb_spec, FloatAxioms.sub_spec, one_spec.
  pose proof (FloatAxioms.Prim2SF_valid x) as Hvalid.
  destruct (Prim2SF x) as [[]|[]| |sx mx ex]; try reflexivity.
  destruct (valid_finite _ _ _ Hvalid) as (_ & _ & Hex & Hmax).
  unfold SF64sub, SFsub. cbv zeta.
  set (ez := Z.min ex (-52)).
  assert (Hez : -1074 <= ez <= ex) by lia.
  destruct (shl_align_value mx ex ez) as (ax & -> & Hax); [lia|].
  destruct (shl_align_value 4503599627370496 (-52) ez) as (a1 & -> & _); [lia|].
  cbn [fst].
  match goal with |- SFltb ?X ?R = false => destruct (SFltb X R) eqn:Hlt end;
    [|reflexivity].
  apply SFltb_rank in Hlt; [|discriminate | apply binary_normalize_number; lia].
  exfalso. revert Hlt. apply lexle_not_lexlt.
  apply round_below; [exact Hvalid | exact Hez |].
  rewrite <- Hax. cbn [cond_Zopp]. lia.
Qed.

End NumberLine.

(** ** Start selection *)

Section StartSelection.

Context {rand : RandSource}.

(** Every collected candidate is near the running best. *)
Lemma startStep_near (p : mixPlanner) (acc : float * list nat) (idx : nat)
    (candidate : Track) :
  remaining p !! idx = Some candidate ->
  (forall i, In i (snd acc) ->
             exists c, remaining p !! i = Some c /\ nearBest p (fst acc) c) ->
  forall i, In i (snd (startStep p acc (idx, candidate))) ->
            exists c, remaining p !! i = Some c /\
                      nearBest p (fst (startStep p acc (idx, candidate))) c.
Proof.
  destruct acc as [best candidates]. intros Hidx Hacc i. unfold startStep.
  destruct (startScore p candidate <? best - startSelectionTolerance)%float eqn:Hlt;
    cbn [fst snd].
  - intros [<-|[]]. exists candidate. split; [exact Hidx | by left].
  - destruct (startScore p candidate <=? best + startSelectionTolerance)%float eqn:Hle;
      cbn [fst snd]; [|apply Hacc].
    intros Hin. apply in_app_or in Hin as [Hin|[<-|[]]]; [by apply Hacc|].
    exists candidate. split; [exact Hidx | right; auto].
Qed.

Lemma startScan_near (p : mixPlanner) :
  forall i, In i (snd (startScan p)) ->
            exists c, remaining p !! i = Some c /\ nearBest p (fst (startScan p)) c.
Proof.
  unfold startScan.
  apply (fold_left_invariant (startStep p)
           (fun acc => forall i, In i (snd acc) ->
                                 exists c, remaining p !! i = Some c /\
                                           nearBest p (fst acc) c)).
  - intros i [].
  - intros acc [idx candidate] Hin Hacc.
    apply startStep_near; [by apply In_indexed | exact Hacc].
Qed.

(** The running best of the pass is a start score of the pool. *)
Lemma startStep_bestOfPool (p : mixPlanner) (acc : float * list nat) (idx : nat)
    (candidate : Track) :
  In candidate (remaining p) ->
  bestOfPool p acc -> bestOfPool p (startStep p acc (idx, candidate)).
Proof.
  destruct acc as [best candidates]. unfold startStep, bestOfPool. intros Hin Hacc.
  destruct (_ <? _)%float; cbn [fst]; [right; eauto|].
  by destruct (_ <=? _)%float.
Qed.

(** When a candidate of least score is visited it joins the list or
    restarts it, and from then on it is kept. *)
Lemma startStep_visit (p : mixPlanner) (acc : float * list nat) (idx : nat)
    (candidate : Track) :
  scoresAreNumbers p ->
  In candidate (remaining p) ->
  bestOfPool p acc ->
  keptLeast p (idx, candidate) (startStep p acc (idx, candidate)).
Proof.
  destruct acc as [best candidates]. intros Hnum Hin Hbest Hleast.
  pose proof (Hnum _ Hin) as Hc. cbn [fst snd] in *.
  unfold startStep.
  destruct (startScore p candidate <? best - startSelectionTolerance)%float eqn:Hlt;
    cbn [fst snd].
  - split; [by left|]. intros s Hs.
    apply (NumberLine.ltb_leb_trans _ _ _ Hs).
    destruct (NumberLine.ltb_number _ _ Hs) as [_ Hw].
    apply NumberLine.not_ltb_leb; [exact Hw | exact Hc | apply NumberLine.ltb_sub_one].
  - assert (Hle : (startScore p candidate <=? best + startSelectionTolerance)%float = true).
    { destruct Hbest as [Hb|(c0 & Hc0 & Hb)]; cbn [fst] in Hb; subst best.
      - by apply NumberLine.leb_infinity.
      - apply NumberLine.leb_trans with (y := startScore p c0).
        + apply NumberLine.not_ltb_leb; [exact Hc | by apply Hnum | by apply Hleast].
        + apply NumberLine.leb_add_one. by apply Hnum. }
    rewrite Hle. cbn [fst snd]. split; [apply in_or_app; right; by left|].
    intros s Hs. apply (NumberLine.ltb_leb_trans _ _ _ Hs).
    destruct (NumberLine.ltb_number _ _ Hs) as [_ Hw].
    by apply NumberLine.not_ltb_leb.
Qed.

Lemma startStep_keep (p : mixPlanner) (acc : float * list nat) (ic : nat * Track)
    (idx : nat) (candidate : Track) :
  In candidate (remaining p) ->
  keptLeast p ic acc -> keptLeast p ic (startStep p acc (idx, candidate)).
Proof.
  destruct acc as [best candidates]. intros Hin Hacc Hleast.
  destruct (Hacc Hleast) as [Hcol Hbelow]. cbn [fst snd] in *.
  unfold startStep.
  destruct (startScore p candidate <? best - startSelectionTolerance)%float eqn:Hlt;
    cbn [fst snd].
  - apply Hbelow in Hlt. rewrite (Hleast _ Hin) in Hlt. discriminate.
  - destruct (_ <=? _)%float; cbn [fst snd]; [|by split].
    split; [apply in_or_app; by left | exact Hbelow].
Qed.

Lemma startScan_bestOfPool (p : mixPlanner) : bestOfPool p (startScan p).
Proof.
  unfold startScan. apply fold_left_invariant.
  - by left.
  - intros acc [idx candidate] Hin Hacc. apply startStep_bestOfPool; [|exact Hacc].
    apply In_indexed in Hin. apply list_elem_of_In. by apply list_elem_of_lookup_2 in Hin.
Qed.

(** The candidates of least start score are always collected. *)
Lemma startScan_least (p : mixPlanner) (i : nat) (c : Track) :
  scoresAreNumbers p ->
  remaining p !! i = Some c ->
  leastScore p c ->
  In i (snd (startScan p)).
Proof.
  intros Hnum Hi Hleast.
  assert (Hpool : forall idx candidate,
             In (idx, candidate) (indexed (remaining p)) -> In candidate (remaining p)).
  { intros idx candidate Hin. apply In_indexed in Hin.
    apply list_elem_of_In. by apply list_elem_of_lookup_2 in Hin. }
  unfold startScan.
  refine (proj1 (fold_left_visited (startStep p) (bestOfPool p) (keptLeast p)
                   (indexed (remaining p)) (math_Inf 1, []) _ _ _ _ (i, c) _ Hleast)).
  - by left.
  - intros acc [idx candidate] Hin Hacc. apply startStep_bestOfPool; eauto.
  - intros acc [idx candidate] Hin Hacc. apply startStep_visit; eauto.
  - intros acc ic [idx candidate] Hin _ Hacc. apply startStep_keep; eauto.
  - by apply In_indexed.
Qed.

Lemma minStartScore_fold (p : mixPlanner) (pool : list Track) :
  (forall c, In c pool -> is_nan (startScore p c) = false) ->
  forall (scanned : list Track) (m : float),
    minOfPool p scanned m ->
    minOfPool p (scanned ++ pool)
      (fold_left (fun m candidate =>
                    if (startScore p candidate <? m)%float
                    then startScore p candidate else m) pool m).
Proof.
  induction pool as [|c pool IH]; intros Hnum scanned m Hm; simpl.
  - by rewrite app_nil_r.
  - replace (scanned ++ c :: pool) with ((scanned ++ [c]) ++ pool)
      by (by rewrite <- app_assoc).
    apply IH; [intros c' Hc'; apply Hnum; by right|].
    destruct Hm as [Hm Hleast].
    destruct (startScore p c <? m)%float eqn:Hlt; split.
    + right. exists c. split; [apply in_or_app; right; by left | reflexivity].
    + intros c' Hc'. apply in_app_or in Hc' as [Hc'|[<-|[]]].
      * destruct (startScore p c' <? startScore p c)%float eqn:Hlt'; [|reflexivity].
        rewrite <- (Hleast c' Hc'). symmetry.
        by apply NumberLine.ltb_trans with (y := startScore p c).
      * destruct (startScore p c <? startScore p c)%float eqn:Hlt'; [|reflexivity].
        pose proof (NumberLine.ltb_irrefl (startScore p c)). congruence.
    + destruct Hm as [->|(c0 & Hc0 & ->)]; [by left|].
      right. exists c0. split; [apply in_or_app; by left | reflexivity].
    + intros c' Hc'. apply in_app_or in Hc' as [Hc'|[<-|[]]]; [by apply Hleast | exact Hlt].
Qed.

Lemma minStartScore_least (p : mixPlanner) :
  scoresAreNumbers p -> minOfPool p (remaining p) (minStartScore p).
Proof.
  intros Hnum. unfold minStartScore.
  apply (minStartScore_fold p (remaining p) Hnum [] infinity).
  split; [by left | intros c []].
Qed.

Lemma atMin_leastScore (p : mixPlanner) (c : Track) :
  scoresAreNumbers p -> In c (remaining p) ->
  (minStartScore p <? startScore p c)%float = false ->
  leastScore p c.
Proof.
  intros Hnum Hc Hmin c' Hc'.
  destruct (minStartScore_least p Hnum) as [Hm Hleast].
  destruct (startScore p c' <? startScore p c)%float eqn:Hlt; [|reflexivity].
  rewrite <- (Hleast c' Hc'). symmetry.
  apply NumberLine.ltb_leb_trans with (y := startScore p c); [exact Hlt|].
  apply NumberLine.not_ltb_leb; [by apply Hnum | | exact Hmin].
  destruct Hm as [->|(c0 & Hc0 & ->)]; [reflexivity | by apply Hnum].
Qed.

Lemma minStartScore_attained (p : mixPlanner) :
  scoresAreNumbers p -> remaining p <> [] ->
  exists i c, remaining p !! i = Some c /\
              (minStartScore p <? startScore p c)%float = false.
Proof.
  intros Hnum Hpool.
  destruct (minStartScore_least p Hnum) as [[Hm|(c & Hc & Hm)] Hleast].
  - destruct (remaining p) as [|c pool] eqn:Hrem; [done|].
    exists 0%nat, c. split; [reflexivity|].
    destruct (minStartScore p <? startScore p c)%float eqn:Hlt; [|reflexivity].
    rewrite Hm in Hlt.
    assert (Hle : (startScore p c <=? infinity)%float = true)
      by (apply NumberLine.leb_infinity, Hnum; rewrite Hrem; by left).
    pose proof (NumberLine.ltb_leb_trans _ _ _ Hlt Hle) as Habs.
    pose proof (NumberLine.ltb_irrefl infinity). congruence.
  - apply list_elem_of_In, list_elem_of_lookup in Hc as [i Hi].
    exists i, c. split; [exact Hi|]. rewrite Hm. apply NumberLine.ltb_irrefl.
Qed.

(** C8, amended.  For a non-empty pool whose start scores are numbers,
    the start index is drawn, with the generator of the run, from exactly
    the list that one pass over the pool collects against a running best
    score: a score more than 1.0 below the running best replaces it and
    restarts the list, a score at most 1.0 above it joins the list.  The
    candidates of least start score are always in the list, which is
    therefore not empty; the final running best is a start score not more
    than 1.0 above the least one, and every collected candidate is within
    1.0 score units of it.  (The list need not be the set of the
    candidates within 1.0 of the least score.) *)
Theorem chooseStartIndex_collected (p : mixPlanner) :
  remaining p <> [] ->
  scoresAreNumbers p ->
  (forall c, In c (remaining p) ->
             (startScore p c <? minStartScore p)%float = false) /\
  (fst (startScan p) <? minStartScore p)%float = false /\
  (minStartScore p <? fst (startScan p) - startSelectionTolerance)%float = false /\
  (forall i c, remaining p !! i = Some c ->
               (minStartScore p <? startScore p c)%float = false ->
               In i (snd (startScan p))) /\
  (forall i, In i (snd (startScan p)) ->
             exists c, remaining p !! i = Some c /\ nearBest p (fst (startScan p)) c) /\
  snd (startScan p) <> [] /\
  (fst (Intn (rng p) (length (snd (startScan p)))) < length (snd (startScan p)))%nat /\
  snd (startScan p) !! fst (Intn (rng p) (length (snd (startScan p))))
  = Some (fst (chooseStartIndex p)) /\
  exists start, remaining p !! fst (chooseStartIndex p) = Some start.
Proof.
  intros Hpool Hnum.
  destruct (minStartScore_least p Hnum) as [Hmin Hleast].
  assert (Hminnum : is_nan (minStartScore p) = false).
  { destruct Hmin as [->|(c0 & Hc0 & ->)]; [reflexivity | by apply Hnum]. }
  assert (Hcollect : forall i c,
             remaining p !! i = Some c ->
             (minStartScore p <? startScore p c)%float = false ->
             In i (snd (startScan p))).
  { intros i c Hi Hc. apply (startScan_least p i c Hnum Hi).
    apply atMin_leastScore; [exact Hnum | | exact Hc].
    apply list_elem_of_In. by apply list_elem_of_lookup_2 in Hi. }
  destruct (minStartScore_attained p Hnum Hpool) as (i0 & c0 & Hi0 & Hc0).
  pose proof (Hcollect i0 c0 Hi0 Hc0) as Hin0.
  assert (Hne : snd (startScan p) <> []).
  { intros Hnil. rewrite Hnil in Hin0. destruct Hin0. }
  split; [exact Hleast|]. split; [|split]; [| |split; [exact Hcollect|]].
  - destruct (startScan_bestOfPool p) as [->|(c & Hc & ->)]; [|by apply Hleast].
    destruct (infinity <? minStartScore p)%float eqn:Hlt; [|reflexivity].
    pose proof (NumberLine.leb_infinity _ Hminnum) as Hle.
    pose proof (NumberLine.ltb_leb_trans _ _ _ Hlt Hle) as Habs.
    pose proof (NumberLine.ltb_irrefl infinity). congruence.
  - destruct (minStartScore p <? fst (startScan p) - startSelectionTolerance)%float
      eqn:Hlt; [|reflexivity].
    assert (Hbelow : (startScore p c0 <? fst (startScan p) - startSelectionTolerance)%float
                     = true).
    { apply NumberLine.leb_ltb_trans with (y := minStartScore p); [|exact Hlt].
      apply NumberLine.not_ltb_leb; [|exact Hminnum | exact Hc0].
      apply Hnum, list_elem_of_In. by apply list_elem_of_lookup_2 in Hi0. }
    destruct (startScan_near p i0 Hin0) as (c & Hc & Hnear).
    assert (c = c0) by congruence. subst c.
    destruct Hnear as [Heq|[_ Hnot]]; [|congruence].
    rewrite Heq in Hbelow.
    pose proof (NumberLine.ltb_sub_one (fst (startScan p))) as Hw.
    unfold startSelectionTolerance in Hbelow. congruence.
  - split; [apply startScan_near|]. split; [exact Hne|].
    destruct (chooseStartIndex_pick p) as [[Hnil _]|(_ & Hlt & Hpick)]; [done|].
    split; [exact Hlt|]. split; [exact Hpick|].
    by apply chooseStartIndex_valid.
Qed.

End StartSelection.

Example start_scores :
  map (startScore StartFixture.planner) StartFixture.tracks
  = [(-5.6)%float; (-4.6)%float; (-6.0)%float] /\
  minStartScore StartFixture.planner = (-6.0)%float.
Proof. split; vm_compute; reflexivity. Qed.

(** As stated, C8 fails: the pass collects all three tracks, the second
    of them 1.4 score units above the least score, and the generator
    picks it; the tracks within 1.0 of the least score are the first and
    the third only. *)
Lemma chooseStartIndex_outside_tolerance :
  StartFixture.tracks <> [] /\
  snd (startScan StartFixture.planner) = [0; 1; 2]%nat /\
  withinTolerance StartFixture.planner = [0; 2]%nat /\
  fst (chooseStartIndex StartFixture.planner) = 1%nat /\
  ~ In (fst (chooseStartIndex StartFixture.planner))
       (withinTolerance StartFixture.planner).
Proof.
  assert (Hw : withinTolerance StartFixture.planner = [0; 2]%nat)
    by (vm_compute; reflexivity).
  assert (Hc : fst (chooseStartIndex StartFixture.planner) = 1%nat)
    by (vm_compute; reflexivity).
  split; [discriminate|]. split; [vm_compute; reflexivity|].
  split; [exact Hw|]. split; [exact Hc|].
  rewrite Hw, Hc. simpl. lia.
Qed.

Lemma chooseStartIndex_collected_witness :
  remaining StartFixture.planner <> [] /\
  scoresAreNumbers StartFixture.planner /\
  (forall c, In c (remaining StartFixture.planner) ->
             (startScore StartFixture.planner c
              <? minStartScore StartFixture.planner)%float = false) /\
  (fst (startScan StartFixture.planner)
   <? minStartScore StartFixture.planner)%float = false /\
  (minStartScore StartFixture.planner
   <? fst (startScan StartFixture.planner) - startSelectionTolerance)%float = false /\
  (forall i c, remaining StartFixture.planner !! i = Some c ->
               (minStartScore StartFixture.planner
                <? startScore StartFixture.planner c)%float = false ->
               In i (snd (startScan StartFixture.planner))) /\
  (forall i, In i (snd (startScan StartFixture.planner)) ->
             exists c, remaining StartFixture.planner !! i = Some c /\
                       nearBest StartFixture.planner
                                (fst (startScan StartFixture.planner)) c) /\
  snd (startScan StartFixture.planner) <> [] /\
  (fst (Intn (rng StartFixture.planner)
             (length (snd (startScan StartFixture.planner))))
   < length (snd (startScan StartFixture.planner)))%nat /\
  snd (startScan StartFixture.planner)
    !! fst (Intn (rng StartFixture.planner)
                 (length (snd (startScan StartFixture.planner))))
  = Some (fst (chooseStartIndex StartFixture.planner)) /\
  exists start,
    remaining StartFixture.planner !! fst (chooseStartIndex StartFixture.planner)
    = Some start.
Proof.
  assert (Hpool : remaining StartFixture.planner <> []) by discriminate.
  assert (Hnum : scoresAreNumbers StartFixture.planner).
  { intros c [<-|[<-|[<-|[]]]]; vm_compute; reflexivity. }
  split; [exact Hpool|]. split; [exact Hnum|].
  exact (chooseStartIndex_collected StartFixture.planner Hpool Hnum).
Defined.

(** ** The desired cycle length *)

Example roundHalfAway_halves :
  map (fun n => roundHalfAway n 8) [11; 12; 19; 20] = [1; 2; 2; 3].
Proof. reflexivity. Qed.

Lemma cycleLengthSpec_large (n : Z) : 69 <= n -> cycleLengthSpec n = 8.
Proof.
  intros Hn. unfold cycleLengthSpec.
  destruct (Z.eqb_spec n 0); [lia|].
  destruct (Z.leb_spec n 6); [lia|].
  unfold roundHalfAway.
  pose proof (Z.mul_div_le (2 * n + 8) (2 * 8) eq_refl) as H1.
  pose proof (Z.mul_succ_div_gt (2 * n + 8) (2 * 8) eq_refl) as H2.
  set (c := (2 * n + 8) / (2 * 8)) in *.
  assert (Hc : 9 <= c) by lia.
  replace (Z.max 1 c) with c by lia.
  assert (Hq : (2 * n + c) / (2 * c) = 8).
  { symmetry. apply Z.div_unique with (r := 2 * n + c - 2 * c * 8); lia. }
  rewrite Hq. reflexivity.
Qed.

Section LargeCount.

Import Binary64.
Local Open Scope R_scope.

Lemma eight_value :
  Prim2SF (float_of_int 8) = S754_finite false 4503599627370496 (-49) /\
  valueOf 4503599627370496 (-49) = 8.
Proof.
  assert (H : Prim2SF (float_of_int 8) = S754_finite false 4503599627370496 (-49))
    by (vm_compute; reflexivity).
  split; [exact H|].
  destruct (float_of_int_value 8) as (m & e & Hres & _ & _ & _ & Hval & _); [lia|].
  rewrite H in Hres. inversion Hres; subst. apply Hval. lia.
Qed.

Lemma inInt64_small (z : Z) : (0 <= z < 2 ^ 62)%Z -> inInt64 z = true.
Proof.
  intros Hz. unfold inInt64, minInt64, maxInt64.
  apply andb_true_iff. split; apply Z.leb_le; lia.
Qed.

(** The estimated number of cycles, for a count of 69 or more: an integer
    of at least 9 within one half of the quotient by 8. *)
Lemma estimatedCycles_value (q1 : float) (m1 : positive) (e1 : Z) :
  Prim2SF q1 = S754_finite false m1 e1 ->
  (2 ^ 52 <= Z.pos m1 < 2 ^ 53)%Z ->
  (e1 <= 9)%Z ->
  43 / 5 <= valueOf m1 e1 ->
  exists c : Z,
    int_of_float (math_Max 1 (math_Round q1)) = c /\
    (9 <= c < 2 ^ 62)%Z /\
    IZR c - / 2 <= valueOf m1 e1 <= IZR c + / 2.
Proof.
  intros Hq1 Hm1 He1 Hlow.
  destruct (Z.lt_ge_cases e1 0) as [Hneg|Hpos].
  - destruct (math_Round_value q1 m1 e1 Hq1 Hneg) as (n1 & Hround & Hn1 & Hval).
    assert (H9 : (9 <= n1)%Z).
    { assert (IZR 8 < IZR n1) by lra. apply lt_IZR in H. lia. }
    assert (Hn1' : (n1 <= 2 ^ 52)%Z).
    { assert (Z.pos m1 / 2 < 2 ^ 52)%Z by (apply Z.div_lt_upper_bound; lia). lia. }
    destruct (Z.eqb_spec n1 0) as [|_]; [lia|].
    destruct (float_of_int_value n1) as (mc & ec & Hres & Hmc & Hec & Hexact & _ & _);
      [lia|].
    destruct Hexact as [Hec0 Hmc']; [lia|].
    exists n1. rewrite Hround.
    rewrite (math_Max_one _ mc ec Hres) by lia.
    rewrite (int_of_float_value _ mc ec Hres). cbv zeta.
    assert (Hv : (if (0 <=? ec)%Z then (Z.pos mc * 2 ^ ec)%Z
                  else (Z.pos mc / 2 ^ (- ec))%Z) = n1).
    { destruct (Z.leb_spec 0 ec).
      - assert (ec = 0%Z) by lia. subst ec. simpl in Hmc'. simpl (2 ^ 0)%Z. lia.
      - rewrite Hmc'. apply Z.div_mul.
        pose proof (Z.pow_pos_nonneg 2 (- ec)). lia. }
    rewrite Hv, inInt64_small by lia.
    split; [reflexivity|]. split; [lia | lra].
  - exists (Z.pos m1 * 2 ^ e1)%Z.
    rewrite (math_Round_integral _ m1 e1 Hq1 Hpos).
    rewrite (math_Max_one _ m1 e1 Hq1) by lia.
    rewrite (int_of_float_value _ m1 e1 Hq1). cbv zeta.
    destruct (Z.leb_spec 0 e1) as [_|]; [|lia].
    assert (Hp : (0 < 2 ^ e1 <= 2 ^ 9)%Z).
    { split; [apply Z.pow_pos_nonneg; lia | apply Z.pow_le_mono_r; lia]. }
    assert (Hc : (0 <= Z.pos m1 * 2 ^ e1 < 2 ^ 62)%Z).
    { change (2 ^ 62)%Z with (2 ^ 53 * 2 ^ 9)%Z. nia. }
    rewrite inInt64_small by exact Hc.
    assert (Hval : IZR (Z.pos m1 * 2 ^ e1) = valueOf m1 e1).
    { unfold valueOf. by rewrite mult_IZR, pow2R_IZR. }
    split; [reflexivity|]. split; [|rewrite Hval; lra].
    split; [|lia].
    assert (IZR 8 < IZR (Z.pos m1 * 2 ^ e1)) by (rewrite Hval; lra).
    apply lt_IZR in H. lia.
Qed.

Lemma idealCycleLength_large (n : Z) :
  (69 <= n < 2 ^ 63)%Z -> idealCycleLength n = 8%Z.
Proof.
  intros Hn. unfold idealCycleLength, cycleMinTracks, cycleMaxTracks, cycleIdealTracks.
  destruct (Z.leb_spec n 6) as [|_]; [lia|].
  (* a = float64(total) *)
  destruct (float_of_int_value n) as (ma & ea & Ha & Hma & Hea & _ & _ & HA); [lia|].
  pose proof (valueOf_pos ma ea) as HApos.
  assert (Hn69 : 69 <= IZR n) by (apply IZR_le; lia).
  (* q1 = a / 8 *)
  destruct eight_value as [H8 H8val].
  destruct (div_value (float_of_int n) (float_of_int 8) ma 4503599627370496 ea (-49) Ha H8)
    as (m1 & e1 & Hq1 & Hm1 & He1 & HQ1); [exact Hma | simpl; lia | lia |].
  rewrite H8val in HQ1.
  pose proof (valueOf_pos m1 e1) as HV1pos.
  unfold eps in HA, HQ1.
  (* estimatedCycles *)
  destruct (estimatedCycles_value _ m1 e1 Hq1 Hm1) as (c & Hc & Hc9 & HC1);
    [lia | lra |].
  rewrite Hc.
  assert (Hc9' : 9 <= IZR c) by (apply IZR_le; lia).
  (* float64(estimatedCycles) *)
  destruct (float_of_int_value c) as (mc & ec & Hfc & Hmc & Hec & _ & _ & HC2);
    [lia|].
  pose proof (valueOf_pos mc ec) as HCpos.
  unfold eps in HC2.
  (* q2 = a / float64(estimatedCycles) *)
  destruct (div_value (float_of_int n) (float_of_int c) ma mc ea ec Ha Hfc)
    as (m2 & e2 & Hq2 & Hm2 & He2 & HQ2); [exact Hma | exact Hmc | lia |].
  pose proof (valueOf_pos m2 e2) as HV2pos.
  unfold eps in HQ2.
  set (A := valueOf ma ea) in *. set (V1 := valueOf m1 e1) in *.
  set (C := valueOf mc ec) in *. set (V2 := valueOf m2 e2) in *.
  assert (Hlo : 15 / 2 <= V2).
  { destruct (Rle_lt_dec (15 / 2) V2) as [|Hlt]; [assumption|]. exfalso.
    assert (V2 * C <= 15 / 2 * C) by (apply Rmult_le_compat_r; lra).
    lra. }
  assert (Hhi : V2 < 17 / 2).
  { destruct (Rlt_le_dec V2 (17 / 2)) as [|Hge]; [assumption|]. exfalso.
    assert (17 / 2 * C <= V2 * C) by (apply Rmult_le_compat_r; lra).
    lra. }
  assert (He2neg : (e2 < 0)%Z).
  { destruct (Z.lt_ge_cases e2 0) as [|Hge]; [assumption|]. exfalso.
    pose proof (pow2R_ge_1 e2 Hge) as Hp.
    assert (Hm2' : 4503599627370496 <= IZR (Z.pos m2)) by (apply IZR_le; lia).
    unfold V2, valueOf in Hhi. nra. }
  destruct (math_Round_value _ m2 e2 Hq2 He2neg) as (n2 & Hround & _ & Hval).
  fold V2 in Hval.
  assert (Hn2 : n2 = 8%Z).
  { assert (H7 : IZR 7 < IZR n2) by lra. assert (H9 : IZR n2 < IZR 9) by lra.
    apply lt_IZR in H7, H9. lia. }
  subst n2. rewrite Hround. cbn [Z.eqb].
  replace (int_of_float (float_of_int 8)) with 8%Z by (vm_compute; reflexivity).
  reflexivity.
Qed.

End LargeCount.

Lemma idealCycleLength_small :
  forallb (fun k => idealCycleLength (Z.of_nat k) =? cycleLengthSpec (Z.of_nat k))
          (seq 0 69) = true.
Proof. vm_compute. reflexivity. Qed.

(** C6.  For every track count (a non-negative [int]): 6 for 0, the count
    itself from 1 to 6, and otherwise round(n / max(1, round(n / 8)))
    clamped to [6, 10], the roundings being to the nearest integer with
    halves away from zero. *)
Theorem idealCycleLength_spec (n : Z) :
  0 <= n < 2 ^ 63 ->
  idealCycleLength n = cycleLengthSpec n.
Proof.
  intros Hn. destruct (Z.lt_ge_cases n 69) as [Hsmall|Hlarge].
  - pose proof idealCycleLength_small as Hall.
    rewrite forallb_forall in Hall.
    specialize (Hall (Z.to_nat n)).
    rewrite Z2Nat.id in Hall by lia.
    apply Z.eqb_eq, Hall, in_seq. lia.
  - rewrite idealCycleLength_large, cycleLengthSpec_large by lia. reflexivity.
Qed.

Lemma idealCycleLength_spec_witness :
  0 <= 100 < 2 ^ 63 /\ idealCycleLength 100 = cycleLengthSpec 100.
Proof.
  assert (H : 0 <= 100 < 2 ^ 63) by (split; [discriminate | reflexivity]).
  split; [exact H | exact (idealCycleLength_spec 100 H)].
Defined.

(** * Further properties of the code *)

(** ** Keys and their labels *)

Module KeyStringProps.

Import KeyLabels ParseKeyProps.

Lemma acceptedNumerals_range (numeral : string) (n : Z) :
  In (numeral, n) acceptedNumerals -> 1 <= n <= 12.
Proof.
  intros Hin.
  assert (H : Forall (fun p : string * Z => 1 <= p.2 <= 12) acceptedNumerals)
    by (repeat constructor; simpl; lia).
  rewrite Forall_forall in H. apply (H _ (proj2 (list_elem_of_In _ _) Hin)).
Qed.

(** Whatever the label, a key that is returned lies on the wheel. *)
Lemma parseCleaned_wheel (cleaned : string) (k : Key) :
  parseCleaned cleaned = inr k -> wheelKey k.
Proof.
  intros H. apply parseCleaned_accepts in H.
  destruct H as (numeral & Hin & Hmode & _).
  split; [exact (acceptedNumerals_range _ _ Hin) | exact Hmode].
Qed.

Lemma wheelKey_cases (k : Key) :
  wheelKey k ->
  In k (flat_map (fun n => [mkKey n ModeA; mkKey n ModeB])
                 [1; 2; 3; 4; 5; 6; 7; 8; 9; 10; 11; 12]).
Proof.
  destruct k as [n m]. intros [Hn Hm]. simpl in Hn, Hm.
  assert (Hc : n = 1 \/ n = 2 \/ n = 3 \/ n = 4 \/ n = 5 \/ n = 6 \/ n = 7 \/ n = 8 \/
               n = 9 \/ n = 10 \/ n = 11 \/ n = 12) by lia.
  destruct Hm as [-> | ->];
    repeat (destruct Hc as [-> | Hc]; [simpl; tauto|]); subst; simpl; tauto.
Qed.

End KeyStringProps.

Section KeyRoundTrip.

Import KeyLabels ParseKeyProps KeyStringProps.

Variable unicodeMapToUpper : string -> string.
Variable unicodeTrimFunc : string -> string.
Variable unicodeTrimRightFunc : string -> string.

(** The printed form of each of the 24 keys of the wheel is its canonical
    label, and parses back to the key. *)
Lemma Key_String_wheel (k : Key) :
  wheelKey k ->
  ParseKey unicodeMapToUpper unicodeTrimFunc unicodeTrimRightFunc (Key_String k) = inr k /\
  labelOf canonicalNumerals (Key_String k) k.
Proof.
  intros Hk. apply wheelKey_cases in Hk. simpl in Hk.
  repeat (destruct Hk as [<- | Hk];
          [match goal with
           | |- _ /\ labelOf _ (Key_String ?key) _ =>
               split; [vm_compute; reflexivity|];
               exists (Itoa (Number key)); vm_compute;
               split; [repeat (first [left; reflexivity | right])|];
               split; [first [left; reflexivity | right; reflexivity] | reflexivity]
           end|]).
  destruct Hk.
Qed.

(** X1.  [ParseKey] reads the printed form [k.String()] of a key back to
    the same key exactly when the key lies on the wheel: its number is
    between 1 and 12 and its mode is A or B.  For every other key (the
    zero key, whose printed form is empty, among them) the printed form
    does not parse back to it. *)
Theorem Key_String_ParseKey (k : Key) :
  ParseKey unicodeMapToUpper unicodeTrimFunc unicodeTrimRightFunc (Key_String k) = inr k
  <-> wheelKey k.
Proof.
  split.
  - apply parseCleaned_wheel.
  - intros Hk. apply (Key_String_wheel k Hk).
Qed.

(** X2.  Printing normalises: whatever label [ParseKey] accepted for a
    key, the printed form of the key is its canonical label (the number in
    plain decimal notation, then the mode letter), and it parses to the
    same key again. *)
Theorem ParseKey_Key_String (input : string) (k : Key) :
  ParseKey unicodeMapToUpper unicodeTrimFunc unicodeTrimRightFunc input = inr k ->
  labelOf canonicalNumerals (Key_String k) k /\
  ParseKey unicodeMapToUpper unicodeTrimFunc unicodeTrimRightFunc (Key_String k) = inr k.
Proof.
  intros H. apply parseCleaned_wheel in H.
  destruct (Key_String_wheel k H) as [H1 H2]. by split.
Qed.

End KeyRoundTrip.

Lemma ParseKey_Key_String_witness :
  ParseKey KeyLabels.noUnicode KeyLabels.noUnicode KeyLabels.noUnicode " +7b"
  = inr {| Number := 7; KeyMode := ModeB |} /\
  Key_String {| Number := 7; KeyMode := ModeB |} = "7B"%string /\
  ParseKey KeyLabels.noUnicode KeyLabels.noUnicode KeyLabels.noUnicode
           (Key_String {| Number := 7; KeyMode := ModeB |})
  = inr {| Number := 7; KeyMode := ModeB |}.
Proof.
  assert (H : ParseKey KeyLabels.noUnicode KeyLabels.noUnicode KeyLabels.noUnicode " +7b"
              = inr {| Number := 7; KeyMode := ModeB |}) by (vm_compute; reflexivity).
  split; [exact H|]. split; [vm_compute; reflexivity|].
  exact (proj2 (ParseKey_Key_String _ _ _ _ _ H)).
Defined.

(** ** The ordering of tracks *)

Lemma wrap64_small (z : Z) : - 2 ^ 63 <= z < 2 ^ 63 -> wrap64 z = z.
Proof. intros H. unfold wrap64. rewrite Z.mod_small by lia. lia. Qed.

Lemma inInt64_bounds (z : Z) : inInt64 z = true <-> - 2 ^ 63 <= z <= 2 ^ 63 - 1.
Proof. unfold inInt64, minInt64, maxInt64. lia. Qed.

(** The difference of two distinct [int] values does not wrap to 0. *)
Lemma wrap64_sub_zero (x y : Z) :
  inInt64 x = true -> inInt64 y = true -> wrap64 (x - y) = 0 -> x = y.
Proof.
  rewrite !inInt64_bounds. intros Hx Hy. unfold wrap64. intros H.
  pose proof (Z.div_mod (x - y + 2 ^ 63) (2 ^ 64) ltac:(lia)) as Hdm.
  pose proof (Z.mod_pos_bound (x - y + 2 ^ 63) (2 ^ 64) ltac:(lia)) as Hb.
  lia.
Qed.

Module FloatOrder.

Lemma SFcompare_antisym (x y : spec_float) :
  SFcompare y x = option_map CompOpp (SFcompare x y).
Proof.
  destruct x as [s1|s1| |s1 m1 e1], y as [s2|s2| |s2 m2 e2]; simpl;
    try destruct s1; try destruct s2; try reflexivity; simpl; f_equal.
  - rewrite (Z.compare_antisym e1 e2). destruct (e1 ?= e2); simpl; try reflexivity.
    all: rewrite (Pos.compare_cont_antisym m1 m2 Eq); reflexivity.
  - rewrite (Z.compare_antisym e1 e2). destruct (e1 ?= e2); simpl; try reflexivity.
    all: rewrite (Pos.compare_cont_antisym m1 m2 Eq); reflexivity.
Qed.

Lemma eqb_sym (x y : float) : (x =? y)%float = (y =? x)%float.
Proof.
  rewrite !FloatAxioms.eqb_spec. unfold SFeqb.
  rewrite (SFcompare_antisym (Prim2SF x) (Prim2SF y)).
  by destruct (SFcompare (Prim2SF x) (Prim2SF y)) as [[]|].
Qed.

Lemma not_nan_compare (x y : float) :
  is_nan x = false -> is_nan y = false ->
  exists c, SFcompare (Prim2SF x) (Prim2SF y) = Some c.
Proof.
  unfold is_nan. rewrite !FloatAxioms.eqb_spec. unfold SFeqb.
  intros Hx Hy.
  destruct (Prim2SF x) as [| | |], (Prim2SF y) as [| | |]; simpl in *;
    try discriminate; eauto.
Qed.

(** Of two numbers that [==] tells apart, exactly one is below the other. *)
Lemma ltb_antisym (x y : float) :
  is_nan x = false -> is_nan y = false -> (x =? y)%float = false ->
  (y <? x)%float = negb (x <? y)%float.
Proof.
  intros Hx Hy. destruct (not_nan_compare x y Hx Hy) as [c Hc].
  rewrite FloatAxioms.eqb_spec, !FloatAxioms.ltb_spec. unfold SFeqb, SFltb.
  rewrite (SFcompare_antisym (Prim2SF x) (Prim2SF y)), Hc. simpl.
  by destruct c.
Qed.

End FloatOrder.

Lemma String_ltb_antisym (s1 s2 : string) :
  s1 <> s2 -> String.ltb s2 s1 = negb (String.ltb s1 s2).
Proof.
  intros Hne. unfold String.ltb. rewrite (String.compare_antisym s2 s1).
  destruct (String.compare s1 s2) eqn:Hc; simpl; try reflexivity.
  apply String.compare_eq_iff in Hc. contradiction.
Qed.

(** X4.  [compareTracks] returns 0 exactly for two tracks that agree in
    every field, the BPM values being compared as [==] compares them.  In
    particular a track whose BPM is NaN does not compare equal to itself,
    and two tracks whose BPM values are the two zeros do. *)
Theorem compareTracks_zero (a b : Track) :
  intFields a -> intFields b ->
  (compareTracks a b = 0 <-> sameFields a b).
Proof.
  intros [Ha1 Ha2] [Hb1 Hb2]. unfold compareTracks, sameFields.
  destruct (Z.eqb_spec (Number (TrackKey a)) (Number (TrackKey b))) as [Hn|Hn]; simpl.
  2: { split; [intros H; apply wrap64_sub_zero in H; tauto | tauto]. }
  destruct (String.eqb_spec (KeyMode (TrackKey a)) (KeyMode (TrackKey b))) as [Hm|Hm]; simpl.
  2: { split; [destruct (String.ltb _ _); discriminate | tauto]. }
  destruct (BPM a =? BPM b)%float eqn:Hbpm; simpl.
  2: { split; [destruct (BPM a <? BPM b)%float; discriminate | intuition discriminate]. }
  destruct (Z.eqb_spec (Energy a) (Energy b)) as [He|He]; simpl.
  2: { split; [intros H; apply wrap64_sub_zero in H; tauto | tauto]. }
  destruct (String.eqb_spec (Artist a) (Artist b)) as [Har|Har]; simpl.
  2: { split; [destruct (String.ltb _ _); discriminate | tauto]. }
  destruct (String.eqb_spec (Title a) (Title b)) as [Ht|Ht]; simpl.
  2: { split; [destruct (String.ltb _ _); discriminate | tauto]. }
  tauto.
Qed.

Lemma compareTracks_zero_witness :
  intFields (Fixture.row "a" "x" nan 50 1 ModeA) /\
  (compareTracks (Fixture.row "a" "x" nan 50 1 ModeA)
                 (Fixture.row "a" "x" nan 50 1 ModeA) = 0
   <-> sameFields (Fixture.row "a" "x" nan 50 1 ModeA)
                  (Fixture.row "a" "x" nan 50 1 ModeA)) /\
  compareTracks (Fixture.row "a" "x" nan 50 1 ModeA)
                (Fixture.row "a" "x" nan 50 1 ModeA) = 1.
Proof.
  assert (H : intFields (Fixture.row "a" "x" nan 50 1 ModeA)) by (split; reflexivity).
  split; [exact H|]. split; [exact (compareTracks_zero _ _ H H)|].
  vm_compute. reflexivity.
Defined.

(** X5.  On tracks as the loader admits them (energy from 0 to 100, key
    on the wheel) whose BPM is a number, exchanging the arguments of
    [compareTracks] negates the result. *)
Theorem compareTracks_antisym (a b : Track) :
  validTrack a -> validTrack b ->
  is_nan (BPM a) = false -> is_nan (BPM b) = false ->
  compareTracks b a = - compareTracks a b.
Proof.
  intros (Hea & Hna & _) (Heb & Hnb & _) Hfa Hfb. unfold compareTracks.
  rewrite (Z.eqb_sym (Number (TrackKey b))), (Z.eqb_sym (Energy b)).
  rewrite (String.eqb_sym (KeyMode (TrackKey b))), (String.eqb_sym (Artist b)),
    (String.eqb_sym (Title b)).
  rewrite (FloatOrder.eqb_sym (BPM b)).
  destruct (Z.eqb_spec (Number (TrackKey a)) (Number (TrackKey b))) as [Hn|Hn]; simpl.
  2: { rewrite !wrap64_small by lia. lia. }
  destruct (String.eqb_spec (KeyMode (TrackKey a)) (KeyMode (TrackKey b))) as [Hm|Hm]; simpl.
  2: { rewrite (String_ltb_antisym _ _ Hm). by destruct (String.ltb _ _). }
  destruct (BPM a =? BPM b)%float eqn:Hbpm; simpl.
  2: { rewrite (FloatOrder.ltb_antisym _ _ Hfa Hfb Hbpm).
       by destruct (BPM a <? BPM b)%float. }
  destruct (Z.eqb_spec (Energy a) (Energy b)) as [He|He]; simpl.
  2: { rewrite !wrap64_small by lia. lia. }
  destruct (String.eqb_spec (Artist a) (Artist b)) as [Har|Har]; simpl.
  2: { rewrite (String_ltb_antisym _ _ Har). by destruct (String.ltb _ _). }
  destruct (String.eqb_spec (Title a) (Title b)) as [Ht|Ht]; simpl.
  2: { rewrite (String_ltb_antisym _ _ Ht). by destruct (String.ltb _ _). }
  reflexivity.
Qed.

Lemma compareTracks_antisym_witness :
  validTrack CsvFixture.trackA /\ validTrack CsvFixture.trackB /\
  is_nan (BPM CsvFixture.trackA) = false /\ is_nan (BPM CsvFixture.trackB) = false /\
  compareTracks CsvFixture.trackB CsvFixture.trackA
  = - compareTracks CsvFixture.trackA CsvFixture.trackB.
Proof.
  assert (H1 : validTrack CsvFixture.trackA)
    by (repeat split; simpl; try lia; by left).
  assert (H2 : validTrack CsvFixture.trackB)
    by (repeat split; simpl; try lia; by right).
  assert (H3 : is_nan (BPM CsvFixture.trackA) = false) by reflexivity.
  assert (H4 : is_nan (BPM CsvFixture.trackB) = false) by reflexivity.
  repeat (split; [assumption|]).
  exact (compareTracks_antisym _ _ H1 H2 H3 H4).
Defined.

(** ** Loading and saving *)

Section CsvProps.

Import csvio KeyStringProps.

Variable unicodeMapToUpper : string -> string.
Variable unicodeTrimFunc : string -> string.
Variable unicodeTrimRightFunc : string -> string.
Variable ParseFloat : string -> option float.
Variable FormatFloat : float -> string.

(** Within this section the functions of the package, and the words
    [parsesTo], [headerLike] and [storable], stand applied to the
    parameters above. *)
Local Abbreviation parseRecord :=
  (csvio.parseRecord unicodeMapToUpper unicodeTrimFunc unicodeTrimRightFunc ParseFloat).
Local Abbreviation looksLikeData :=
  (csvio.looksLikeData unicodeMapToUpper unicodeTrimFunc unicodeTrimRightFunc ParseFloat).
Local Abbreviation loadLoop :=
  (csvio.loadLoop unicodeMapToUpper unicodeTrimFunc unicodeTrimRightFunc ParseFloat).
Local Abbreviation Load :=
  (csvio.Load unicodeMapToUpper unicodeTrimFunc unicodeTrimRightFunc ParseFloat).
Local Abbreviation trimSpace := (csvio.trimSpace unicodeTrimFunc unicodeTrimRightFunc).
Local Abbreviation saveRow := (csvio.saveRow FormatFloat).
Local Abbreviation saveRecords := (csvio.saveRecords FormatFloat).
Local Abbreviation parsesTo :=
  (parsesTo unicodeMapToUpper unicodeTrimFunc unicodeTrimRightFunc ParseFloat).
Local Abbreviation headerLike :=
  (headerLike unicodeMapToUpper unicodeTrimFunc unicodeTrimRightFunc ParseFloat).
Local Abbreviation storable :=
  (storable unicodeTrimFunc unicodeTrimRightFunc ParseFloat FormatFloat).

Lemma five_columns (record : list string) :
  (5 <= length record)%nat ->
  exists c0 c1 c2 c3 c4 rest, record = c0 :: c1 :: c2 :: c3 :: c4 :: rest.
Proof.
  destruct record as [|c0 [|c1 [|c2 [|c3 [|c4 rest]]]]]; simpl; try lia.
  intros _. by exists c0, c1, c2, c3, c4, rest.
Qed.

(** An accepted record has five columns or more, and its track is valid. *)
Lemma parseRecord_accepts (record : list string) (t : Track) :
  parseRecord record = Some (inr t) ->
  (5 <= length record)%nat /\ validTrack t.
Proof.
  unfold parseRecord.
  destruct record as [|c0 [|c1 [|c2 rest]]]; simpl; try discriminate.
  destruct (ParseFloat _) as [bpm|]; [|discriminate].
  destruct rest as [|c3 rest]; simpl; [discriminate|].
  destruct (Atoi _) as [energy|]; [|discriminate].
  destruct (Z.ltb_spec energy 0); simpl; [discriminate|].
  destruct (Z.ltb_spec 100 energy); simpl; [discriminate|].
  destruct rest as [|c4 rest]; simpl; [discriminate|].
  destruct (parseKey _ _ _ c4) as [e|key] eqn:Hkey; [discriminate|].
  intros [= <-]. simpl. split; [lia|].
  split; simpl; [lia|]. exact (parseCleaned_wheel _ _ Hkey).
Qed.

(** Behind the length check of [Load] the parser does not panic. *)
Lemma parseRecord_returns (record : list string) :
  (5 <= length record)%nat -> exists r, parseRecord record = Some r.
Proof.
  intros H. destruct (five_columns record H) as (c0 & c1 & c2 & c3 & c4 & rest & ->).
  unfold parseRecord. simpl.
  destruct (ParseFloat _); [|eauto]. simpl.
  destruct (Atoi _); [|eauto].
  destruct (_ || _); [eauto|]. simpl.
  destruct (parseKey _ _ _ c4); eauto.
Qed.

(** X6.  On a record of five columns or more, [looksLikeData] holds for
    every record that [parseRecord] accepts, and a record for which it
    holds is either accepted by [parseRecord] or rejected for its energy
    alone, which lies outside 0..100.  So a first row with such an energy
    is not taken for a header. *)
Theorem looksLikeData_parseRecord (record : list string) :
  (5 <= length record)%nat ->
  ((exists t, parseRecord record = Some (inr t)) -> looksLikeData record = true) /\
  (looksLikeData record = true ->
   (exists t, parseRecord record = Some (inr t)) \/
   (exists energy,
      (energy < 0 \/ 100 < energy) /\
      parseRecord record = Some (inl (EnergyOutOfRange energy)))).
Proof.
  intros H. destruct (five_columns record H) as (c0 & c1 & c2 & c3 & c4 & rest & ->).
  unfold looksLikeData, parseRecord.
  destruct (Nat.ltb_spec (length (c0 :: c1 :: c2 :: c3 :: c4 :: rest)) 5) as [Hlt|_];
    [simpl in Hlt; lia|].
  simpl.
  destruct (ParseFloat _) as [bpm|]; simpl.
  2: { split; [intros [t Ht]|]; discriminate. }
  destruct (Atoi _) as [energy|]; simpl.
  2: { split; [intros [t Ht]|]; discriminate. }
  destruct (parseKey _ _ _ c4) as [e|key]; simpl.
  - split; [|discriminate]. intros [t Ht]. by destruct (_ || _).
  - split; [reflexivity|]. intros _.
    destruct (Z.ltb_spec energy 0); simpl; [right; exists energy; split; [lia|done]|].
    destruct (Z.ltb_spec 100 energy); simpl; [right; exists energy; split; [lia|done]|].
    left. eauto.
Qed.

Lemma parsesTo_looksLikeData (record : list string) (t : Track) :
  parsesTo record t -> (5 <= length record)%nat /\ looksLikeData record = true.
Proof.
  intros H. destruct (parseRecord_accepts record t H) as (Hlen & _).
  split; [exact Hlen|].
  unfold parsesTo in H. revert H.
  destruct (five_columns record Hlen) as (c0 & c1 & c2 & c3 & c4 & rest & ->).
  unfold looksLikeData, parseRecord.
  destruct (Nat.ltb_spec (length (c0 :: c1 :: c2 :: c3 :: c4 :: rest)) 5) as [Hlt|_];
    [simpl in Hlt; lia|].
  simpl.
  destruct (ParseFloat _) as [bpm|]; simpl; [|discriminate].
  destruct (Atoi _) as [energy|]; simpl; [|discriminate].
  destruct (parseKey _ _ _ c4) as [e|key]; simpl; [|reflexivity].
  by destruct (_ || _).
Qed.

(** One turn of the loop on a record that parses. *)
Lemma loadLoop_row (ctx : Context) (record : list string) (t : Track)
    (reads : list readResult) (polls : nat) (tracks : list Track) (line : Z)
    (header : bool) :
  Done ctx polls = false ->
  parsesTo record t ->
  (line = 0 -> header = false) ->
  loadLoop ctx (Record record :: reads) polls tracks line header
  = loadLoop ctx reads (S polls) (tracks ++ [t]) (line + 1) header.
Proof.
  intros Hdone Ht Hline.
  destruct (parsesTo_looksLikeData record t Ht) as [Hlen Hdata].
  simpl. rewrite Hdone.
  destruct (Nat.eqb_spec (length record) 0) as [|_]; [lia|].
  destruct (Nat.ltb_spec (length record) 5) as [|_]; [lia|].
  rewrite Hdata, andb_false_r.
  replace (header && (line + 1 =? 1)) with false.
  - unfold parsesTo in Ht. by rewrite Ht.
  - destruct (Z.eqb_spec (line + 1) 1) as [Heq|_];
      [rewrite Hline by lia; reflexivity | by rewrite andb_false_r].
Qed.

(** One turn of the loop on a first record that is no data. *)
Lemma loadLoop_header (ctx : Context) (record : list string)
    (reads : list readResult) :
  Done ctx 0 = false ->
  headerLike record ->
  loadLoop ctx (Record record :: reads) 0 [] 0 false
  = loadLoop ctx reads 1 [] 1 true.
Proof.
  intros Hdone [Hlen Hdata]. simpl. rewrite Hdone.
  destruct (Nat.eqb_spec (length record) 0) as [|_]; [lia|].
  destruct (Nat.ltb_spec (length record) 5) as [|_]; [lia|].
  by rewrite Hdata.
Qed.

(** The loop over a run of records that parse. *)
Lemma loadLoop_stops (ctx : Context) (good : list (list string)) :
  forall (parsed : list Track) (rest : list readResult) (polls : nat)
         (tracks : list Track) (line : Z) (header : bool),
    (forall k, Done ctx k = false) ->
    Forall2 parsesTo good parsed ->
    0 <= line ->
    (line = 0 -> header = false) ->
    loadLoop ctx (map Record good ++ rest) polls tracks line header
    = loadLoop ctx rest (polls + length good) (tracks ++ parsed)
                (line + Z.of_nat (length good)) header.
Proof.
  induction good as [|record good IH];
    intros parsed rest polls tracks line header Hdone Hgood Hpos Hline.
  - apply Forall2_nil_inv_l in Hgood as ->. simpl.
    by rewrite app_nil_r, Z.add_0_r, Nat.add_0_r.
  - apply Forall2_cons_inv_l in Hgood as (t & parsed' & Ht & Hgood & ->).
    rewrite map_cons, <- app_comm_cons, (loadLoop_row ctx record t) by auto.
    rewrite (IH parsed') by (auto; lia).
    rewrite <- app_assoc. simpl length. f_equal; lia.
Qed.

Lemma loadLoop_rows (ctx : Context) (rows : list (list string))
    (parsed : list Track) (polls : nat) (tracks : list Track) (line : Z)
    (header : bool) :
  (forall k, Done ctx k = false) ->
  Forall2 parsesTo rows parsed ->
  0 <= line ->
  (line = 0 -> header = false) ->
  loadLoop ctx (map Record rows) polls tracks line header
  = Some (inr (tracks ++ parsed)).
Proof.
  intros Hdone Hrows Hpos Hline.
  rewrite <- (app_nil_r (map Record rows)).
  rewrite (loadLoop_stops ctx rows parsed) by auto.
  simpl. by rewrite Hdone.
Qed.

(** X7.  Under a context that is never done, a file whose records all
    parse loads to their tracks, in the order of the file.  The same file
    with one more record in front loads to the same tracks whenever that
    record has its five columns and does not look like data: be it a
    heading or a broken row, it is dropped without an error. *)
Theorem Load_rows (files : string -> option (list readResult)) (ctx : Context)
    (path : string) (rows : list (list string)) (parsed : list Track) :
  (forall k, Done ctx k = false) ->
  Forall2 parsesTo rows parsed ->
  (files path = Some (map Record rows) \/
   exists first, headerLike first /\ files path = Some (map Record (first :: rows))) ->
  Load files ctx path = Some (inr parsed).
Proof.
  intros Hdone Hrows [Hfile | (first & Hfirst & Hfile)]; unfold Load; rewrite Hfile.
  - by rewrite (loadLoop_rows ctx rows parsed) by (auto; lia).
  - rewrite map_cons, loadLoop_header by auto.
    by rewrite (loadLoop_rows ctx rows parsed) by (auto; lia).
Qed.

(** X8.  After the first record a row that [parseRecord] rejects is an
    error, and the error names the row by its position among the records
    of the file, counted from 1; nothing behind the row is read. *)
Theorem Load_error_line (files : string -> option (list readResult)) (ctx : Context)
    (path : string) (first : list string) (good : list (list string))
    (parsed : list Track) (bad : list string) (e : recordError)
    (rest : list readResult) :
  (forall k, Done ctx k = false) ->
  (headerLike first \/ exists t, parsesTo first t) ->
  Forall2 parsesTo good parsed ->
  (5 <= length bad)%nat ->
  parseRecord bad = Some (inl e) ->
  files path = Some (map Record (first :: good) ++ Record bad :: rest) ->
  Load files ctx path = Some (inl (BadLine (Z.of_nat (length good) + 2) e)).
Proof.
  intros Hdone Hfirst Hgood Hlen Hbad Hfile. unfold Load. rewrite Hfile.
  rewrite map_cons, <- app_comm_cons.
  assert (Hstop : forall polls tracks header,
            loadLoop ctx (map Record good ++ Record bad :: rest) polls tracks 1 header
            = Some (inl (BadLine (Z.of_nat (length good) + 2) e))).
  { intros polls tracks header.
    rewrite (loadLoop_stops ctx good parsed) by (auto; lia).
    simpl. rewrite Hdone.
    destruct (Nat.eqb_spec (length bad) 0) as [|_]; [lia|].
    destruct (Nat.ltb_spec (length bad) 5) as [|_]; [lia|].
    destruct (Z.eqb_spec (1 + Z.of_nat (length good) + 1) 1) as [|_]; [lia|].
    rewrite andb_false_r. simpl. rewrite Hbad. do 3 f_equal. lia. }
  destruct Hfirst as [Hfirst | [t Ht]].
  - rewrite loadLoop_header by auto. apply Hstop.
  - rewrite (loadLoop_row ctx first t) by auto. apply Hstop.
Qed.

(** X9.  A first record of one to four columns is an error that names
    line 1 (a short heading is not skipped).  A failure of the reader
    behind rows that parse, which is also how the reader of
    [encoding/csv] hands over a later record whose width differs from
    that of the first, is an error that names the position of the failed
    read, counted from 1.  Nothing behind either is read. *)
Theorem Load_stops_at (files : string -> option (list readResult)) (ctx : Context)
    (path : string) (good : list (list string)) (parsed : list Track)
    (rest : list readResult) :
  (forall k, Done ctx k = false) ->
  Forall2 parsesTo good parsed ->
  (forall short,
     (1 <= length short < 5)%nat ->
     files path = Some (Record short :: rest) ->
     Load files ctx path = Some (inl (ColumnCount 1 (length short)))) /\
  (files path = Some (map Record good ++ ReadFailure :: rest) ->
   Load files ctx path = Some (inl (ReadLine (Z.of_nat (length good) + 1)))).
Proof.
  intros Hdone Hgood. split.
  - intros short Hshort Hfile. unfold Load. rewrite Hfile.
    simpl. rewrite Hdone.
    destruct (Nat.eqb_spec (length short) 0) as [|_]; [lia|].
    destruct (Nat.ltb_spec (length short) 5) as [_|]; [|lia].
    reflexivity.
  - intros Hfile. unfold Load. rewrite Hfile.
    rewrite (loadLoop_stops ctx good parsed) by (auto; lia).
    simpl. by rewrite Hdone.
Qed.

Lemma loadLoop_result (ctx : Context) (reads : list readResult) :
  forall (polls : nat) (tracks : list Track) (line : Z) (header : bool),
    exists r,
      loadLoop ctx reads polls tracks line header = Some r /\
      forall out, r = inr out ->
                  exists new, out = tracks ++ new /\ Forall validTrack new /\
                              (length new <= length reads)%nat.
Proof.
  induction reads as [|[|record] reads IH]; intros polls tracks line header; simpl.
  - destruct (Done ctx polls); eexists; (split; [reflexivity|]); [discriminate|].
    intros out [= <-]. exists []. by rewrite app_nil_r.
  - destruct (Done ctx polls); eexists; (split; [reflexivity|]); discriminate.
  - destruct (Done ctx polls); [eexists; split; [reflexivity | discriminate]|].
    assert (Hskip : forall line' header',
      exists r,
        loadLoop ctx reads (S polls) tracks line' header' = Some r /\
        forall out, r = inr out ->
                    exists new, out = tracks ++ new /\ Forall validTrack new /\
                                (length new <= S (length reads))%nat).
    { intros line' header'.
      destruct (IH (S polls) tracks line' header') as (r & Hr & Hout).
      exists r. split; [exact Hr|]. intros out Ho.
      destruct (Hout out Ho) as (new & ? & ? & ?). exists new. repeat split; auto. }
    destruct (Nat.eqb_spec (length record) 0) as [|_]; [apply Hskip|].
    destruct (Nat.ltb_spec (length record) 5) as [|Hlen];
      [eexists; split; [reflexivity | discriminate]|].
    destruct (_ && negb _); [apply Hskip|].
    destruct (header && _); [apply Hskip|].
    destruct (parseRecord_returns record Hlen) as ([e|t] & Hr); rewrite Hr.
    + eexists; split; [reflexivity | discriminate].
    + destruct (parseRecord_accepts record t Hr) as (_ & Hvalid).
      destruct (IH (S polls) (tracks ++ [t]) (line + 1) header) as (r & Hloop & Hout).
      exists r. split; [exact Hloop|]. intros out Ho.
      destruct (Hout out Ho) as (new & -> & Hnew & Hn).
      exists (t :: new). rewrite <- app_assoc. repeat split; auto. simpl. lia.
Qed.

(** X10.  [Load] returns on every file system, context and path: the
    index expressions of [parseRecord] are never out of range.  When it
    returns tracks, each has an energy from 0 to 100 and a key on the
    wheel, and there are no more of them than records in the file. *)
Theorem Load_valid (files : string -> option (list readResult)) (ctx : Context)
    (path : string) :
  exists r,
    Load files ctx path = Some r /\
    forall tracks, r = inr tracks ->
      Forall validTrack tracks /\
      exists reads, files path = Some reads /\ (length tracks <= length reads)%nat.
Proof.
  unfold Load. destruct (files path) as [reads|].
  - destruct (loadLoop_result ctx reads 0 [] 0 false) as (r & Hr & Hout).
    exists r. split; [exact Hr|]. intros tracks Ht.
    destruct (Hout tracks Ht) as (new & -> & Hnew & Hn). simpl. eauto.
  - eexists. split; [reflexivity | discriminate].
Qed.

Lemma loadLoop_interrupted (ctx : Context) (rows : list (list string)) :
  forall (parsed : list Track) (rest : list readResult) (k polls : nat)
         (tracks : list Track) (line : Z) (header : bool),
    Forall2 parsesTo rows parsed ->
    0 <= line ->
    (line = 0 -> header = false) ->
    (polls <= k <= polls + length rows)%nat ->
    Done ctx k = true ->
    loadLoop ctx (map Record rows ++ rest) polls tracks line header
    = Some (inl (Interrupted (Err ctx))).
Proof.
  induction rows as [|record rows IH];
    intros parsed rest k polls tracks line header Hrows Hpos Hline Hk Hdone.
  - simpl in Hk. assert (k = polls) as -> by lia.
    destruct rest as [|[|]]; simpl; by rewrite Hdone.
  - destruct (Done ctx polls) eqn:Hpoll; [simpl; by rewrite Hpoll|].
    apply Forall2_cons_inv_l in Hrows as (t & parsed' & Ht & Hrows & ->).
    rewrite map_cons, <- app_comm_cons, (loadLoop_row ctx record t) by auto.
    apply (IH parsed' rest k); auto; try lia.
    simpl in Hk. assert (k <> polls) by congruence. lia.
Qed.

(** X11.  The signal of the context is polled before every read, the one
    that meets the end of the file included.  When poll number k finds it
    fired and the k records before it parse, [Load] returns the error of
    the context and no tracks, even if the file is complete and valid. *)
Theorem Load_interrupted (files : string -> option (list readResult)) (ctx : Context)
    (path : string) (rows : list (list string)) (parsed : list Track)
    (rest : list readResult) (k : nat) :
  Forall2 parsesTo rows parsed ->
  files path = Some (map Record rows ++ rest) ->
  (k <= length rows)%nat ->
  Done ctx k = true ->
  Load files ctx path = Some (inl (Interrupted (Err ctx))).
Proof.
  intros Hrows Hfile Hk Hdone. unfold Load. rewrite Hfile.
  apply (loadLoop_interrupted ctx rows parsed rest k); auto; lia.
Qed.

(** *** What [Save] writes, read back *)

Lemma Atoi_Itoa_percent (energy : Z) :
  0 <= energy <= 100 -> Atoi (trimSpace (Itoa energy)) = Some energy.
Proof.
  intros He.
  assert (H : forallb (fun n => match Atoi (trimSpace (Itoa (Z.of_nat n))) with
                                | Some v => v =? Z.of_nat n
                                | None => false
                                end) (seq 0 101) = true)
    by (vm_compute; reflexivity).
  rewrite forallb_forall in H. specialize (H (Z.to_nat energy)).
  rewrite Z2Nat.id in H by lia.
  assert (Hin : In (Z.to_nat energy) (seq 0 101)) by (apply in_seq; lia).
  specialize (H Hin).
  destruct (Atoi _) as [v|]; [|discriminate].
  apply Z.eqb_eq in H. by subst.
Qed.

(** The heading that [Save] writes is taken for a header: its energy
    column is no number. *)
Lemma saveHeader_headerLike : headerLike saveHeader.
Proof.
  split; [simpl; lia|].
  unfold looksLikeData. simpl.
  destruct (ParseFloat _); reflexivity.
Qed.

Lemma saveRow_storable (t : Track) :
  storable t -> parsesTo (saveRow t) t.
Proof.
  unfold parsesTo, storable, parseRecord, saveRow. simpl.
  intros (Htitle & Hartist & Hbpm & (He & Hk)).
  rewrite Hbpm. simpl. rewrite (Atoi_Itoa_percent _ He).
  destruct (Z.ltb_spec (Energy t) 0); [lia|].
  destruct (Z.ltb_spec 100 (Energy t)); [lia|]. simpl.
  unfold parseKey.
  rewrite (proj1 (Key_String_wheel unicodeMapToUpper unicodeTrimFunc
                    unicodeTrimRightFunc _ Hk)).
  rewrite Htitle, Hartist. by destruct t.
Qed.

(** X12.  The row that [Save] writes for a track is parsed back to the
    same track exactly when title and artist carry no outer white space,
    the BPM reads back from its printed form, the energy is from 0 to 100
    and the key lies on the wheel.  A track with the zero key, or with an
    energy of 101, is written as it is and does not read back. *)
Theorem saveRow_parseRecord (t : Track) :
  parsesTo (saveRow t) t <-> storable t.
Proof.
  split; [|apply saveRow_storable].
  destruct t as [title artist bpm energy key].
  unfold parsesTo, storable, validTrack, parseRecord, saveRow. simpl.
  destruct (ParseFloat _) as [bpm'|] eqn:Hbpm; [|discriminate]. simpl.
  destruct (Atoi _) as [energy'|]; [|discriminate].
  destruct (Z.ltb_spec energy' 0); simpl; [discriminate|].
  destruct (Z.ltb_spec 100 energy'); simpl; [discriminate|].
  destruct (parseKey _ _ _ _) as [e|key'] eqn:Hkey; [discriminate|].
  apply parseCleaned_wheel in Hkey.
  intros [= Htitle Hartist -> -> ->].
  split; [exact Htitle|]. split; [exact Hartist|]. split; [reflexivity|].
  split; [lia | exact Hkey].
Qed.

(** X13.  Under a context that is never done, the records that [Save]
    writes for a list of such tracks (the heading, then one row a track)
    load to the same list, in the same order; the heading is dropped. *)
Theorem Load_saveRecords (files : string -> option (list readResult)) (ctx : Context)
    (path : string) (tracks : list Track) :
  (forall k, Done ctx k = false) ->
  Forall storable tracks ->
  files path = Some (map Record (saveRecords tracks)) ->
  Load files ctx path = Some (inr tracks).
Proof.
  intros Hdone Htracks Hfile. unfold Load. rewrite Hfile.
  unfold saveRecords. rewrite map_cons.
  rewrite loadLoop_header by (auto using saveHeader_headerLike).
  rewrite (loadLoop_rows ctx (map (saveRow) tracks) tracks);
    [reflexivity | exact Hdone | | lia | lia].
  clear Hfile.
  induction Htracks as [|t tracks Ht _ IH]; simpl; [constructor|].
  constructor; [by apply saveRow_storable | exact IH].
Qed.

End CsvProps.

Lemma looksLikeData_parseRecord_witness :
  (5 <= length CsvFixture.songA)%nat /\
  ((exists t, CsvFixture.parse CsvFixture.songA = Some (inr t)) ->
   CsvFixture.looksData CsvFixture.songA = true) /\
  (CsvFixture.looksData CsvFixture.songA = true ->
   (exists t, CsvFixture.parse CsvFixture.songA = Some (inr t)) \/
   (exists energy,
      (energy < 0 \/ 100 < energy) /\
      CsvFixture.parse CsvFixture.songA = Some (inl (csvio.EnergyOutOfRange energy)))).
Proof.
  assert (H : (5 <= length CsvFixture.songA)%nat) by (simpl; lia).
  split; [exact H|].
  exact (looksLikeData_parseRecord _ _ _ _ CsvFixture.songA H).
Defined.

(** The file of the tests, with and without its heading, and with a
    broken row in the place of the heading. *)
Example Load_test_files :
  map (fun first =>
         CsvFixture.load
           (CsvFixture.oneFile
              (map csvio.Record (first ++ [CsvFixture.songA; CsvFixture.songB])))
           Fixture.background "tracks.csv"%string)
      [[CsvFixture.heading]; []; [CsvFixture.songOffWheel]]
  = replicate 3 (Some (inr [CsvFixture.trackA; CsvFixture.trackB])).
Proof. vm_compute. reflexivity. Qed.

Lemma Load_rows_witness :
  (forall k, Done Fixture.background k = false) /\
  Forall2 CsvFixture.reads [CsvFixture.songA; CsvFixture.songB]
          [CsvFixture.trackA; CsvFixture.trackB] /\
  CsvFixture.load
    (CsvFixture.oneFile
       (map csvio.Record [CsvFixture.songOffWheel; CsvFixture.songA; CsvFixture.songB]))
    Fixture.background "tracks.csv"%string
  = Some (inr [CsvFixture.trackA; CsvFixture.trackB]).
Proof.
  assert (H1 : forall k, Done Fixture.background k = false) by (intros k; reflexivity).
  assert (H2 : Forall2 CsvFixture.reads [CsvFixture.songA; CsvFixture.songB]
                       [CsvFixture.trackA; CsvFixture.trackB])
    by (repeat constructor; vm_compute; reflexivity).
  split; [exact H1|]. split; [exact H2|].
  apply (Load_rows _ _ _ _ _ _ _ _ _ H1 H2).
  right. exists CsvFixture.songOffWheel.
  split; [split; [simpl; lia | vm_compute; reflexivity] | reflexivity].
Defined.

Lemma Load_error_line_witness :
  (forall k, Done Fixture.background k = false) /\
  CsvFixture.parse CsvFixture.songOffWheel
  = Some (inl (csvio.InvalidKey (KeyNumberOutOfRange 13))) /\
  CsvFixture.load
    (CsvFixture.oneFile
       (map csvio.Record [CsvFixture.heading; CsvFixture.songA]
        ++ csvio.Record CsvFixture.songOffWheel :: [csvio.Record CsvFixture.songB]))
    Fixture.background "tracks.csv"%string
  = Some (inl (csvio.BadLine 3 (csvio.InvalidKey (KeyNumberOutOfRange 13)))).
Proof.
  assert (H1 : forall k, Done Fixture.background k = false) by (intros k; reflexivity).
  assert (H2 : CsvFixture.parse CsvFixture.songOffWheel
               = Some (inl (csvio.InvalidKey (KeyNumberOutOfRange 13))))
    by (vm_compute; reflexivity).
  split; [exact H1|]. split; [exact H2|].
  apply (Load_error_line _ _ _ _ _ _ _ CsvFixture.heading [CsvFixture.songA]
           [CsvFixture.trackA] CsvFixture.songOffWheel _
           [csvio.Record CsvFixture.songB] H1).
  - left. split; [simpl; lia | vm_compute; reflexivity].
  - repeat constructor; vm_compute; reflexivity.
  - simpl; lia.
  - exact H2.
  - reflexivity.
Defined.

Lemma Load_stops_at_witness :
  (forall k, Done Fixture.background k = false) /\
  Forall2 CsvFixture.reads [CsvFixture.songA] [CsvFixture.trackA] /\
  (1 <= length CsvFixture.songShort < 5)%nat /\
  CsvFixture.load
    (CsvFixture.oneFile [csvio.Record CsvFixture.songShort])
    Fixture.background "tracks.csv"%string
  = Some (inl (csvio.ColumnCount 1 4)) /\
  CsvFixture.load
    (CsvFixture.oneFile (map csvio.Record [CsvFixture.songA] ++ [csvio.ReadFailure]))
    Fixture.background "tracks.csv"%string
  = Some (inl (csvio.ReadLine 2)).
Proof.
  assert (H1 : forall k, Done Fixture.background k = false) by (intros k; reflexivity).
  assert (H2 : Forall2 CsvFixture.reads [CsvFixture.songA] [CsvFixture.trackA])
    by (repeat constructor; vm_compute; reflexivity).
  assert (H3 : (1 <= length CsvFixture.songShort < 5)%nat) by (simpl; lia).
  split; [exact H1|]. split; [exact H2|]. split; [exact H3|]. split.
  - exact (proj1 (Load_stops_at _ _ _ _
                    (CsvFixture.oneFile [csvio.Record CsvFixture.songShort])
                    Fixture.background "tracks.csv"%string
                    [CsvFixture.songA] [CsvFixture.trackA] [] H1 H2)
                 CsvFixture.songShort H3 eq_refl).
  - exact (proj2 (Load_stops_at _ _ _ _
                    (CsvFixture.oneFile
                       (map csvio.Record [CsvFixture.songA] ++ [csvio.ReadFailure]))
                    Fixture.background "tracks.csv"%string
                    [CsvFixture.songA] [CsvFixture.trackA] [] H1 H2)
                 eq_refl).
Defined.

Lemma Load_interrupted_witness :
  Forall2 CsvFixture.reads [CsvFixture.songA; CsvFixture.songB]
          [CsvFixture.trackA; CsvFixture.trackB] /\
  Done CsvFixture.cancelledAtTwo 2 = true /\
  CsvFixture.load
    (CsvFixture.oneFile (map csvio.Record [CsvFixture.songA; CsvFixture.songB] ++ []))
    CsvFixture.cancelledAtTwo "tracks.csv"%string
  = Some (inl (csvio.Interrupted Canceled)).
Proof.
  assert (H1 : Forall2 CsvFixture.reads [CsvFixture.songA; CsvFixture.songB]
                       [CsvFixture.trackA; CsvFixture.trackB])
    by (repeat constructor; vm_compute; reflexivity).
  assert (H2 : Done CsvFixture.cancelledAtTwo 2 = true) by reflexivity.
  split; [exact H1|]. split; [exact H2|].
  apply (Load_interrupted _ _ _ _
           (CsvFixture.oneFile
              (map csvio.Record [CsvFixture.songA; CsvFixture.songB] ++ []))
           CsvFixture.cancelledAtTwo "tracks.csv"%string
           [CsvFixture.songA; CsvFixture.songB]
           [CsvFixture.trackA; CsvFixture.trackB] [] 2 H1 eq_refl);
    [simpl; lia | exact H2].
Defined.

(** Two tracks that [Save] writes and [Load] does not read back: the zero
    key is printed as the empty string, an energy of 101 is printed as it
    is. *)
Example saveRow_not_read_back :
  map (fun t => CsvFixture.parse (csvio.saveRow CsvFixture.formatWhole t))
      [ Fixture.row "a" "x" 120 50 0 ModeA; Fixture.row "a" "x" 120 101 1 ModeA ]
  = [ Some (inl (csvio.InvalidKey InvalidKeyFormat));
      Some (inl (csvio.EnergyOutOfRange 101)) ].
Proof. vm_compute. reflexivity. Qed.

Lemma Load_saveRecords_witness :
  (forall k, Done Fixture.background k = false) /\
  Forall CsvFixture.keeps [CsvFixture.trackA; CsvFixture.trackB] /\
  CsvFixture.load
    (CsvFixture.oneFile
       (map csvio.Record
            (csvio.saveRecords CsvFixture.formatWhole
                               [CsvFixture.trackA; CsvFixture.trackB])))
    Fixture.background "tracks.csv"%string
  = Some (inr [CsvFixture.trackA; CsvFixture.trackB]).
Proof.
  assert (H1 : forall k, Done Fixture.background k = false) by (intros k; reflexivity).
  assert (H2 : Forall CsvFixture.keeps [CsvFixture.trackA; CsvFixture.trackB]).
  { repeat constructor; try (vm_compute; reflexivity); simpl; try lia;
      first [by left | by right]. }
  split; [exact H1|]. split; [exact H2|].
  exact (Load_saveRecords _ _ _ _ _
           (CsvFixture.oneFile
              (map csvio.Record
                   (csvio.saveRecords CsvFixture.formatWhole
                                      [CsvFixture.trackA; CsvFixture.trackB])))
           Fixture.background "tracks.csv"%string
           [CsvFixture.trackA; CsvFixture.trackB] H1 H2 eq_refl).
Defined.

(** ** The whole input, and the opening track *)

Section WholeInput.

Context {rand : RandSource}.

(** X14.  Without a limit in force (none, or one that is not below the
    number of tracks) and under a context that is never done, [Sort]
    returns every input track exactly once: its output is a permutation of
    its input. *)
Theorem Sort_permutation (now : Z) (ctx : Context) (tracks : list Track) :
  (limitFromContext ctx <= 0 \/ Z.of_nat (length tracks) <= limitFromContext ctx) ->
  (forall k, Done ctx k = false) ->
  exists out, Sort now ctx tracks = Some (out, None) /\ Permutation out tracks.
Proof.
  intros Hlimit Hdone.
  destruct (le_lt_dec (length tracks) 1) as [Hshort|Hlong].
  - exists tracks. by rewrite Sort_short, map_Clone.
  - assert (Htarget : sortTarget ctx tracks = Z.of_nat (length tracks)).
    { unfold sortTarget.
      destruct (Z.ltb_spec 0 (limitFromContext ctx));
        destruct (Z.ltb_spec (limitFromContext ctx) (Z.of_nat (length tracks)));
        simpl; lia. }
    destruct (Sort_long now ctx tracks) as (start & p & _ & Hperm & ->); [lia|].
    pose proof (Permutation_length Hperm) as Hlen. simpl in Hlen.
    rewrite Htarget.
    destruct (Z.leb_spec (Z.of_nat (length tracks)) 1) as [|_]; [lia|].
    destruct (greedyLoop_result ctx (Z.of_nat (length tracks)) (remainingCount p) p
                (initialState p start) [start] 0)
      as (out & err & -> & Hok & _ & Hnever);
      [reflexivity | simpl; lia |].
    assert (Herr : err = None) by (apply Hnever; intros k _; apply Hdone).
    subst err. destruct (Hok eq_refl) as [Hout [rest Hrest]].
    exists out. split; [reflexivity|].
    assert (Hrest_nil : rest = []).
    { apply Permutation_length in Hrest. rewrite !length_app in Hrest.
      simpl in Hrest, Hout. destruct rest; [reflexivity|]. simpl in Hrest. lia. }
    subst rest. rewrite app_nil_r in Hrest. by rewrite Hrest.
Qed.

(** The start selection does not read the target length. *)
Lemma opening_track (now : Z) (ctx1 ctx2 : Context) (tracks : list Track)
    (target1 target2 : Z) :
  seedValue ctx1 = seedValue ctx2 ->
  option_map fst
    (take (snd (chooseStartIndex (newMixPlanner now ctx1 tracks target1)))
          (fst (chooseStartIndex (newMixPlanner now ctx1 tracks target1))))
  = option_map fst
      (take (snd (chooseStartIndex (newMixPlanner now ctx2 tracks target2)))
            (fst (chooseStartIndex (newMixPlanner now ctx2 tracks target2)))).
Proof.
  intros Hseed.
  assert (Hs : plannerSeed now ctx1 = plannerSeed now ctx2)
    by (unfold plannerSeed, seedFromContext; by rewrite Hseed).
  unfold newMixPlanner. rewrite Hs.
  unfold chooseStartIndex.
  match goal with
  | |- context [startScan ?p1] =>
      match goal with
      | |- context [startScan ?p2] =>
          lazymatch p1 with
          | p2 => fail
          | _ => change (startScan p1) with (startScan p2)
          end
      end
  end.
  destruct (snd (startScan _)) as [|i candidates]; simpl.
  - unfold take. simpl. by destruct (map Clone tracks !! 0%nat).
  - destruct (Intn _ _) as [r g]. unfold take. simpl.
    by destruct (map Clone tracks !! _).
Qed.

(** X15.  The track that opens the output does not depend on the limit,
    nor on the cancellation signal: two calls made at the same time on the
    same input, under contexts that hold the same seed (or none), open
    with the same track whenever both return tracks. *)
Theorem Sort_opening_track (now : Z) (ctx1 ctx2 : Context)
    (tracks out1 out2 : list Track) :
  seedValue ctx1 = seedValue ctx2 ->
  Sort now ctx1 tracks = Some (out1, None) ->
  Sort now ctx2 tracks = Some (out2, None) ->
  head out1 = head out2.
Proof.
  intros Hseed H1 H2.
  destruct (le_lt_dec (length tracks) 1) as [Hshort|Hlong].
  - rewrite Sort_short in H1, H2 by exact Hshort. congruence.
  - pose proof (opening_track now ctx1 ctx2 tracks (sortTarget ctx1 tracks)
                  (sortTarget ctx2 tracks) Hseed) as Hopen.
    destruct (Sort_long now ctx1 tracks) as (s1 & p1 & Ht1 & _ & E1); [lia|].
    destruct (Sort_long now ctx2 tracks) as (s2 & p2 & Ht2 & _ & E2); [lia|].
    rewrite Ht1, Ht2 in Hopen. simpl in Hopen. injection Hopen as <-.
    rewrite E1 in H1. rewrite E2 in H2.
    assert (Hhead : forall ctx p out,
              (if sortTarget ctx tracks <=? 1 then Some ([s1], None)
               else greedyLoop ctx (sortTarget ctx tracks) (remainingCount p) p
                               (initialState p s1) [s1] 0) = Some (out, None) ->
              head out = Some s1).
    { intros ctx p out H. destruct (sortTarget ctx tracks <=? 1).
      - by injection H as <-.
      - apply greedyLoop_forced in H as (seq & -> & _); reflexivity. }
    by rewrite (Hhead _ _ _ H1), (Hhead _ _ _ H2).
Qed.

End WholeInput.

Lemma Sort_permutation_witness :
  (limitFromContext (WithSeed Fixture.background 1) <= 0 \/
   Z.of_nat (length Fixture.threeTracks)
   <= limitFromContext (WithSeed Fixture.background 1)) /\
  (forall k, Done (WithSeed Fixture.background 1) k = false) /\
  exists out,
    Sort (rand := Fixture.lcg) 0 (WithSeed Fixture.background 1) Fixture.threeTracks
    = Some (out, None) /\
    Permutation out Fixture.threeTracks.
Proof.
  assert (H1 : limitFromContext (WithSeed Fixture.background 1) <= 0 \/
               Z.of_nat (length Fixture.threeTracks)
               <= limitFromContext (WithSeed Fixture.background 1))
    by (left; vm_compute; discriminate).
  assert (H2 : forall k, Done (WithSeed Fixture.background 1) k = false)
    by (intros k; reflexivity).
  split; [exact H1|]. split; [exact H2|].
  exact (Sort_permutation (rand := Fixture.lcg) 0 _ _ H1 H2).
Defined.

Lemma Sort_opening_track_witness :
  seedValue (WithSeed (WithLimit Fixture.background 2) 1)
  = seedValue (WithSeed Fixture.background 1) /\
  Sort (rand := Fixture.lcg) 0 (WithSeed (WithLimit Fixture.background 2) 1)
       Fixture.threeTracks
  = Some ([Fixture.trackOne; Fixture.trackTwo], None) /\
  Sort (rand := Fixture.lcg) 0 (WithSeed Fixture.background 1) Fixture.threeTracks
  = Some ([Fixture.trackOne; Fixture.trackTwo; Fixture.trackThree], None) /\
  head [Fixture.trackOne; Fixture.trackTwo]
  = head [Fixture.trackOne; Fixture.trackTwo; Fixture.trackThree].
Proof.
  assert (H1 : seedValue (WithSeed (WithLimit Fixture.background 2) 1)
               = seedValue (WithSeed Fixture.background 1)) by reflexivity.
  assert (H2 : Sort (rand := Fixture.lcg) 0 (WithSeed (WithLimit Fixture.background 2) 1)
                    Fixture.threeTracks
               = Some ([Fixture.trackOne; Fixture.trackTwo], None))
    by (vm_compute; reflexivity).
  assert (H3 : Sort (rand := Fixture.lcg) 0 (WithSeed Fixture.background 1)
                    Fixture.threeTracks
               = Some ([Fixture.trackOne; Fixture.trackTwo; Fixture.trackThree], None))
    by (vm_compute; reflexivity).
  repeat (split; [assumption|]).
  exact (Sort_opening_track (rand := Fixture.lcg) 0 _ _ _ _ _ H1 H2 H3).
Defined.

(** ** The inventory of the planner *)

Section Inventory.

Context {K : Type} `{Countable K}.

Lemma count_increment (m : gmap K Z) (k k' : K) :
  count (increment m k) k' = count m k' + (if decide (k = k') then 1 else 0).
Proof.
  unfold increment, count.
  destruct (decide (k = k')) as [->|Hne].
  - by rewrite lookup_insert_eq.
  - rewrite lookup_insert_ne by done. lia.
Qed.

Lemma count_decrement (m : gmap K Z) (k k' : K) :
  1 <= count m k ->
  count (decrement m k) k' = count m k' - (if decide (k = k') then 1 else 0).
Proof.
  intros Hk. unfold decrement.
  assert (Hins : forall k'', count (<[k:=count m k - 1]> m) k''
                             = count m k'' - (if decide (k = k'') then 1 else 0)).
  { intros k''. unfold count at 1. destruct (decide (k = k'')) as [->|Hne].
    - by rewrite lookup_insert_eq.
    - rewrite lookup_insert_ne by done. unfold count. lia. }
  destruct (Z.leb_spec (count (<[k:=count m k - 1]> m) k) 0) as [Hle|Hgt].
  - rewrite Hins in Hle. rewrite decide_True in Hle by done.
    unfold count at 1. destruct (decide (k = k')) as [<-|Hne].
    + rewrite lookup_delete_eq. simpl. lia.
    + rewrite lookup_delete_ne by done. fold (count (<[k:=count m k - 1]> m) k').
      rewrite Hins. by rewrite decide_False by done.
  - apply Hins.
Qed.

Lemma occurrences_cons (f : Track -> K) (k : K) (t : Track) (pool : list Track) :
  occurrences f k (t :: pool)
  = (if decide (f t = k) then 1 else 0) + occurrences f k pool.
Proof.
  unfold occurrences. rewrite filter_cons.
  destruct (decide (f t = k)); simpl length; lia.
Qed.

Lemma occurrences_Permutation (f : Track -> K) (k : K) (pool pool' : list Track) :
  Permutation pool pool' -> occurrences f k pool = occurrences f k pool'.
Proof. intros Hperm. unfold occurrences. by rewrite Hperm. Qed.

Lemma occurrences_nonneg (f : Track -> K) (k : K) (pool : list Track) :
  0 <= occurrences f k pool.
Proof. unfold occurrences. lia. Qed.

Lemma count_fold_increment (f : Track -> K) (pool : list Track) :
  forall (m : gmap K Z) (k : K),
    count (fold_left (fun m t => increment m (f t)) pool m) k
    = count m k + occurrences f k pool.
Proof.
  induction pool as [|t pool IH]; intros m k; simpl.
  - unfold occurrences. simpl. lia.
  - rewrite IH, count_increment, occurrences_cons. lia.
Qed.

Lemma count_decrement_pool (f : Track -> K) (m : gmap K Z) (sel : Track)
    (pool pool' : list Track) :
  (forall k, count m k = occurrences f k pool) ->
  Permutation (sel :: pool') pool ->
  forall k, count (decrement m (f sel)) k = occurrences f k pool'.
Proof.
  intros Hm Hperm k.
  assert (Hocc : forall k', occurrences f k' pool
                            = (if decide (f sel = k') then 1 else 0)
                              + occurrences f k' pool').
  { intros k'. by rewrite <- (occurrences_Permutation f k' _ _ Hperm), occurrences_cons. }
  rewrite count_decrement.
  - rewrite Hm, Hocc. lia.
  - rewrite Hm, Hocc. rewrite decide_True by done.
    pose proof (occurrences_nonneg f (f sel) pool'). lia.
Qed.

End Inventory.

Section PlannerInventory.

Context {rand : RandSource}.

(** X16.  The two count maps of the planner tell, for every key and for
    every key number, how many tracks of the pool have it (0 for a key that
    is absent from the map).  [newMixPlanner] sets them up so, and the
    three operations of the planner keep them so: the two selections leave
    maps and pool as they are, and [take] removes one track from both. *)
Theorem planner_counts (now : Z) (ctx : Context) (tracks : list Track) (target : Z) :
  countsConsistent (newMixPlanner now ctx tracks target) /\
  forall (p : mixPlanner) (state : mixState),
    countsConsistent p ->
    countsConsistent (snd (chooseStartIndex p)) /\
    countsConsistent (snd (chooseNextIndex p state)) /\
    forall idx selected p',
      take p idx = Some (selected, p') -> countsConsistent p'.
Proof.
  split.
  - unfold countsConsistent, newMixPlanner. simpl. rewrite map_Clone.
    split; intros k; rewrite count_fold_increment; unfold count;
      rewrite lookup_empty; simpl; lia.
  - intros p state Hp. split; [|split].
    + unfold chooseStartIndex. destruct (snd (startScan p)); [exact Hp|].
      by destruct (Intn _ _).
    + unfold chooseNextIndex. destruct (scanBuckets p state) as [buckets g].
      by destruct (firstSet _ _).
    + intros idx selected p' Htake.
      destruct (take_Some _ _ _ _ Htake) as (_ & Hperm & _).
      unfold take in Htake. destruct (remaining p !! idx) as [t|]; [|discriminate].
      injection Htake as <- <-. simpl in *. destruct Hp as [Hkey Hnumber].
      split.
      * by apply (count_decrement_pool TrackKey _ _ (remaining p)).
      * by apply (count_decrement_pool (fun t => Number (TrackKey t)) _ _ (remaining p)).
Qed.

(** X17.  [take] panics exactly when the index is not one of the pool.
    Otherwise it returns the track at the index, the pool that is left
    holds the other tracks (each as often as before, in an order that may
    differ), and statistics, cycle length, generator and the two totals
    are as they were. *)
Theorem take_spec (p : mixPlanner) (idx : nat) :
  (take p idx = None <-> (length (remaining p) <= idx)%nat) /\
  forall selected p',
    take p idx = Some (selected, p') ->
    remaining p !! idx = Some selected /\
    Permutation (selected :: remaining p') (remaining p) /\
    stats p' = stats p /\
    desiredCycleLength p' = desiredCycleLength p /\
    rng p' = rng p /\
    totalTracks p' = totalTracks p /\
    targetCount p' = targetCount p.
Proof.
  split.
  - unfold take. destruct (remaining p !! idx) as [t|] eqn:Hidx.
    + split; [discriminate|]. intros Hlen.
      apply lookup_lt_Some in Hidx. lia.
    + split; [|reflexivity]. intros _. by apply lookup_ge_None.
  - intros selected p' Htake.
    destruct (take_Some _ _ _ _ Htake) as (Hsel & Hperm & _ & Hrng).
    split; [exact Hsel|]. split; [exact Hperm|].
    unfold take in Htake. rewrite Hsel in Htake. by injection Htake as <-.
Qed.

End PlannerInventory.

(** ** The state along the output *)

Lemma advance_bounded (steps : Z) (state : mixState) (next : Track) :
  stateBounded steps state -> stateBounded (steps + 1) (advance state next).
Proof.
  intros (Hset & Hc & Ht & Hs & H1 & H2 & H3 & H4).
  unfold stateBounded, advance. rewrite Hset. simpl. unfold cappedIncrement.
  split; [reflexivity|].
  repeat split;
    repeat match goal with
           | |- context [if ?v <? 100 then _ else _] => destruct (Z.ltb_spec v 100)
           | |- context [if ?b then _ else _] => destruct b
           end; lia.
Qed.

Lemma stateAfter_bounded (seq : list Track) :
  forall (steps : Z) (state : mixState),
    stateBounded steps state ->
    stateBounded (steps + Z.of_nat (length seq)) (stateAfter state seq).
Proof.
  induction seq as [|next seq IH]; intros steps state Hb.
  - simpl. by rewrite Z.add_0_r.
  - replace (steps + Z.of_nat (length (next :: seq)))
      with (steps + 1 + Z.of_nat (length seq)) by (simpl length; lia).
    apply (IH (steps + 1) (advance state next)). by apply advance_bounded.
Qed.

(** X18.  However many tracks are placed after the start track, the
    counters of the state stay within bounds: the cycle index and the
    same-number streak are between 0 and the number of placements, the
    tracks in the cycle between 1 and one more than that, and the four
    variety counters between 0 and 100.  No counter of the state can
    overflow. *)
Theorem stateAfter_initialState_bounded `{RandSource} (p : mixPlanner) (start : Track)
    (seq : list Track) :
  stateBounded (Z.of_nat (length seq)) (stateAfter (initialState p start) seq).
Proof.
  apply (stateAfter_bounded seq 0 (initialState p start)).
  unfold stateBounded, initialState. simpl. lia.
Qed.

(** For keys of the wheel the subtraction does not wrap. *)
Lemma computeTransition_on_wheel (state : mixState) (candidate : Track) :
  prevSet state = true ->
  1 <= Number (TrackKey (prev state)) <= 12 ->
  1 <= Number (TrackKey candidate) <= 12 ->
  diff (computeTransition state candidate)
  = (Number (TrackKey candidate) - Number (TrackKey (prev state))) mod 12 /\
  wrap (computeTransition state candidate)
  = (Number (TrackKey candidate) <? Number (TrackKey (prev state))).
Proof.
  intros Hset Hp Hc. unfold computeTransition. rewrite Hset. simpl.
  assert (Hw : wrap64 (Number (TrackKey candidate) - Number (TrackKey (prev state)))
               = Number (TrackKey candidate) - Number (TrackKey (prev state))).
  { unfold wrap64. rewrite Z.mod_small by lia. lia. }
  rewrite Hw.
  destruct (Z.ltb_spec (Number (TrackKey candidate) - Number (TrackKey (prev state))) 0);
    simpl.
  - split.
    + apply (Z.mod_unique_pos _ 12 (-1)); lia.
    + symmetry. apply Z.ltb_lt. lia.
  - split.
    + symmetry. apply Z.mod_small. lia.
    + symmetry. apply Z.ltb_ge. lia.
Qed.

(** X19.  Between two keys of the wheel the transition is the walk
    around the wheel: its [diff] is the difference of the key numbers
    modulo 12, it wraps exactly when the key number falls, and it changes
    mode exactly when the two mode letters differ. *)
Theorem computeTransition_wheel (state : mixState) (candidate : Track) :
  prevSet state = true ->
  wheelKey (TrackKey (prev state)) ->
  wheelKey (TrackKey candidate) ->
  diff (computeTransition state candidate)
  = (Number (TrackKey candidate) - Number (TrackKey (prev state))) mod 12 /\
  (wrap (computeTransition state candidate) = true
   <-> Number (TrackKey candidate) < Number (TrackKey (prev state))) /\
  (modeChange (computeTransition state candidate) = true
   <-> KeyMode (TrackKey candidate) <> KeyMode (TrackKey (prev state))).
Proof.
  intros Hset [Hp _] [Hc _].
  destruct (computeTransition_on_wheel state candidate Hset Hp Hc) as [Hd Hw].
  split; [exact Hd|]. split.
  - rewrite Hw. apply Z.ltb_lt.
  - unfold computeTransition. rewrite Hset. simpl.
    destruct (Z.ltb _ 0); simpl;
      destruct (String.eqb_spec (KeyMode (TrackKey candidate))
                                (KeyMode (TrackKey (prev state)))); simpl;
      split; congruence.
Qed.

Lemma computeTransition_wheel_witness :
  prevSet Fixture.stateAfterOne = true /\
  wheelKey (TrackKey (prev Fixture.stateAfterOne)) /\
  wheelKey (TrackKey Fixture.trackThree) /\
  diff (computeTransition Fixture.stateAfterOne Fixture.trackThree)
  = (Number (TrackKey Fixture.trackThree)
     - Number (TrackKey (prev Fixture.stateAfterOne))) mod 12 /\
  (wrap (computeTransition Fixture.stateAfterOne Fixture.trackThree) = true
   <-> Number (TrackKey Fixture.trackThree)
       < Number (TrackKey (prev Fixture.stateAfterOne))) /\
  (modeChange (computeTransition Fixture.stateAfterOne Fixture.trackThree) = true
   <-> KeyMode (TrackKey Fixture.trackThree)
       <> KeyMode (TrackKey (prev Fixture.stateAfterOne))).
Proof.
  assert (H1 : prevSet Fixture.stateAfterOne = true) by reflexivity.
  assert (H2 : wheelKey (TrackKey (prev Fixture.stateAfterOne)))
    by (split; simpl; [lia | by left]).
  assert (H3 : wheelKey (TrackKey Fixture.trackThree))
    by (split; simpl; [lia | by left]).
  repeat (split; [assumption|]).
  exact (computeTransition_wheel _ _ H1 H2 H3).
Defined.

Lemma cycleIndex_stateAfter (seq : list Track) :
  forall state : mixState,
    prevSet state = true ->
    1 <= Number (TrackKey (prev state)) <= 12 ->
    Forall (fun t => 1 <= Number (TrackKey t) <= 12) seq ->
    cycleIndex (stateAfter state seq) = cycleIndex state + descents (prev state) seq.
Proof.
  induction seq as [|next seq IH]; intros state Hset Hp Hseq; [simpl; lia|].
  apply Forall_cons in Hseq as [Hn Hseq].
  destruct (computeTransition_on_wheel state next Hset Hp Hn) as [_ Hw].
  change (stateAfter state (next :: seq)) with (stateAfter (advance state next) seq).
  rewrite IH; clear IH.
  - unfold advance. rewrite Hset. simpl. rewrite Hw.
    destruct (Number (TrackKey next) <? Number (TrackKey (prev state))); lia.
  - unfold advance. by rewrite Hset.
  - unfold advance. by rewrite Hset.
  - exact Hseq.
Qed.

(** X20.  On tracks whose keys lie on the wheel, the cycle index of the
    state counts the places of the sequence placed so far at which the key
    number falls from one track to the next. *)
Theorem cycleIndex_descents `{RandSource} (p : mixPlanner) (start : Track)
    (seq : list Track) :
  Forall (fun t => wheelKey (TrackKey t)) (start :: seq) ->
  cycleIndex (stateAfter (initialState p start) seq) = descents start seq.
Proof.
  intros Hkeys. apply Forall_cons in Hkeys as [[Hs _] Hseq].
  rewrite cycleIndex_stateAfter; simpl; auto.
  eapply Forall_impl; [exact Hseq|]. by intros t [Ht _].
Qed.

Lemma cycleIndex_descents_witness :
  Forall (fun t => wheelKey (TrackKey t))
         (Fixture.trackTwo :: [Fixture.trackThree; Fixture.trackOne; Fixture.trackTwo]) /\
  descents Fixture.trackTwo [Fixture.trackThree; Fixture.trackOne; Fixture.trackTwo] = 1 /\
  cycleIndex (stateAfter (initialState Fixture.plannerThree Fixture.trackTwo)
                         [Fixture.trackThree; Fixture.trackOne; Fixture.trackTwo])
  = descents Fixture.trackTwo [Fixture.trackThree; Fixture.trackOne; Fixture.trackTwo].
Proof.
  assert (H : Forall (fun t => wheelKey (TrackKey t))
                (Fixture.trackTwo
                 :: [Fixture.trackThree; Fixture.trackOne; Fixture.trackTwo]))
    by (repeat constructor; simpl; try lia; by left).
  split; [exact H|]. split; [reflexivity|].
  exact (cycleIndex_descents (H := Fixture.lcg) Fixture.plannerThree _ _ H).
Defined.

Lemma nonDescending_snoc (run : list Track) (a b : Track) :
  nonDescending run -> last run = Some a ->
  Number (TrackKey a) <= Number (TrackKey b) ->
  nonDescending (run ++ [b]).
Proof.
  induction run as [|x [|y run] IH]; intros Hrun Hlast Hab.
  - discriminate.
  - simpl in *. injection Hlast as ->. auto.
  - destruct Hrun as [Hxy Hrun]. split; [exact Hxy|].
    apply IH; auto.
Qed.

Lemma tracksInCycle_stateAfter (seq : list Track) :
  forall (state : mixState) (hist run : list Track),
    prevSet state = true ->
    1 <= Number (TrackKey (prev state)) <= 12 ->
    Forall (fun t => 1 <= Number (TrackKey t) <= 12) seq ->
    currentCycle hist run ->
    last run = Some (prev state) ->
    tracksInCycle state = Z.of_nat (length run) ->
    exists run',
      currentCycle (hist ++ seq) run' /\
      tracksInCycle (stateAfter state seq) = Z.of_nat (length run').
Proof.
  induction seq as [|next seq IH]; intros state hist run Hset Hp Hseq Hcycle Hlast Hlen.
  - exists run. by rewrite app_nil_r.
  - apply Forall_cons in Hseq as [Hn Hseq].
    destruct (computeTransition_on_wheel state next Hset Hp Hn) as [_ Hw].
    destruct (advance_prev state next) as [Hprev Hset'].
    change (stateAfter state (next :: seq)) with (stateAfter (advance state next) seq).
    replace (hist ++ next :: seq) with ((hist ++ [next]) ++ seq)
      by (by rewrite <- app_assoc).
    destruct Hcycle as (Hne & Hnd & pre & Hhist & Hbound).
    destruct (Z.ltb_spec (Number (TrackKey next)) (Number (TrackKey (prev state))))
      as [Hfall|Hrise].
    + apply (IH (advance state next) (hist ++ [next]) [next]); auto.
      * by rewrite Hprev.
      * split; [discriminate|]. split; [exact I|].
        exists hist. split; [reflexivity|].
        intros a b Ha [= <-]. rewrite Hhist, last_app, Hlast in Ha.
        injection Ha as <-. exact Hfall.
      * by rewrite Hprev.
      * unfold advance. rewrite Hset. simpl. by rewrite Hw.
    + apply (IH (advance state next) (hist ++ [next]) (run ++ [next])); auto.
      * by rewrite Hprev.
      * split; [by destruct run|].
        split; [by apply (nonDescending_snoc run (prev state))|].
        exists pre. split; [by rewrite Hhist, app_assoc|].
        intros a b Ha Hb. apply (Hbound a b Ha).
        destruct run; [done | exact Hb].
      * by rewrite last_snoc, Hprev.
      * unfold advance. rewrite Hset. simpl. rewrite Hw, Hlen, length_app. simpl. lia.
Qed.

(** X29.  On tracks whose keys lie on the wheel, the number of tracks in
    the cycle, which the score reads, is the length of the current cycle
    of the sequence placed so far: of the longest run at its end in which
    the key number never falls from one track to the next. *)
Theorem tracksInCycle_currentCycle `{RandSource} (p : mixPlanner) (start : Track)
    (seq : list Track) :
  Forall (fun t => wheelKey (TrackKey t)) (start :: seq) ->
  exists run,
    currentCycle (start :: seq) run /\
    tracksInCycle (stateAfter (initialState p start) seq) = Z.of_nat (length run).
Proof.
  intros Hkeys. apply Forall_cons in Hkeys as [[Hs _] Hseq].
  apply (tracksInCycle_stateAfter seq (initialState p start) [start] [start]); auto.
  - eapply Forall_impl; [exact Hseq|]. by intros t [Ht _].
  - split; [discriminate|]. split; [exact I|].
    exists []. split; [reflexivity|]. intros a b [=].
Qed.

Lemma tracksInCycle_currentCycle_witness :
  Forall (fun t => wheelKey (TrackKey t))
         (Fixture.trackTwo :: [Fixture.trackThree; Fixture.trackOne; Fixture.trackTwo]) /\
  tracksInCycle (stateAfter (initialState Fixture.plannerThree Fixture.trackTwo)
                            [Fixture.trackThree; Fixture.trackOne; Fixture.trackTwo])
  = 2 /\
  exists run,
    currentCycle
      (Fixture.trackTwo :: [Fixture.trackThree; Fixture.trackOne; Fixture.trackTwo])
      run /\
    tracksInCycle (stateAfter (initialState Fixture.plannerThree Fixture.trackTwo)
                              [Fixture.trackThree; Fixture.trackOne; Fixture.trackTwo])
    = Z.of_nat (length run).
Proof.
  assert (H : Forall (fun t => wheelKey (TrackKey t))
                (Fixture.trackTwo
                 :: [Fixture.trackThree; Fixture.trackOne; Fixture.trackTwo]))
    by (repeat constructor; simpl; try lia; by left).
  split; [exact H|]. split; [reflexivity|].
  exact (tracksInCycle_currentCycle (H := Fixture.lcg) Fixture.plannerThree _ _ H).
Defined.

(** ** The order of the categories *)

(** X21.  [categoryOrder] returns each of the five categories exactly
    once, and in the order of [categoryOrderSpec]: 0, 1, 2, 3, 4 with
    category 3 moved to the front once a previous track exists and the
    letter has not flipped for five steps, and with 0 and 1 exchanged once
    a previous track exists and no step of two was taken for two steps. *)
Theorem categoryOrder_closed_form (state : mixState) :
  categoryOrder state = categoryOrderSpec state /\
  Permutation (categoryOrder state) [0; 1; 2; 3; 4].
Proof.
  assert (Heq : categoryOrder state = categoryOrderSpec state).
  { unfold categoryOrder, categoryOrderSpec, varietyStepThreshold, varietyLetterThreshold.
    destruct (prevSet state); simpl; [|reflexivity].
    destruct (2 <=? stepsSinceStep2 state);
      destruct (2 <=? stepsSinceStep1 state);
      destruct (5 <=? stepsSinceLetterFlip state); reflexivity. }
  split; [exact Heq|]. rewrite Heq. unfold categoryOrderSpec.
  destruct (prevSet state && _); destruct (prevSet state && _); simpl.
  - transitivity (3 :: [0; 1; 2] ++ [4]); [apply perm_skip, perm_swap|].
    apply (Permutation_middle [0; 1; 2] [4] 3).
  - apply (Permutation_middle [0; 1; 2] [4] 3).
  - apply perm_swap.
  - reflexivity.
Qed.

(** ** The buckets and the choice *)

Section Priority.

Context {rand : RandSource}.

(** X22.  After the first loop of [chooseNextIndex] the bucket of a
    category holds a choice exactly when some track of the pool falls in
    the category, and the choice it holds is the index of such a track. *)
Theorem scanBuckets_exact (p : mixPlanner) (state : mixState) (category : Z) :
  0 <= category <= 4 ->
  (isSet (fst (scanBuckets p state)) category <->
   exists candidate, In candidate (remaining p) /\ categoryOf state candidate = category) /\
  forall best,
    fst (scanBuckets p state) !! Z.to_nat category = Some best ->
    choiceSet best = true ->
    exists candidate,
      remaining p !! choiceIdx best = Some candidate /\
      categoryOf state candidate = category.
Proof.
  intros Hc.
  destruct (scanBuckets_sound p state) as [_ Hsound].
  assert (Hbest : forall best,
             fst (scanBuckets p state) !! Z.to_nat category = Some best ->
             choiceSet best = true ->
             exists candidate,
               remaining p !! choiceIdx best = Some candidate /\
               categoryOf state candidate = category).
  { intros best Hb Hs. destruct (Hsound _ _ Hb Hs) as (candidate & Hcand & Hcat).
    exists candidate. split; [exact Hcand|]. rewrite Hcat. lia. }
  split; [|exact Hbest]. split.
  - intros (best & Hb & Hs). destruct (Hbest best Hb Hs) as (candidate & Hcand & Hcat).
    exists candidate. split; [|exact Hcat].
    apply list_elem_of_In, list_elem_of_lookup. eauto.
  - intros (candidate & Hin & <-).
    apply list_elem_of_In, list_elem_of_lookup in Hin as [i Hi].
    by apply (scanBuckets_covers p state i candidate).
Qed.

(** The second loop of [chooseNextIndex] returns the choice of the first
    category of the order whose bucket is set. *)
Lemma firstSet_split (buckets : list choice) (order : list Z) (idx : nat) :
  firstSet buckets order = Some idx ->
  exists before category after best,
    order = before ++ category :: after /\
    buckets !! Z.to_nat category = Some best /\
    choiceSet best = true /\ choiceIdx best = idx /\
    forall c, In c before -> ~ isSet buckets c.
Proof.
  induction order as [|a order IH]; simpl; [discriminate|].
  intros Hfirst.
  assert (Hrest : ~ isSet buckets a -> firstSet buckets order = Some idx ->
          exists before category after best,
            a :: order = before ++ category :: after /\
            buckets !! Z.to_nat category = Some best /\
            choiceSet best = true /\ choiceIdx best = idx /\
            forall c, In c before -> ~ isSet buckets c).
  { intros Ha Hf. destruct (IH Hf) as (before & c & after & best & -> & Hb & Hs & Hi & Hn).
    exists (a :: before), c, after, best. repeat split; auto.
    intros c' [<- | Hin]; auto. }
  destruct (buckets !! Z.to_nat a) as [best|] eqn:Ha.
  - destruct (choiceSet best) eqn:Hbest.
    + injection Hfirst as <-. exists [], a, order, best. repeat split; auto.
    + apply Hrest; [|exact Hfirst]. intros (b & Hb & Hbs). congruence.
  - apply Hrest; [|exact Hfirst]. intros (b & Hb & Hbs). congruence.
Qed.

(** X23.  The track chosen for the next place falls in the first
    category of [categoryOrder] that any track of the pool falls in: no
    track of the pool is in a category that the order puts before the
    category of the chosen track. *)
Theorem chooseNextIndex_priority (p : mixPlanner) (state : mixState) :
  remaining p <> [] ->
  exists next before after,
    remaining p !! fst (chooseNextIndex p state) = Some next /\
    categoryOrder state = before ++ categoryOf state next :: after /\
    forall candidate,
      In candidate (remaining p) -> ~ In (categoryOf state candidate) before.
Proof.
  intros Hpool.
  destruct (remaining p) as [|c0 pool] eqn:Hrem; [congruence|].
  assert (Hcover0 : isSet (fst (scanBuckets p state)) (categoryOf state c0)).
  { apply (scanBuckets_covers p state 0 c0). by rewrite Hrem. }
  pose proof (categorizeTransition_range state (computeTransition state c0)) as Hr.
  fold (categoryOf state c0) in Hr.
  destruct (firstSet_front (fst (scanBuckets p state)) (categoryOrder state) []
              (categoryOf state c0))
    as (c' & best0 & _ & _ & _ & Hfirst);
    [by apply categoryOrder_complete | exact Hcover0 |].
  rewrite app_nil_r in Hfirst.
  destruct (firstSet_split _ _ _ Hfirst)
    as (before & category & after & best & Horder & Hb & Hset & Hidx & Hbefore).
  assert (Hcat : 0 <= category <= 4).
  { assert (Hin : In category (categoryOrder state))
      by (rewrite Horder; apply in_or_app; right; by left).
    destruct (categoryOrder_cases state) as [He | [He | [He | He]]];
      rewrite He in Hin; simpl in Hin; lia. }
  destruct (scanBuckets_sound p state) as [_ Hsound].
  destruct (Hsound _ _ Hb Hset) as (next & Hnext & Hcn).
  rewrite Z2Nat.id in Hcn by lia.
  assert (Hchosen : fst (chooseNextIndex p state) = choiceIdx best0).
  { unfold chooseNextIndex. destruct (scanBuckets p state) as [buckets g].
    simpl in Hfirst. by rewrite Hfirst. }
  exists next, before, after. rewrite Hchosen, <- Hidx, <- Hrem, Hcn.
  split; [exact Hnext|]. split; [exact Horder|].
  intros candidate Hin Hbad.
  apply (Hbefore _ Hbad).
  apply list_elem_of_In, list_elem_of_lookup in Hin as [i Hi].
  by apply (scanBuckets_covers p state i candidate).
Qed.

End Priority.

Lemma scanBuckets_exact_witness :
  0 <= 1 <= 4 /\
  (isSet (fst (scanBuckets Fixture.plannerThree Fixture.stateAfterOne)) 1 <->
   exists candidate,
     In candidate (remaining Fixture.plannerThree) /\
     categoryOf Fixture.stateAfterOne candidate = 1) /\
  forall best,
    fst (scanBuckets Fixture.plannerThree Fixture.stateAfterOne) !! Z.to_nat 1
    = Some best ->
    choiceSet best = true ->
    exists candidate,
      remaining Fixture.plannerThree !! choiceIdx best = Some candidate /\
      categoryOf Fixture.stateAfterOne candidate = 1.
Proof.
  assert (H : 0 <= 1 <= 4) by lia.
  split; [exact H|].
  exact (scanBuckets_exact (rand := Fixture.lcg) Fixture.plannerThree
           Fixture.stateAfterOne 1 H).
Defined.

Lemma chooseNextIndex_priority_witness :
  remaining Fixture.plannerThree <> [] /\
  exists next before after,
    remaining Fixture.plannerThree
      !! fst (chooseNextIndex Fixture.plannerThree Fixture.stateAfterOne) = Some next /\
    categoryOrder Fixture.stateAfterOne
    = before ++ categoryOf Fixture.stateAfterOne next :: after /\
    forall candidate,
      In candidate (remaining Fixture.plannerThree) ->
      ~ In (categoryOf Fixture.stateAfterOne candidate) before.
Proof.
  assert (H : remaining Fixture.plannerThree <> []) by discriminate.
  split; [exact H|].
  exact (chooseNextIndex_priority (rand := Fixture.lcg) Fixture.plannerThree
           Fixture.stateAfterOne H).
Defined.

(** ** Shallow options, for any maximal step *)

Section ShallowOption.

Context {rand : RandSource}.



(** X27.  The share of the input that the output is to cover, as the
    score uses it, is clamped: it is never below 0.1 and never above 1. *)
Theorem coverageOf_clamped (p : mixPlanner) :
  (coverageOf p <? 0.1)%float = false /\ (1 <? coverageOf p)%float = false.
Proof.
  unfold coverageOf. destruct (0 <? totalTracks p); [|by vm_compute].
  destruct (1 <? float_of_int (targetCount p) / float_of_int (totalTracks p))%float
    eqn:Hhigh.
  - by vm_compute.
  - destruct (float_of_int (targetCount p) / float_of_int (totalTracks p) <? 0.1)%float
      eqn:Hlow.
    + by vm_compute.
    + by rewrite Hlow, Hhigh.
Qed.

End ShallowOption.

(** ** The floor of the energy cost *)

Lemma energyVariety_floor (state : mixState) (drop cost : float) :
  (energyVariety state drop cost <? -5)%float = false.
Proof.
  unfold energyVariety.
  match goal with
  | |- ((if (?c <? -5)%float then _ else _) <? _)%float = _ =>
      destruct (c <? -5)%float eqn:Hc; [by vm_compute | exact Hc]
  end.
Qed.

(** X28.  Once a previous track exists, the energy cost of a transition
    is never below -5, whatever rewards the variety terms grant. *)
Theorem energyTransitionCost_floor (state : mixState) (candidate : Track)
    (trans : transition) (stats : mixStats) (desiredCycleLen : Z) :
  prevSet state = true ->
  (energyTransitionCost state candidate trans stats desiredCycleLen <? -5)%float = false.
Proof.
  intros Hset. unfold energyTransitionCost. rewrite Hset. cbv zeta. simpl negb. cbv iota.
  destruct (wrap trans); apply energyVariety_floor.
Qed.

Lemma energyTransitionCost_floor_witness :
  prevSet Fixture.stateAfterOne = true /\
  (energyTransitionCost Fixture.stateAfterOne Fixture.trackThree
     (computeTransition Fixture.stateAfterOne Fixture.trackThree)
     (stats Fixture.plannerThree) (desiredCycleLength Fixture.plannerThree)
   <? -5)%float = false.
Proof.
  assert (H : prevSet Fixture.stateAfterOne = true) by reflexivity.
  split; [exact H|].
  exact (energyTransitionCost_floor Fixture.stateAfterOne Fixture.trackThree
           (computeTransition Fixture.stateAfterOne Fixture.trackThree)
           (stats Fixture.plannerThree) (desiredCycleLength Fixture.plannerThree) H).
Defined.
